(** * Fine-tuning script [EX2/main.py]: a shallow embedding and its properties

    The script sequences calls into torch and torchvision.  What the script
    itself decides (the epoch/phase/batch loop, the running metrics, the
    checkpoint policy, the split sizes, the seeding) is embedded below as
    executable definitions.  The numeric library is an external collaborator:
    its operations (forward pass, loss, back-propagation, optimiser update,
    random permutations) are the variables of the sections.

    Conventions.
    - Python floats and 0-dim tensors are modelled as rationals [Q].  The
      losses and the accuracies are exact: their rounding, infinities and
      NaN are outside the model.  The learning rate is kept as the double
      it is: the scheduler multiplies it in double precision.  The one
      float that is turned into an integer, the training size of line 128,
      is also computed in double precision and compared.
    - Exceptions are modelled by a result type; a raised exception keeps the
      state reached so far, so that files already written stay written.
    - The state carries a ghost log, in program order, of the operations
      performed and of the lines printed; the elapsed time of line 99 is
      not part of it. *)

From Stdlib Require Import QArith Qround Qpower Permutation SpecFloat.
From stdpp Require Import gmap strings list pretty.

Local Open Scope Q_scope.
Local Open Scope nat_scope.

(** ** Python-level preliminaries *)

Inductive Phase := Train | Val.

Definition is_train (ph : Phase) : bool :=
  match ph with Train => true | Val => false end.

Definition is_val (ph : Phase) : bool :=
  match ph with Train => false | Val => true end.

Inductive PyError :=
| UnboundLocalError (var : string)
| ZeroDivisionError
| AttributeError (attr : string).

Inductive Res (A : Type) :=
| Ok (a : A)
| Raise (e : PyError).
Arguments Ok {A} a.
Arguments Raise {A} e.

(** [running_corrects] starts as the Python integer [0] and becomes a tensor
    with the first [+= torch.sum(...)]. *)
Inductive PyCount :=
| PyInt (n : nat)
| PyTensor (n : nat).

Definition count_add_tensor (c : PyCount) (k : nat) : PyCount :=
  match c with
  | PyInt n => PyTensor (n + k)
  | PyTensor n => PyTensor (n + k)
  end.

Definition Qofnat (n : nat) : Q := inject_Z (Z.of_nat n).

(** Strict comparison [x < y] on rationals, as a boolean. *)
Definition Qltb (x y : Q) : bool := negb (Qle_bool y x).

(** [os.path.join(a, b)] for a relative [b]. *)
Definition path_join (a b : string) : string := a +:+ "/" +:+ b.

Definition best_model_name : string := "best_model.pth".

(** [f'model_epoch_{n}.pth'] *)
Definition model_epoch_name (n : nat) : string :=
  "model_epoch_" +:+ pretty n +:+ ".pth".

(** The closed form of the step schedule of the script. *)
Definition step_lr (e : nat) : Q := ((1 # 1000) * (1 # 10) ^ Z.of_nat (e / 7))%Q.

(** ** Double precision

    A double is kept as the rational it is.  [fl64 x] is the double nearest
    to [x], ties to even, with gradual underflow; magnitudes beyond the
    largest finite double are outside the model. *)

(** Cancels the factors of two that [a] and [b] share. *)
Fixpoint strip2 (a b : positive) : positive * positive :=
  match a, b with
  | xO a', xO b' => strip2 a' b'
  | _, _ => (a, b)
  end.

(** The integer nearest to [num / den], ties to even. *)
Definition round_half_even (num den : positive) : Z :=
  let '(a, b) := strip2 num den in
  let q := (Zpos a / Zpos b)%Z in
  let r := (Zpos a mod Zpos b)%Z in
  if (2 * r <? Zpos b)%Z then q
  else if (Zpos b <? 2 * r)%Z then (q + 1)%Z
  else if Z.even q then q else (q + 1)%Z.

(** [p × 2^n] for [n ≥ 0]. *)
Definition pos_shift (p : positive) (n : Z) : positive :=
  Pos.shiftl p (Z.to_N n).

(** [floor (log2 (p / q))] *)
Definition floor_log2 (p q : positive) : Z :=
  let e := (Z.log2 (Zpos p) - Z.log2 (Zpos q))%Z in
  let below := if (0 <=? e)%Z then (p <? pos_shift q e)%positive
               else (pos_shift p (- e) <? q)%positive in
  if below then (e - 1)%Z else e.

(** The double nearest to [p / q]: a multiple of [2 ^ s], where [s] leaves
    53 significant bits and is at least the exponent of the smallest
    subnormal number. *)
Definition fl64_pos (p q : positive) : Q :=
  let s := Z.max (floor_log2 p q - 52) (-1074) in
  if (0 <=? s)%Z
  then inject_Z (Z.shiftl (round_half_even p (pos_shift q s)) s)
  else round_half_even (pos_shift p (- s)) q # pos_shift 1 (- s).

Definition fl64 (x : Q) : Q :=
  match Qnum x with
  | Z0 => 0%Q
  | Zpos p => fl64_pos p (Qden x)
  | Zneg p => (- fl64_pos p (Qden x))%Q
  end.

(** The literals [0.001] and [0.1] of lines 155 and 158. *)
Definition float_0_001 : Q := fl64 (1 # 1000).
Definition float_0_1 : Q := fl64 (1 # 10).

(** The rate after [k] decays: [0.001] multiplied [k] times by [0.1], every
    product rounded to a double. *)
Definition chained_lr (k : nat) : Q :=
  Nat.iter k (fun r => fl64 (r * float_0_1)) float_0_001.

(** The value of a binary64 number of the standard library, and the two
    literals given by their significands and exponents. *)
Definition Q_of_binary64 (x : spec_float) : Q :=
  match x with
  | S754_finite sign m e =>
      let v := if (0 <=? e)%Z then inject_Z (Z.shiftl (Zpos m) e)
               else Zpos m # pos_shift 1 (- e) in
      if sign then (- v)%Q else v
  | _ => 0%Q
  end.

Definition binary64_0_001 : spec_float :=
  binary_normalize 53 1024 1152921504606847 (-60) false.
Definition binary64_0_1 : spec_float :=
  binary_normalize 53 1024 3602879701896397 (-55) false.

(** From the binary64 number [x] and the rational [r] on, [n] decays by the
    binary64 multiplication of the standard library and by [fl64] give the
    same values. *)
Fixpoint chains_agree (n : nat) (x : spec_float) (r : Q) : bool :=
  Qeq_bool (Q_of_binary64 x) r
  && match n with
     | 0 => true
     | S n' => chains_agree n' (SFmul 53 1024 x binary64_0_1)
                 (fl64 (r * float_0_1))
     end.

(** [r] is within one part in 10^13 of [c]. *)
Definition close_to (c r : Q) : Prop :=
  (c * (1 - (1 # 10000000000000)) <= r)%Q
  ∧ (r <= c * (1 + (1 # 10000000000000)))%Q.

Definition close_to_bool (c r : Q) : bool :=
  Qle_bool (c * (1 - (1 # 10000000000000))) r
  && Qle_bool r (c * (1 + (1 # 10000000000000))).

(** From the rate [r] and the exact value [c] on, the rate stays close to
    the exact value over [n] decays. *)
Fixpoint chain_close (n : nat) (r c : Q) : bool :=
  close_to_bool c r
  && match n with
     | 0 => true
     | S n' => chain_close n' (fl64 (r * float_0_1)) (c * (1 # 10))
     end.

(** Two readings of the closed form in doubles: the double nearest to
    [0.001 × 0.1^k], and the value of the expression [0.001 * 0.1 ** k]
    with a correctly rounded power. *)
Definition nearest_lr (e : nat) : Q := fl64 (step_lr e).
Definition python_lr (e : nat) : Q :=
  fl64 (float_0_001 * fl64 (float_0_1 ^ Z.of_nat (e / 7))).

(** ** The log and its readings *)

Section Logs.

Context {Params : Type}.

(** What the ghost log records, in program order.  The header stands for
    the lines printed at lines 41-46, [EvReport] for line 82, [EvEpochEnd]
    for the empty line of line 96, [EvTrainingComplete] for line 99 and
    [EvBestAcc] for line 100. *)
Inductive Event :=
| EvEpochHeader (epoch : nat) (lr : Q)
| EvPhaseBegin (ph : Phase) (epoch : nat) (w : Params)
| EvZeroGrad (ph : Phase) (epoch : nat)
| EvForward (ph : Phase) (epoch : nat)
| EvBackward (ph : Phase) (epoch : nat)
| EvOptimStep (ph : Phase) (epoch : nat) (lr : Q)
| EvSchedStep (epoch : nat)
| EvReport (ph : Phase) (epoch : nat) (loss acc : Q) (w : Params)
| EvSaveBest (epoch : nat) (acc : Q) (w : Params)
| EvSaveEpoch (n : nat) (w : Params)
| EvEpochEnd (epoch : nat)
| EvTrainingComplete
| EvBestAcc (acc : Q).


(** A validation report: epoch, accuracy, and the weights held by the model
    when the report is printed. *)
Definition ValReport : Type := nat * Q * Params.

Definition rep_epoch (x : ValReport) : nat := fst (fst x).
Definition rep_acc (x : ValReport) : Q := snd (fst x).
Definition rep_wts (x : ValReport) : Params := snd x.

Definition val_report (ev : Event) : option ValReport :=
  match ev with
  | EvReport Val e _ a w => Some (e, a, w)
  | _ => None
  end.

Definition best_save (ev : Event) : option ValReport :=
  match ev with
  | EvSaveBest e a w => Some (e, a, w)
  | _ => None
  end.

Definition val_reports (l : list Event) : list ValReport :=
  omap val_report l.

Definition best_saves (l : list Event) : list ValReport :=
  omap best_save l.

(** The reports that beat a running threshold, and the threshold reached
    at the end. *)
Fixpoint records (b : Q) (vr : list ValReport) : list ValReport :=
  match vr with
  | [] => []
  | x :: r => if Qltb b (rep_acc x) then x :: records (rep_acc x) r
              else records b r
  end.

Fixpoint threshold (b : Q) (vr : list ValReport) : Q :=
  match vr with
  | [] => b
  | x :: r => threshold (if Qltb b (rep_acc x) then rep_acc x else b) r
  end.

(** The epoch numbers of the periodic checkpoints written. *)
Definition epoch_save (ev : Event) : option nat :=
  match ev with
  | EvSaveEpoch n _ => Some n
  | _ => None
  end.

Definition epoch_saves (l : list Event) : list nat := omap epoch_save l.

(** The order of the phases: what is kept of an event. *)
Inductive Step :=
| EpochBegin (epoch : nat)
| TrainBatch (epoch : nat)
| ScheduleAdvance (epoch : nat)
| ValBatch (epoch : nat).

Definition step_of (ev : Event) : option Step :=
  match ev with
  | EvEpochHeader e _ => Some (EpochBegin e)
  | EvForward Train e => Some (TrainBatch e)
  | EvSchedStep e => Some (ScheduleAdvance e)
  | EvForward Val e => Some (ValBatch e)
  | _ => None
  end.

Definition steps (l : list Event) : list Step := omap step_of l.

(** The learning rate printed in a header or used by an optimiser update. *)
Definition lr_at (ev : Event) : option (nat * Q) :=
  match ev with
  | EvEpochHeader e r => Some (e, r)
  | EvOptimStep _ e r => Some (e, r)
  | _ => None
  end.

(** Loss and accuracy of a report. *)
Definition metrics (ev : Event) : option (Q * Q) :=
  match ev with
  | EvReport _ _ l a _ => Some (l, a)
  | _ => None
  end.

(** The phase of an event that goes beyond a forward pass. *)
Definition update_phase (ev : Event) : option Phase :=
  match ev with
  | EvBackward ph _ => Some ph
  | EvOptimStep ph _ _ => Some ph
  | _ => None
  end.

(** *** Statements about the "best" checkpoint *)

(** The "best" checkpoint is written at an epoch exactly when its
    validation accuracy exceeds that of every earlier epoch. *)
Definition best_written_on_new_maximum (l : list Event) : Prop :=
  ∀ i x, val_reports l !! i = Some x →
    (x ∈ best_saves l ↔
     ∀ j y, j < i → val_reports l !! j = Some y →
            (rep_acc y < rep_acc x)%Q).

(** The same, with the initial best accuracy [0.0] to be exceeded too. *)
Definition best_written_on_new_positive_maximum (l : list Event) : Prop :=
  ∀ i x, val_reports l !! i = Some x →
    (x ∈ best_saves l ↔
     (0 < rep_acc x)%Q
     ∧ ∀ j y, j < i → val_reports l !! j = Some y →
              (rep_acc y < rep_acc x)%Q).

(** The accuracies of successive "best" writes increase. *)
Definition best_saves_increasing (l : list Event) : Prop :=
  ∀ i j x y, i < j → best_saves l !! i = Some x → best_saves l !! j = Some y →
             (rep_acc x < rep_acc y)%Q.

(** The call returns the weights held at the validation report of
    highest accuracy. *)
Definition returns_weights_of_best_epoch (r : Res Params) (l : list Event)
  : Prop :=
  ∃ w x, r = Ok w ∧ x ∈ val_reports l ∧ rep_wts x = w
         ∧ ∀ y, y ∈ val_reports l → (rep_acc y <= rep_acc x)%Q.

(** The call returns the weights held at the first validation report of
    highest accuracy when that accuracy exceeds [0.0], and the weights
    [w0] otherwise. *)
Definition returns_first_best_or_initial (w0 : Params) (r : Res Params)
    (l : list Event) : Prop :=
  ∃ w, r = Ok w
    ∧ ((∃ i x, val_reports l !! i = Some x ∧ rep_wts x = w
               ∧ (0 < rep_acc x)%Q
               ∧ (∀ y, y ∈ val_reports l → (rep_acc y <= rep_acc x)%Q)
               ∧ (∀ j y, j < i → val_reports l !! j = Some y →
                         (rep_acc y < rep_acc x)%Q))
       ∨ (w = w0 ∧ ∀ y, y ∈ val_reports l → (rep_acc y <= 0)%Q)).

(** *** Statement about the learning rate *)

(** Every learning rate shown for epoch [e], in its header or in an
    optimiser update, equals [closed e]. *)
Definition rates_equal (closed : nat -> Q) (l : list Event) : Prop :=
  ∀ ev e rate, ev ∈ l → lr_at ev = Some (e, rate) → (rate == closed e)%Q.

End Logs.

Arguments Event : clear implicits.

(** A report shows a loss that is not negative and an accuracy between
    zero and one. *)
Definition metrics_ok {Params} (ev : Event Params) : Prop :=
  match metrics ev with
  | Some (l, a) => (0 <= l)%Q ∧ (0 <= a)%Q ∧ (a <= 1)%Q
  | None => True
  end.

(** An event that shows a learning rate shows the one of the chain of
    double products. *)
Definition lr_ok {Params} (ev : Event Params) : Prop :=
  match lr_at ev with
  | Some (e, r) => r = chained_lr (e / 7)
  | None => True
  end.

(** The order inside one phase, then inside one epoch, with [nt e] training
    batches and [nv e] validation batches in epoch [e], as the loop performs
    them. *)
Definition phase_steps (nt nv : nat -> nat) (ph : Phase) (e : nat) : list Step :=
  match ph with
  | Train => repeat (TrainBatch e) (nt e) ++ [ScheduleAdvance e]
  | Val => repeat (ValBatch e) (nv e)
  end.

Definition epoch_steps (nt nv : nat -> nat) (e : nat) : list Step :=
  EpochBegin e :: phase_steps nt nv Train e ++ phase_steps nt nv Val e.

Definition run_steps (nt nv : nat -> nat) (num_epochs : nat) : list Step :=
  concat (map (epoch_steps nt nv) (seq 0 num_epochs)).

(** The order of one epoch with the schedule advanced after validation. *)
Definition epoch_steps_sched_last (nt nv : nat -> nat) (e : nat) : list Step :=
  EpochBegin e :: repeat (TrainBatch e) (nt e)
    ++ repeat (ValBatch e) (nv e) ++ [ScheduleAdvance e].

Definition run_steps_sched_last (nt nv : nat -> nat) (num_epochs : nat) : list Step :=
  concat (map (epoch_steps_sched_last nt nv) (seq 0 num_epochs)).

(** ** The training function *)

Section TrainModel.

(** Types owned by the numeric library. *)
Context {Params Grads OptBuf Input Scores : Type}.

(** [model(inputs)]; the boolean is [model.training].  The call is taken
    as a function of the weights: it leaves the module as it is. *)
Variable forward : bool -> Params -> list Input -> list Scores.
(** Second component of [torch.max(outputs, 1)], per row. *)
Variable argmax : Scores -> nat.
(** [criterion(outputs, labels)], then [.item()]. *)
Variable criterion : list Scores -> list nat -> Q.
(** [loss.backward()]: accumulates into the gradients already stored. *)
Variable backward : Params -> list Input -> list nat -> option Grads -> Grads.
(** [optimizer.step()] of SGD with momentum at the given learning rate. *)
Variable sgd_step : Q -> Params -> option Grads -> OptBuf -> Params * OptBuf.

(** The globals read by [train_model].  [dataloaders ph k] is the sequence
    of batches produced the [k]-th time the loader of phase [ph] is
    iterated; each loader is iterated once per epoch. *)
Variable dataloaders : Phase -> nat -> list (list (Input * nat)).
Variable dataset_sizes : Phase -> nat.

Record Model := {
  params : Params;
  training : bool;
  grad : option Grads;
}.

Record Optimizer := {
  lr : Q;
  momentum_buf : OptBuf;
}.

(** [lr_scheduler.StepLR]. *)
Record Scheduler := {
  step_size : nat;
  gamma : Q;
  last_epoch : nat;
}.

Record FileSystem := {
  dirs : gset string;
  files : gmap string Params;
}.

(** Local variables of [train_model]. *)
Record Locals := {
  best_model_wts : Params;
  best_acc : Q;
  save_dir : option string;
  running_loss : Q;
  running_corrects : PyCount;
}.

Record State := {
  model : Model;
  optimizer : Optimizer;
  scheduler : Scheduler;
  fs : FileSystem;
  locals : Locals;
  log : list (Event Params);
}.

Definition with_model (m : Model) (s : State) : State :=
  {| model := m; optimizer := optimizer s; scheduler := scheduler s;
     fs := fs s; locals := locals s; log := log s |}.
Definition with_optimizer (o : Optimizer) (s : State) : State :=
  {| model := model s; optimizer := o; scheduler := scheduler s;
     fs := fs s; locals := locals s; log := log s |}.
Definition with_scheduler (c : Scheduler) (s : State) : State :=
  {| model := model s; optimizer := optimizer s; scheduler := c;
     fs := fs s; locals := locals s; log := log s |}.
Definition with_fs (f : FileSystem) (s : State) : State :=
  {| model := model s; optimizer := optimizer s; scheduler := scheduler s;
     fs := f; locals := locals s; log := log s |}.
Definition with_locals (l : Locals) (s : State) : State :=
  {| model := model s; optimizer := optimizer s; scheduler := scheduler s;
     fs := fs s; locals := l; log := log s |}.
Definition with_log (l : list (Event Params)) (s : State) : State :=
  {| model := model s; optimizer := optimizer s; scheduler := scheduler s;
     fs := fs s; locals := locals s; log := l |}.

(** *** State and exception monad *)

Definition M (A : Type) : Type := State -> Res A * State.

Definition ret {A} (a : A) : M A := fun s => (Ok a, s).

Definition bind {A B} (c : M A) (k : A -> M B) : M B :=
  fun s =>
    match c s with
    | (Ok a, s') => k a s'
    | (Raise e, s') => (Raise e, s')
    end.

Definition raise {A} (e : PyError) : M A := fun s => (Raise e, s).
Definition gets {A} (f : State -> A) : M A := fun s => (Ok (f s), s).
Definition modify (f : State -> State) : M unit := fun s => (Ok tt, f s).
Definition emit (ev : Event Params) : M unit :=
  modify (fun s => with_log (log s ++ [ev]) s).
Definition when (b : bool) (c : M unit) : M unit :=
  if b then c else ret tt.

Notation "x <- c ;; k" := (bind c (fun x => k))
  (at level 100, c at next level, right associativity).
Notation "c ;;; k" := (bind c (fun _ => k))
  (at level 100, right associativity).

Fixpoint for_each {A} (l : list A) (body : A -> M unit) : M unit :=
  match l with
  | [] => ret tt
  | x :: l' => body x ;;; for_each l' body
  end.

(** *** Library calls on the state *)

(** [model.train()] / [model.eval()] *)
Definition set_mode (b : bool) : M unit :=
  modify (fun s =>
    with_model {| params := params (model s); training := b;
                  grad := grad (model s) |} s).

(** [optimizer.zero_grad()] *)
Definition zero_grad : M unit :=
  modify (fun s =>
    with_model {| params := params (model s);
                  training := training (model s); grad := None |} s).

(** [loss.backward()] *)
Definition loss_backward (inputs : list Input) (labels : list nat) : M unit :=
  modify (fun s =>
    let m := model s in
    with_model {| params := params m; training := training m;
                  grad := Some (backward (params m) inputs labels (grad m)) |} s).

(** [optimizer.step()] *)
Definition optimizer_step : M unit :=
  modify (fun s =>
    let m := model s in
    let o := optimizer s in
    let r := sgd_step (lr o) (params m) (grad m) (momentum_buf o) in
    with_optimizer {| lr := lr o; momentum_buf := snd r |}
      (with_model {| params := fst r; training := training m;
                     grad := grad m |} s)).

(** [scheduler.step()] for [StepLR]: the counter is advanced, and the rate
    is multiplied by [gamma], in double precision, when the new counter is
    a non-zero multiple of [step_size]. *)
Definition scheduler_step : M unit :=
  modify (fun s =>
    let c := scheduler s in
    let o := optimizer s in
    let n := S (last_epoch c) in
    let lr' := if (n =? 0) || negb (n mod step_size c =? 0)
               then lr o else fl64 (lr o * gamma c) in
    with_scheduler {| step_size := step_size c; gamma := gamma c;
                      last_epoch := n |}
      (with_optimizer {| lr := lr'; momentum_buf := momentum_buf o |} s)).

(** [os.makedirs(d, exist_ok=True)] *)
Definition os_makedirs (d : string) : M unit :=
  modify (fun s =>
    with_fs {| dirs := {[d]} ∪ dirs (fs s); files := files (fs s) |} s).

(** [torch.save(model.state_dict(), path)] *)
Definition torch_save (path : string) : M unit :=
  modify (fun s =>
    with_fs {| dirs := dirs (fs s);
               files := <[path := params (model s)]> (files (fs s)) |} s).

Definition set_locals (f : Locals -> Locals) : M unit :=
  modify (fun s => with_locals (f (locals s)) s).

(** *** [train_model], lines 32-103 *)

(** Lines 58-74: one batch. *)
Definition batch_body (ph : Phase) (epoch : nat) (batch : list (Input * nat))
  : M unit :=
  let inputs := map fst batch in
  let labels := map snd batch in
  zero_grad ;;; emit (EvZeroGrad ph epoch) ;;;
  m <- gets model ;;
  let outputs := forward (training m) (params m) inputs in
  let preds := map argmax outputs in
  let loss := criterion outputs labels in
  emit (EvForward ph epoch) ;;;
  when (is_train ph)
    (loss_backward inputs labels ;;; emit (EvBackward ph epoch) ;;;
     cur <- gets (fun s => lr (optimizer s)) ;;
     optimizer_step ;;; emit (EvOptimStep ph epoch cur)) ;;;
  set_locals (fun l =>
    {| best_model_wts := best_model_wts l; best_acc := best_acc l;
       save_dir := save_dir l;
       running_loss := (running_loss l + loss * Qofnat (length inputs))%Q;
       running_corrects :=
         count_add_tensor (running_corrects l)
           (length (filter (fun pl => fst pl =? snd pl) (combine preds labels)))
    |}).

(** Lines 48-94: one phase of one epoch. *)
Definition phase_body (epoch : nat) (ph : Phase) : M unit :=
  set_mode (is_train ph) ;;;
  w0 <- gets (fun s => params (model s)) ;;
  emit (EvPhaseBegin ph epoch w0) ;;;
  set_locals (fun l =>
    {| best_model_wts := best_model_wts l; best_acc := best_acc l;
       save_dir := save_dir l;
       running_loss := 0%Q; running_corrects := PyInt 0 |}) ;;;
  for_each (dataloaders ph epoch) (batch_body ph epoch) ;;;
  when (is_train ph) (scheduler_step ;;; emit (EvSchedStep epoch)) ;;;
  l <- gets locals ;;
  let size := dataset_sizes ph in
  epoch_loss <- (if size =? 0 then raise ZeroDivisionError
                 else ret (running_loss l / Qofnat size)%Q) ;;
  epoch_acc <- (match running_corrects l with
                | PyInt _ => raise (AttributeError "double")
                | PyTensor c => ret (Qofnat c / Qofnat size)%Q
                end) ;;
  w <- gets (fun s => params (model s)) ;;
  emit (EvReport ph epoch epoch_loss epoch_acc w) ;;;
  when (is_val ph && Qltb (best_acc l) epoch_acc)
    (set_locals (fun l =>
       {| best_model_wts := w; best_acc := epoch_acc;
          save_dir := Some "work_dir";
          running_loss := running_loss l;
          running_corrects := running_corrects l |}) ;;;
     os_makedirs "work_dir" ;;;
     torch_save (path_join "work_dir" best_model_name) ;;;
     emit (EvSaveBest epoch epoch_acc w)) ;;;
  when (is_train ph && ((epoch + 1) mod 2 =? 0))
    (d <- gets (fun s => save_dir (locals s)) ;;
     match d with
     | None => raise (UnboundLocalError "save_dir")
     | Some d =>
         torch_save (path_join d (model_epoch_name (epoch + 1))) ;;;
         emit (EvSaveEpoch (epoch + 1) w)
     end).

(** Lines 40-96: one epoch. *)
Definition epoch_body (epoch : nat) : M unit :=
  cur <- gets (fun s => lr (optimizer s)) ;;
  emit (EvEpochHeader epoch cur) ;;;
  for_each [Train; Val] (phase_body epoch) ;;;
  emit (EvEpochEnd epoch).

(** [model.load_state_dict(w)] *)
Definition load_state_dict (w : Params) : M unit :=
  modify (fun s =>
    with_model {| params := w; training := training (model s);
                  grad := grad (model s) |} s).

(** Lines 32-103.  The value returned is the model object; its
    [state_dict()] is given back. *)
Definition train_model (num_epochs : nat) : M Params :=
  w0 <- gets (fun s => params (model s)) ;;
  set_locals (fun l =>
    {| best_model_wts := w0; best_acc := 0%Q; save_dir := None;
       running_loss := running_loss l;
       running_corrects := running_corrects l |}) ;;;
  for_each (seq 0 num_epochs) epoch_body ;;;
  emit EvTrainingComplete ;;;
  acc <- gets (fun s => best_acc (locals s)) ;;
  emit (EvBestAcc acc) ;;;
  wts <- gets (fun s => best_model_wts (locals s)) ;;
  load_state_dict wts ;;;
  gets (fun s => params (model s)).

(** The state after lines 34-35. *)
Definition enter (s : State) : State :=
  with_locals
    {| best_model_wts := params (model s); best_acc := 0; save_dir := None;
       running_loss := running_loss (locals s);
       running_corrects := running_corrects (locals s) |} s.

(** The state after lines 98-102, from the state [s] in which the loop of
    the epochs was left. *)
Definition leave (s : State) : State :=
  with_model {| params := best_model_wts (locals s);
                training := training (model s);
                grad := grad (model s) |}
    (with_log (log s ++ [EvTrainingComplete; EvBestAcc (best_acc (locals s))])
       s).

(** The scheduler of the script after [k] steps. *)
Definition sched_at (k : nat) (s : State) : Prop :=
  last_epoch (scheduler s) = k
  ∧ step_size (scheduler s) = 7
  ∧ gamma (scheduler s) = float_0_1
  ∧ lr (optimizer s) = chained_lr (k / 7).

(** The locals and the "best" file follow the reports logged so far:
    [w_init] is the state captured on entry and [f_init] the content of
    the "best" file on entry, if it existed. *)
Definition best_path : string := path_join "work_dir" best_model_name.

Definition best_inv (w_init : Params) (f_init : option Params) (s : State)
  : Prop :=
  best_saves (log s) = records 0 (val_reports (log s))
  ∧ best_acc (locals s) = threshold 0 (val_reports (log s))
  ∧ match last (best_saves (log s)) with
    | Some x =>
        best_model_wts (locals s) = rep_wts x
        ∧ files (fs s) !! best_path = Some (rep_wts x)
        ∧ save_dir (locals s) = Some "work_dir"
    | None =>
        best_model_wts (locals s) = w_init
        ∧ files (fs s) !! best_path = f_init
        ∧ save_dir (locals s) = None
    end.

(** Both subsets hold a sample, and every iteration of a loader yields a
    batch. *)
Definition sizes_ok : Prop := ∀ ph, dataset_sizes ph ≠ 0.
Definition loaders_ok : Prop := ∀ ph e, dataloaders ph e ≠ [].

(** The periodic checkpoints after [k] complete epochs: one write for each
    even epoch number up to [k], its file present, and no other file but
    the "best" one touched since the file system held [files0]. *)
Definition epoch_path (n : nat) : string :=
  path_join "work_dir" (model_epoch_name n).

Definition periodic_inv (files0 : gmap string Params) (k : nat)
    (s : State) : Prop :=
  epoch_saves (log s) = filter (λ N, N mod 2 = 0) (seq 1 k)
  ∧ (∀ N, N ∈ epoch_saves (log s) → is_Some (files (fs s) !! epoch_path N))
  ∧ (∀ p, p ≠ best_path →
          (∀ N, N ∈ epoch_saves (log s) → p ≠ epoch_path N) →
          files (fs s) !! p = files0 !! p).

(** After [k] complete epochs: one validation report per epoch, in
    order; and an epoch beyond the second can only have been reached if
    the first report beat the initial best accuracy. *)
Definition run_inv (w_init : Params) (f_init : option Params) (k : nat)
    (s : State) : Prop :=
  best_inv w_init f_init s
  ∧ map rep_epoch (val_reports (log s)) = seq 0 k
  ∧ (2 ≤ k → ∃ x, val_reports (log s) !! 0 = Some x ∧ (0 < rep_acc x)%Q).

(** *** What the batches of a phase leave behind *)

(** Events of one batch at learning rate [rate]. *)
Definition batch_events (ph : Phase) (e : nat) (rate : Q) : list (Event Params) :=
  [EvZeroGrad ph e; EvForward ph e] ++
  (if is_train ph then [EvBackward ph e; EvOptimStep ph e rate] else []).

Definition batches_events (ph : Phase) (e : nat) (rate : Q)
    (bs : list (list (Input * nat))) : list (Event Params) :=
  concat (map (fun _ => batch_events ph e rate) bs).

(** Relation between the state [s] before the batches [bs] of a phase and
    the state [s'] after them. *)
Definition batches_post (ph : Phase) (e : nat)
    (bs : list (list (Input * nat))) (s s' : State) : Prop :=
  log s' = log s ++ batches_events ph e (lr (optimizer s)) bs
  ∧ scheduler s' = scheduler s
  ∧ fs s' = fs s
  ∧ lr (optimizer s') = lr (optimizer s)
  ∧ best_model_wts (locals s') = best_model_wts (locals s)
  ∧ best_acc (locals s') = best_acc (locals s)
  ∧ save_dir (locals s') = save_dir (locals s)
  ∧ (ph = Val → params (model s') = params (model s)
               ∧ optimizer s' = optimizer s
               ∧ grad (model s') =
                 match bs with [] => grad (model s) | _ => None end)
  ∧ (∃ c, c ≤ length (concat bs)
        ∧ running_corrects (locals s') =
          match bs with
          | [] => running_corrects (locals s)
          | _ => count_add_tensor (running_corrects (locals s)) c
          end)
  ∧ (∃ d, (running_loss (locals s') == running_loss (locals s) + d)%Q
        ∧ ((∀ o l, (0 <= criterion o l)%Q) → (0 <= d)%Q)).

End TrainModel.

Arguments State : clear implicits.
Arguments Model : clear implicits.
Arguments Optimizer : clear implicits.
Arguments FileSystem : clear implicits.
Arguments Locals : clear implicits.

(** ** Dataset assembly, lines 124-141 *)

(** Python's [int(x)] on a float: truncation towards zero. *)
Definition py_int (x : Q) : Z := Z.quot (Qnum x) (Zpos (Qden x)).

(** Line 128: [int(0.8 * len(full_dataset))]. *)
Definition train_size (n : nat) : nat := Z.to_nat (py_int ((8 # 10) * Qofnat n)%Q).

(** Line 129. *)
Definition val_size (n : nat) : nat := n - train_size n.

(** *** Line 128 in double precision

    A non-negative double is written [m × 2^e] with [m] an integer.  Only
    the magnitudes met when a dataset length is multiplied by 0.8 are
    modelled: no overflow, no subnormal numbers. *)
Definition Dyadic : Type := Z * Z.

(** Rounding of the integer [M] to 53 significant bits, to nearest with
    ties to even: the rounded value is [q × 2^s]. *)
Definition round53 (M : Z) : Dyadic :=
  let s := Z.max 0 (Z.log2 M + 1 - 53) in
  let q := (M / 2 ^ s)%Z in
  let r := (M mod 2 ^ s)%Z in
  let half := (2 ^ (s - 1))%Z in
  let up := (0 <? s)%Z && ((half <? r)%Z || ((r =? half)%Z && Z.odd q)) in
  (if up then (q + 1)%Z else q, s).

(** The literal [0.8], that is [0x1.999999999999ap-1]. *)
Definition double_0_8 : Dyadic := (7205759403792794%Z, (-53)%Z).

(** [float(n)] for an integer [n ≥ 0]. *)
Definition double_of_Z (n : Z) : Dyadic := round53 n.

(** Product of two non-negative doubles. *)
Definition double_mul (x y : Dyadic) : Dyadic :=
  let '(q, s) := round53 (fst x * fst y) in (q, (s + snd x + snd y)%Z).

(** [int(x)] for a double [x ≥ 0]. *)
Definition double_to_int (x : Dyadic) : Z :=
  if (0 <=? snd x)%Z then (fst x * 2 ^ snd x)%Z
  else (fst x / 2 ^ (- snd x))%Z.

Definition train_size_double (n : nat) : nat :=
  Z.to_nat (double_to_int (double_mul double_0_8 (double_of_Z (Z.of_nat n)))).

(** The same product through the binary64 operations of the standard
    library, and the dyadic numbers as binary64 values. *)
Definition binary64_of_dyadic (x : Dyadic) : spec_float :=
  binary_normalize 53 1024 (fst x) (snd x) false.

Definition binary64_mul_0_8 (n : Z) : spec_float :=
  SFmul 53 1024 (binary64_of_dyadic double_0_8)
    (binary_normalize 53 1024 n 0 false).

(** Dataset lengths on which the two are compared: every length below
    4096, and lengths around the powers of two up to 2^49. *)
Definition sample_lengths : list Z :=
  map Z.of_nat (seq 0 4096)
  ++ flat_map (λ k, [2 ^ Z.of_nat k - 1; 2 ^ Z.of_nat k; 2 ^ Z.of_nat k + 1;
                     3 * 2 ^ Z.of_nat k + 2; 5 * 2 ^ Z.of_nat k + 3]%Z)
       (seq 12 36).

(** [torch.utils.data.random_split]: consecutive slices of a random
    permutation of the indices, one slice per requested length. *)
Fixpoint random_split (indices : list nat) (lengths : list nat) : list (list nat) :=
  match lengths with
  | [] => []
  | len :: rest => firstn len indices :: random_split (skipn len indices) rest
  end.

(** Batching of a sampled sequence: consecutive groups of [batch_size]
    elements, the last one possibly shorter ([drop_last=False]). *)
Fixpoint chunks_fuel {A} (fuel batch_size : nat) (l : list A) : list (list A) :=
  match fuel, l with
  | S fuel', _ :: _ =>
      firstn batch_size l :: chunks_fuel fuel' batch_size (skipn batch_size l)
  | _, _ => []
  end.

Definition chunks {A} (batch_size : nat) (l : list A) : list (list A) :=
  chunks_fuel (length l) batch_size l.

(** [DataLoader(subset, batch_size, shuffle=True)], one iteration: the
    sampler's order of positions in the subset, each position fetched through
    the subset's index list, then batched. *)
Definition DataLoader {S} (getitem : nat -> S) (subset : list nat)
    (batch_size : nat) (sampled : list nat) : list (list S) :=
  chunks batch_size (map (fun i => getitem (nth i subset 0)) sampled).

(** ** Seeding, lines 15-28 *)

Section Seeding.

(** Generator states of the three libraries, and their seeding functions. *)
Context {PyGen NpGen TorchGen : Type}.
Variable random_seed : Z -> PyGen.
Variable np_random_seed : Z -> NpGen.
Variable torch_manual_seed : Z -> TorchGen.

(** The generators of one process.  [torch_cuda] is [None] when no
    accelerator is available. *)
Record Rng := {
  py_random : PyGen;
  np_random : NpGen;
  torch_cpu : TorchGen;
  torch_cuda : option TorchGen;
  cudnn_deterministic : bool;
  cudnn_benchmark : bool;
}.

(** Lines 15-23. *)
Definition set_seed (seed : Z) (r : Rng) : Rng :=
  {| py_random := random_seed seed;
     np_random := np_random_seed seed;
     torch_cpu := torch_manual_seed seed;
     torch_cuda :=
       match torch_cuda r with
       | Some _ => Some (torch_manual_seed seed)
       | None => None
       end;
     cudnn_deterministic := true;
     cudnn_benchmark := false |}.

(** Line 28: the seed given to worker [worker_id]. *)
Definition worker_seed (worker_id : nat) : Z := 42 + Z.of_nat worker_id.

(** Lines 27-28, run inside a data-loading worker on that worker's
    generators. *)
Definition worker_init_fn (worker_id : nat) (r : Rng) : Rng :=
  {| py_random := py_random r;
     np_random := np_random_seed (worker_seed worker_id);
     torch_cpu := torch_cpu r;
     torch_cuda := torch_cuda r;
     cudnn_deterministic := cudnn_deterministic r;
     cudnn_benchmark := cudnn_benchmark r |}.

(** [torch.randperm(n)] on the default generator. *)
Variable randperm : TorchGen -> nat -> list nat * TorchGen.

(** What the main process does to its generators between two points of
    the script (drawing permutations, initialising layers), and how the
    loader derives the generators of worker [i] from those of its parent
    before it calls [worker_init_fn]. *)
Variable consume : nat -> Rng -> Rng.
Variable spawn_worker : Rng -> nat -> Rng.

(** Lines 108 and 128-131: the index lists of the two subsets. *)
Definition script_split (ambient : Rng) (n : nat) : list (list nat) :=
  let r := set_seed 42 ambient in
  random_split (fst (randperm (torch_cpu r) n)) [train_size n; val_size n].

(** Generators of worker [worker_id] of the loader started after the main
    process has made [k] draws. *)
Definition script_worker_rng (ambient : Rng) (k worker_id : nat) : Rng :=
  let r := consume k (set_seed 42 ambient) in
  worker_init_fn worker_id (spawn_worker r worker_id).

End Seeding.

Arguments Rng : clear implicits.

(** ** The script, lines 106-163 *)

Section Script.

Context {Params Grads OptBuf Input Scores : Type}.
Variable forward : bool -> Params -> list Input -> list Scores.
Variable argmax : Scores -> nat.
Variable criterion : list Scores -> list nat -> Q.
Variable backward : Params -> list Input -> list nat -> option Grads -> Grads.
Variable sgd_step : Q -> Params -> option Grads -> OptBuf -> Params * OptBuf.

(** [perm]: the permutation drawn by [random_split].
    [sampler ph k n]: the order drawn by the loader of phase [ph] at its
    [k]-th iteration over [n] positions.
    [getitem ph k i]: the decoded and augmented sample [i] of the full
    dataset with its label, as read during that iteration. *)
Variable perm : list nat.
Variable sampler : Phase -> nat -> nat -> list nat.
Variable getitem : Phase -> nat -> nat -> Input * nat.

(** [len(full_dataset)] *)
Variable total : nat.

Definition batch_size : nat := 32.

Definition script_subset (ph : Phase) : list nat :=
  match random_split perm [train_size total; val_size total], ph with
  | [tr; va], Train => tr
  | [tr; va], Val => va
  | _, _ => []
  end.

(** Line 140. *)
Definition script_dataloaders (ph : Phase) (k : nat) : list (list (Input * nat)) :=
  DataLoader (getitem ph k) (script_subset ph) batch_size
    (sampler ph k (length (script_subset ph))).

(** Line 141. *)
Definition script_dataset_sizes (ph : Phase) : nat := length (script_subset ph).

(** Lines 147-158: the objects handed to [train_model].  The locals of
    [train_model] do not exist yet; the placeholders are overwritten before
    they are read. *)
Definition script_state (w0 : Params) (buf0 : OptBuf) (fs0 : FileSystem Params)
  : State Params Grads OptBuf :=
  {| model := {| params := w0; training := true; grad := None |};
     optimizer := {| lr := float_0_001; momentum_buf := buf0 |};
     scheduler := {| step_size := 7; gamma := float_0_1; last_epoch := 0 |};
     fs := fs0;
     locals := {| best_model_wts := w0; best_acc := 0; save_dir := None;
                  running_loss := 0; running_corrects := PyInt 0 |};
     log := [] |}.

(** Line 163. *)
Definition script_run (num_epochs : nat) (w0 : Params) (buf0 : OptBuf)
    (fs0 : FileSystem Params) :=
  train_model forward argmax criterion backward sgd_step
    script_dataloaders script_dataset_sizes num_epochs
    (script_state w0 buf0 fs0).

End Script.

(** The log of a call that returns shows every epoch with the schedule
    advanced after validation. *)
Definition schedule_after_validation {Params} (r : Res Params)
    (l : list (Event Params)) (nt nv : nat -> nat) (num_epochs : nat) : Prop :=
  ∀ w, r = Ok w → steps l = run_steps_sched_last nt nv num_epochs.

(** ** A small instance

    Ten samples, eight for training and two for validation, one batch per
    phase; the weights count the optimiser updates; the network predicts
    class [guess w] for every input and every label is [0]. *)

Module Toy.

Definition forward (guess : nat -> nat) (_ : bool) (w : nat)
    (inputs : list unit) : list nat :=
  map (fun _ => guess w) inputs.
Definition argmax (s : nat) : nat := s.
Definition criterion (outputs : list nat) (labels : list nat) : Q := 1.
Definition backward (w : nat) (inputs : list unit) (labels : list nat)
    (g : option unit) : unit := tt.
Definition sgd_step (rate : Q) (w : nat) (g : option unit) (b : unit)
  : nat * unit := (S w, tt).
Definition sampler (ph : Phase) (k n : nat) : list nat := seq 0 n.
Definition getitem (ph : Phase) (k i : nat) : unit * nat := (tt, 0).
Definition fs0 : FileSystem nat := {| dirs := ∅; files := ∅ |}.

Definition total : nat := 10.
Definition loaders := script_dataloaders (seq 0 total) sampler getitem total.
Definition sizes := script_dataset_sizes (seq 0 total) total.
Definition state0 : State nat unit unit := script_state 0 tt fs0.

Definition run (guess : nat -> nat) (num_epochs : nat)
  : Res nat * State nat unit unit :=
  train_model (forward guess) argmax criterion backward sgd_step
    loaders sizes num_epochs state0.

(** Every prediction is wrong. *)
Definition never_right (w : nat) : nat := 1.
(** Every prediction is right. *)
Definition always_right (w : nat) : nat := 0.

(** Generators are identified with the seed they were built from; the
    main process leaves them as they are and a worker inherits them. *)
Definition seed_gen (seed : Z) : Z := seed.
Definition randperm (g : Z) (n : nat) : list nat * Z := (seq 0 n, (g + 1)%Z).
Definition consume (k : nat) (r : Rng Z Z Z) : Rng Z Z Z := r.
Definition spawn_worker (r : Rng Z Z Z) (worker_id : nat) : Rng Z Z Z := r.

Definition ambient1 : Rng Z Z Z :=
  {| py_random := 1%Z; np_random := 2%Z; torch_cpu := 3%Z; torch_cuda := None;
     cudnn_deterministic := false; cudnn_benchmark := true |}.
Definition ambient2 : Rng Z Z Z :=
  {| py_random := 7%Z; np_random := 8%Z; torch_cpu := 9%Z; torch_cuda := None;
     cudnn_deterministic := true; cudnn_benchmark := true |}.

End Toy.

(** ** One batch under given weights

    What lines 62-74 compute on one batch when the model holds the weights
    [w] in mode [mode]. *)

Section BatchValues.

Context {Params Grads OptBuf Input Scores : Type}.
Variable forward : bool -> Params -> list Input -> list Scores.
Variable argmax : Scores -> nat.
Variable criterion : list Scores -> list nat -> Q.
Variable backward : Params -> list Input -> list nat -> option Grads -> Grads.
Variable sgd_step : Q -> Params -> option Grads -> OptBuf -> Params * OptBuf.

(** Line 74: [torch.sum(preds == labels.data)]. *)
Definition batch_corrects (mode : bool) (w : Params)
    (batch : list (Input * nat)) : nat :=
  length (filter (fun pl => fst pl =? snd pl)
            (combine (map argmax (forward mode w (map fst batch)))
                     (map snd batch))).

(** Line 73: [loss.item() * inputs.size(0)]. *)
Definition batch_weighted_loss (mode : bool) (w : Params)
    (batch : list (Input * nat)) : Q :=
  (criterion (forward mode w (map fst batch)) (map snd batch)
   * Qofnat (length (map fst batch)))%Q.

(** Lines 62 and 69-71 on the weights and the buffers of the optimiser:
    the gradients are cleared, computed on the batch, and used for one
    update at the rate [rate]. *)
Definition train_batch_update (rate : Q) (wb : Params * OptBuf)
    (batch : list (Input * nat)) : Params * OptBuf :=
  sgd_step rate (fst wb)
    (Some (backward (fst wb) (map fst batch) (map snd batch) None))
    (snd wb).

(** The batch losses (line 67) with the batch lengths (line 73) of the
    batches of a phase, from the weights and the buffers [wb] on: a
    training batch is followed by its update at the rate [rate], a
    validation batch leaves the weights as they are. *)
Fixpoint phase_losses (ph : Phase) (rate : Q) (wb : Params * OptBuf)
    (batches : list (list (Input * nat))) : list (Q * nat) :=
  match batches with
  | [] => []
  | b :: rest =>
      (criterion (forward (is_train ph) (fst wb) (map fst b)) (map snd b),
       length (map fst b))
      :: phase_losses ph rate
           (if is_train ph then train_batch_update rate wb b else wb) rest
  end.

End BatchValues.

(** Sum of a list of rationals. *)
Definition Qsum (l : list Q) : Q := fold_right Qplus 0%Q l.

(** Sum of the losses, each weighted by its batch length. *)
Definition weighted_sum (l : list (Q * nat)) : Q :=
  Qsum (map (fun x => (fst x * Qofnat (snd x))%Q) l).

(** ** What a loader fetches *)

Section Fetched.

Variable perm : list nat.
Variable sampler : Phase -> nat -> nat -> list nat.
Variable total : nat.

(** The indices of the full dataset that the loader of phase [ph] fetches
    at its [k]-th iteration, in order: the subset maps every sampled
    position through its index list. *)
Definition script_fetched (ph : Phase) (k : nat) : list nat :=
  map (fun i => nth i (script_subset perm total ph) 0)
    (sampler ph k (length (script_subset perm total ph))).

End Fetched.

(** ** Other instances

    The globals of the small instance with the training size set to 0, and
    with a training loader that yields no batch; the generators of a
    process with an accelerator. *)

Module Edge.

Definition sizes_no_train (ph : Phase) : nat :=
  match ph with Train => 0 | Val => Toy.sizes Val end.

Definition loaders_no_train (ph : Phase) (k : nat)
  : list (list (unit * nat)) :=
  match ph with Train => [] | Val => Toy.loaders Val k end.

(** Generators of a process with an accelerator. *)
Definition ambient_cuda : Rng Z Z Z :=
  {| py_random := 1%Z; np_random := 2%Z; torch_cpu := 3%Z;
     torch_cuda := Some 4%Z;
     cudnn_deterministic := false; cudnn_benchmark := true |}.

End Edge.

(** * Properties of the readings of the log *)

(** ** Rational comparisons *)

Lemma Qltb_lt x y : Qltb x y = true ↔ (x < y)%Q.
Proof.
  unfold Qltb. rewrite negb_true_iff. split.
  - intros H. apply Qnot_le_lt. intros Hle.
    apply Qle_bool_iff in Hle. congruence.
  - intros H. destruct (Qle_bool y x) eqn:E; [|done].
    apply Qle_bool_iff in E. by apply Qlt_not_le in H.
Qed.

Lemma Qltb_ge x y : Qltb x y = false ↔ (y <= x)%Q.
Proof.
  unfold Qltb. rewrite negb_false_iff. apply Qle_bool_iff.
Qed.

(** ** Reports that beat the running threshold *)

Section RecordsFacts.

Context {Params : Type}.
Implicit Types (x y : @ValReport Params) (vr : list (@ValReport Params)).

Lemma records_snoc b vr x :
  records b (vr ++ [x]) =
  records b vr ++ (if Qltb (threshold b vr) (rep_acc x) then [x] else []).
Proof.
  revert b. induction vr as [|y vr IH]; intros b; simpl.
  - by destruct (Qltb b (rep_acc x)).
  - destruct (Qltb b (rep_acc y)); simpl; by rewrite IH.
Qed.

Lemma threshold_snoc b vr x :
  threshold b (vr ++ [x]) =
  if Qltb (threshold b vr) (rep_acc x) then rep_acc x else threshold b vr.
Proof.
  revert b. induction vr as [|y vr IH]; intros b; simpl; [done|apply IH].
Qed.

(** The threshold only grows, and bounds every report. *)
Lemma threshold_ge b vr : (b <= threshold b vr)%Q.
Proof.
  revert b. induction vr as [|y vr IH]; intros b; simpl; [apply Qle_refl|].
  destruct (Qltb b (rep_acc y)) eqn:E; [|apply IH].
  apply Qltb_lt in E. eapply Qle_trans; [apply Qlt_le_weak, E|apply IH].
Qed.

Lemma threshold_bounds b vr x :
  x ∈ vr → (rep_acc x <= threshold b vr)%Q.
Proof.
  revert b. induction vr as [|y vr IH]; intros b Hx; [by inversion Hx|].
  simpl. apply elem_of_cons in Hx as [->|Hx]; [|by apply IH].
  destruct (Qltb b (rep_acc y)) eqn:E.
  - apply threshold_ge.
  - apply Qltb_ge in E. eapply Qle_trans; [exact E|apply threshold_ge].
Qed.

(** The threshold is the accuracy of the last record, if there is one. *)
Lemma threshold_last b vr :
  threshold b vr =
  match last (records b vr) with Some x => rep_acc x | None => b end.
Proof.
  induction vr as [|y vr IH] using rev_ind; [done|].
  rewrite threshold_snoc, records_snoc.
  destruct (Qltb (threshold b vr) (rep_acc y)).
  - by rewrite last_snoc.
  - by rewrite app_nil_r.
Qed.

(** A report is a record exactly when it beats the initial threshold and
    every report before it. *)
Lemma records_spec b vr x :
  x ∈ records b vr ↔
  ∃ i, vr !! i = Some x ∧ (b < rep_acc x)%Q
       ∧ ∀ j y, j < i → vr !! j = Some y → (rep_acc y < rep_acc x)%Q.
Proof.
  revert b. induction vr as [|z vr IH]; intros b; simpl.
  - split; [by inversion 1|]. by intros (i & Hi & _).
  - destruct (Qltb b (rep_acc z)) eqn:E.
    + apply Qltb_lt in E. rewrite elem_of_cons, IH. split.
      * intros [->|(i & Hi & Hb & Hprev)].
        -- exists 0. split_and!; [done|done|]. intros j y Hj. lia.
        -- exists (S i). split_and!; [done| |].
           ++ by eapply Qlt_trans.
           ++ intros [|j] y Hj Hy; simpl in Hy.
              ** by injection Hy as <-.
              ** eapply Hprev; [|done]. lia.
      * intros ([|i] & Hi & Hb & Hprev); simpl in Hi.
        -- left. by injection Hi.
        -- right. exists i. split_and!; [done| |].
           ++ apply (Hprev 0 z); [lia|done].
           ++ intros j y Hj Hy. apply (Hprev (S j) y); [lia|done].
    + apply Qltb_ge in E. rewrite IH. split.
      * intros (i & Hi & Hb & Hprev). exists (S i). split_and!; [done|done|].
        intros [|j] y Hj Hy; simpl in Hy.
        -- injection Hy as <-. by eapply Qle_lt_trans.
        -- eapply Hprev; [|done]. lia.
      * intros ([|i] & Hi & Hb & Hprev); simpl in Hi.
        -- injection Hi as ->. exfalso.
           eapply Qlt_irrefl, Qlt_le_trans; done.
        -- exists i. split_and!; [done|done|].
           intros j y Hj Hy. apply (Hprev (S j) y); [lia|done].
Qed.

(** Every record beats the initial threshold, and the accuracies of
    successive records increase strictly. *)
Lemma records_above b vr x : x ∈ records b vr → (b < rep_acc x)%Q.
Proof. rewrite records_spec. by intros (i & _ & Hb & _). Qed.

Lemma records_increasing b vr i j x y :
  i < j → records b vr !! i = Some x → records b vr !! j = Some y →
  (rep_acc x < rep_acc y)%Q.
Proof.
  revert b i j. induction vr as [|z vr IH]; intros b i j Hij Hx Hy;
    simpl in *; [done|].
  destruct (Qltb b (rep_acc z)); [|by eapply IH].
  destruct i as [|i], j as [|j]; simpl in *; try lia.
  - injection Hx as <-. eapply records_above, list_elem_of_lookup_2, Hy.
  - eapply IH; [|done..]. lia.
Qed.

Lemma records_nil_head b vr x :
  records b vr = [] → vr !! 0 = Some x → Qltb b (rep_acc x) = false.
Proof.
  destruct vr as [|z vr]; simpl; [done|]. intros H [= ->].
  by destruct (Qltb b (rep_acc x)).
Qed.

End RecordsFacts.

(** * Properties of [train_model] *)

Section TrainModelFacts.

Context {Params Grads OptBuf Input Scores : Type}.
Variable forward : bool -> Params -> list Input -> list Scores.
Variable argmax : Scores -> nat.
Variable criterion : list Scores -> list nat -> Q.
Variable backward : Params -> list Input -> list nat -> option Grads -> Grads.
Variable sgd_step : Q -> Params -> option Grads -> OptBuf -> Params * OptBuf.
Variable dataloaders : Phase -> nat -> list (list (Input * nat)).
Variable dataset_sizes : Phase -> nat.

Local Abbreviation St := (State Params Grads OptBuf).
Local Abbreviation batch_body' := (batch_body forward argmax criterion backward sgd_step).
Local Abbreviation phase_body' :=
  (phase_body forward argmax criterion backward sgd_step dataloaders dataset_sizes).
Local Abbreviation epoch_body' :=
  (epoch_body forward argmax criterion backward sgd_step dataloaders dataset_sizes).
Local Abbreviation train_model' :=
  (train_model forward argmax criterion backward sgd_step dataloaders dataset_sizes).

(** ** Running loops *)

Lemma for_each_app {A} (body : A -> M unit) (l1 l2 : list A) (s : St) :
  for_each (l1 ++ l2) body s =
  match for_each l1 body s with
  | (Ok _, s') => for_each l2 body s'
  | (Raise e, s') => (Raise e, s')
  end.
Proof.
  revert s. induction l1 as [|x l1 IH]; intros s; simpl; [done|].
  unfold bind. destruct (body x s) as [[[]|e] s']; [apply IH|done].
Qed.

(** An invariant indexed by the loop counter, with a separate condition
    for the state in which an exception leaves the loop. *)
Lemma for_each_seq_inv (I : nat -> St -> Prop) (F : PyError -> St -> Prop)
    (body : nat -> M unit) (n : nat) :
  (∀ k s, k < n → I k s →
     match body k s with
     | (Ok _, s') => I (S k) s'
     | (Raise err, s') => F err s'
     end) →
  ∀ s, I 0 s →
    match for_each (seq 0 n) body s with
    | (Ok _, s') => I n s'
    | (Raise err, s') => F err s'
    end.
Proof.
  intros Hbody s H0.
  assert (Hgen : ∀ m a s, a + m = n → I a s →
    match for_each (seq a m) body s with
    | (Ok _, s') => I n s'
    | (Raise err, s') => F err s'
    end).
  { induction m as [|m IH]; intros a t Ha Ht; simpl.
    - by replace n with a by lia.
    - unfold bind. specialize (Hbody a t ltac:(lia) Ht).
      destruct (body a t) as [[[]|e] t']; [|done].
      apply IH; [lia|done]. }
  by apply Hgen.
Qed.

(** ** Symbolic execution *)

Ltac exec :=
  cbv [bind ret gets modify emit when raise set_locals zero_grad
       loss_backward optimizer_step scheduler_step os_makedirs torch_save
       set_mode load_state_dict with_model with_optimizer with_scheduler
       with_fs with_locals with_log];
  cbn [model optimizer scheduler fs locals log params training grad lr
       momentum_buf step_size gamma last_epoch dirs files best_model_wts
       best_acc save_dir running_loss running_corrects fst snd
       is_train is_val andb].

Lemma count_add_tensor_twice c a b :
  count_add_tensor (count_add_tensor c a) b = count_add_tensor c (a + b).
Proof. destruct c; simpl; f_equal; lia. Qed.

Lemma count_correct_le (preds labels : list nat) :
  length (filter (λ pl : nat * nat, pl.1 =? pl.2) (combine preds labels))
  ≤ length labels.
Proof.
  etrans; [apply length_filter|]. rewrite length_combine. lia.
Qed.

Local Abbreviation batches_post' :=
  (@batches_post Params Grads OptBuf Input Scores criterion).

Lemma Qofnat_nonneg n : (0 <= Qofnat n)%Q.
Proof. unfold Qofnat, Qle; simpl. lia. Qed.

Lemma batch_body_run ph e b (s : St) :
  ∃ s', batch_body' ph e b s = (Ok tt, s') ∧ batches_post' ph e [b] s s'.
Proof.
  unfold batches_post, batches_events.
  destruct ph; (eexists; split; [unfold batch_body; exec; reflexivity|]);
    cbn [model optimizer scheduler fs locals log params lr
      best_model_wts best_acc save_dir running_loss running_corrects
      map concat batch_events is_train].
  all: split_and!; try done.
  all: try (by rewrite <- ?app_assoc).
  all: try (eexists; split; [|reflexivity]; rewrite app_nil_r;
            etrans; [apply count_correct_le|]; by rewrite length_map).
  all: eexists; split; [reflexivity|]; intros Hc;
       apply Qmult_le_0_compat; [apply Hc|apply Qofnat_nonneg].
Qed.

Lemma batches_post_nil ph e (s : St) : batches_post' ph e [] s s.
Proof.
  unfold batches_post, batches_events; simpl. rewrite app_nil_r.
  split_and!; try done.
  - exists 0. done.
  - exists 0%Q. split; [ring|done].
Qed.

Lemma batches_post_cons ph e b bs (s s1 s2 : St) :
  batches_post' ph e [b] s s1 → batches_post' ph e bs s1 s2 →
  batches_post' ph e (b :: bs) s s2.
Proof.
  unfold batches_post, batches_events.
  intros (Hl & Hs & Hf & Hr & Hw & Ha & Hd & Hv & (c & Hc & Hrc) & (d & Hd1 & Hd2))
         (Hl' & Hs' & Hf' & Hr' & Hw' & Ha' & Hd' & Hv' & (c' & Hc' & Hrc') & (d' & Hd1' & Hd2')).
  simpl in *. rewrite app_nil_r in *.
  split_and!; try congruence.
  - rewrite Hl', Hl, Hr. by rewrite <- app_assoc.
  - intros Hph. destruct (Hv Hph) as (? & ? & Hg), (Hv' Hph) as (? & ? & Hg').
    split_and!; try congruence.
    rewrite Hg'. destruct bs; [done|done].
  - destruct bs as [|b' bs].
    + exists c. rewrite app_nil_r. split; [done|]. by rewrite Hrc', Hrc.
    + exists (c + c'). split.
      * rewrite length_app. lia.
      * by rewrite Hrc', Hrc, count_add_tensor_twice.
  - exists (d + d')%Q. split.
    + rewrite Hd1', Hd1. ring.
    + intros Hc0. specialize (Hd2 Hc0). specialize (Hd2' Hc0).
      apply Qplus_le_compat with (x := 0%Q) (z := 0%Q); done.
Qed.

Lemma batches_run ph e bs (s : St) :
  ∃ s', for_each bs (batch_body' ph e) s = (Ok tt, s')
        ∧ batches_post' ph e bs s s'.
Proof.
  revert s. induction bs as [|b bs IH]; intros s.
  - exists s. split; [done|apply batches_post_nil].
  - destruct (batch_body_run ph e b s) as (s1 & Hb & Hp).
    destruct (IH s1) as (s2 & Hbs & Hps).
    exists s2. split.
    + simpl. unfold bind. by rewrite Hb.
    + by eapply batches_post_cons.
Qed.


Tactic Notation "exec_cbn" :=
  cbn [model optimizer scheduler fs locals log params training grad lr
       momentum_buf step_size gamma last_epoch dirs files best_model_wts
       best_acc save_dir running_loss running_corrects fst snd
       is_train is_val andb].
Tactic Notation "exec_cbn" "in" hyp(H) :=
  cbn [model optimizer scheduler fs locals log params training grad lr
       momentum_buf step_size gamma last_epoch dirs files best_model_wts
       best_acc save_dir running_loss running_corrects fst snd
       is_train is_val andb] in H.

(** Runs a phase symbolically up to the metrics; the batches are
    summarised by [batches_post]. *)
Ltac phase_exec :=
  unfold phase_body; exec;
  match goal with
  | |- context [for_each ?bs (batch_body _ _ _ _ _ ?ph ?e) ?s0] =>
      let s1 := fresh "s1" in
      let Hpost := fresh "Hpost" in
      destruct (batches_run ph e bs s0) as (s1 & -> & Hpost)
  end;
  exec_cbn.

(** Splits a [batches_post] hypothesis into its parts. *)
Ltac post_destruct H :=
  let Hl := fresh "Hl" in let Hs := fresh "Hs" in let Hf := fresh "Hf" in
  let Hr := fresh "Hr" in let Hw := fresh "Hw" in let Ha := fresh "Ha" in
  let Hd := fresh "Hd" in let Hv := fresh "Hv" in let Hc := fresh "Hc" in
  let Hq := fresh "Hq" in
  destruct H as (Hl & Hs & Hf & Hr & Hw & Ha & Hd & Hv & Hc & Hq);
  exec_cbn in Hl; exec_cbn in Hs; exec_cbn in Hf; exec_cbn in Hr;
  exec_cbn in Hw; exec_cbn in Ha; exec_cbn in Hd; exec_cbn in Hv;
  exec_cbn in Hc; exec_cbn in Hq.

Ltac phase_cases :=
  repeat match goal with
  | |- context [if ?b =? 0 then _ else _] =>
      destruct (b =? 0) eqn:?; exec_cbn
  | |- context [match running_corrects ?l with _ => _ end] =>
      destruct (running_corrects l) eqn:?; exec_cbn
  | |- context [if Qltb ?a ?b then _ else _] =>
      destruct (Qltb a b) eqn:?; exec_cbn
  | |- context [match save_dir ?l with _ => _ end] =>
      destruct (save_dir l) eqn:?; exec_cbn
  end.

(** ** Validation phase *)

Lemma val_batches_no_update e rate (bs : list (list (Input * nat))) :
  Forall (λ ev : Event Params, update_phase ev = None)
    (batches_events Val e rate bs).
Proof.
  unfold batches_events. induction bs as [|b bs IH]; simpl.
  - constructor.
  - repeat (constructor; [done|]). exact IH.
Qed.

(** The validation phase of any epoch, started in any state, leaves the
    parameters, the optimiser and the scheduler as they were; its batches
    clear the stored gradients and compute none; and none of the operations
    it logs is a backward pass or an optimiser update. *)
Lemma val_phase_frame (e : nat) (s : St) :
  let s' := (phase_body' e Val s).2 in
  params (model s') = params (model s)
  ∧ optimizer s' = optimizer s
  ∧ scheduler s' = scheduler s
  ∧ (grad (model s') = None ∨ grad (model s') = grad (model s))
  ∧ ∃ evs, log s' = log s ++ evs
           ∧ Forall (λ ev, update_phase ev = None) evs.
Proof.
  phase_exec.
  destruct Hpost as (Hl & Hs & Hf & Hr & Hw & Ha & Hd & Hv & _).
  destruct (Hv eq_refl) as (Hp & Ho & Hg). exec_cbn. simpl in *.
  pose proof (val_batches_no_update e (lr (optimizer s)) (dataloaders Val e))
    as Hbs.
  assert (Hgr : grad (model s1) = None ∨ grad (model s1) = grad (model s)).
  { rewrite Hg. destruct (dataloaders Val e); auto. }
  phase_cases. all: split_and!; try done.
  all: eexists;
    (split; [rewrite ?Hl, <- ?app_assoc; reflexivity|]);
    rewrite ?Forall_app; split_and?; try done; by repeat constructor.
Qed.


(** ** Decomposition of an epoch and of the whole call *)

Lemma epoch_body_unfold e (s : St) :
  epoch_body' e s =
  match phase_body' e Train
          (with_log (log s ++ [EvEpochHeader e (lr (optimizer s))]) s) with
  | (Ok _, s1) =>
      match phase_body' e Val s1 with
      | (Ok _, s2) => (Ok tt, with_log (log s2 ++ [EvEpochEnd e]) s2)
      | (Raise err, s2) => (Raise err, s2)
      end
  | (Raise err, s1) => (Raise err, s1)
  end.
Proof.
  unfold epoch_body. cbn [for_each].
  cbv [bind ret gets modify emit].
  destruct (phase_body' e Train _) as [[[]|err] s1]; [|done].
  destruct (phase_body' e Val s1) as [[[]|err] s2]; done.
Qed.

Lemma train_model_unfold n (s : St) :
  train_model' n s =
  match for_each (seq 0 n) epoch_body' (enter s) with
  | (Ok _, s1) => (Ok (best_model_wts (locals s1)), leave s1)
  | (Raise err, s1) => (Raise err, s1)
  end.
Proof.
  unfold train_model, enter, leave. exec.
  destruct (for_each _ _ _) as [[[]|err] s1]; [|done].
  by rewrite <- app_assoc.
Qed.

(** ** Learning rate *)

Lemma chained_lr_succ e :
  chained_lr (S e / 7) =
  if (S e =? 0) || negb (S e mod 7 =? 0) then chained_lr (e / 7)
  else fl64 (chained_lr (e / 7) * float_0_1).
Proof.
  pose proof (Nat.div_mod_eq (S e) 7) as H1.
  pose proof (Nat.div_mod_eq e 7) as H2.
  pose proof (Nat.mod_upper_bound (S e) 7 ltac:(lia)) as H3.
  pose proof (Nat.mod_upper_bound e 7 ltac:(lia)) as H4.
  change (S e =? 0) with false. cbn [orb].
  destruct (S e mod 7 =? 0) eqn:Hm; cbn [negb].
  - apply Nat.eqb_eq in Hm.
    replace (S e / 7) with (S (e / 7)) by lia.
    unfold chained_lr. by rewrite Nat.iter_succ.
  - apply Nat.eqb_neq in Hm.
    replace (S e / 7) with (e / 7) by lia. reflexivity.
Qed.

Lemma batches_lr_ok (ph : Phase) e rate (bs : list (list (Input * nat))) :
  (ph = Train → rate = chained_lr (e / 7)) →
  Forall lr_ok (@batches_events Params Input ph e rate bs).
Proof.
  intros Hr. unfold batches_events.
  induction bs as [|b bs IH]; simpl; [constructor|].
  destruct ph; simpl; repeat (constructor; [unfold lr_ok; simpl; by auto|]);
    exact IH.
Qed.

Lemma phase_body_lr e (ph : Phase) (s : St) :
  Forall lr_ok (log s) →
  sched_at (match ph with Train => e | Val => S e end) s →
  let s' := (phase_body' e ph s).2 in
  Forall lr_ok (log s') ∧ sched_at (S e) s'.
Proof.
  intros Hlog (Hle & Hss & Hga & Hlr).
  pose proof (batches_lr_ok ph e (lr (optimizer s)) (dataloaders ph e)) as Hbs.
  pose proof (chained_lr_succ e) as Hsucc.
  destruct ph; phase_exec; post_destruct Hpost; phase_cases.
  all: unfold sched_at; exec_cbn; rewrite ?Hs, ?Hr, ?Hle, ?Hss, ?Hga.
  all: rewrite ?Hl, ?Forall_app.
  all: split_and!; try done; try (by apply Hbs); try (by repeat constructor).
  all: try (rewrite Hsucc; destruct ((S e =? 0) || negb (S e mod 7 =? 0));
            by rewrite Hlr).
Qed.

Lemma epoch_body_lr e (s : St) :
  Forall lr_ok (log s) → sched_at e s →
  let s' := (epoch_body' e s).2 in
  Forall lr_ok (log s') ∧ sched_at (S e) s'.
Proof.
  intros Hlog Hsch. rewrite epoch_body_unfold.
  set (s0 := with_log _ s).
  assert (H0 : Forall lr_ok (log s0) ∧ sched_at e s0).
  { destruct Hsch as (? & ? & ? & Hlr). split; [|done].
    subst s0; simpl. rewrite Forall_app. split; [done|].
    repeat constructor. unfold lr_ok; simpl. done. }
  destruct H0 as [Hlog0 Hsch0].
  pose proof (phase_body_lr e Train s0 Hlog0 Hsch0) as H1.
  destruct (phase_body' e Train s0) as [[[]|err] s1]; [|exact H1].
  destruct H1 as [Hlog1 Hsch1].
  pose proof (phase_body_lr e Val s1 Hlog1 Hsch1) as H2.
  destruct (phase_body' e Val s1) as [[[]|err] s2]; [|exact H2].
  cbn [snd] in *. destruct H2 as [Hlog2 Hsch2]. split; [|exact Hsch2].
  cbn [log with_log]. rewrite Forall_app. split; [done|].
  by repeat constructor.
Qed.

Lemma epochs_lr n (s : St) :
  Forall lr_ok (log s) → sched_at 0 s →
  match for_each (seq 0 n) epoch_body' s with
  | (Ok _, s') => Forall lr_ok (log s') ∧ sched_at n s'
  | (Raise _, s') => Forall lr_ok (log s')
  end.
Proof.
  intros Hlog Hsch.
  apply (for_each_seq_inv
    (λ k t, Forall lr_ok (log t) ∧ sched_at k t)
    (λ _ t, Forall lr_ok (log t))); [|done].
  intros k t _ [Hl Hc]. pose proof (epoch_body_lr k t Hl Hc) as H.
  destruct (epoch_body' k t) as [[[]|err] t']; [exact H|exact (proj1 H)].
Qed.

(** *** The chain of double products and the closed form *)

Lemma close_to_bool_true c r : close_to_bool c r = true → close_to c r.
Proof.
  unfold close_to_bool, close_to. rewrite andb_true_iff, !Qle_bool_iff. done.
Qed.

Lemma chain_close_iter n :
  ∀ r c, chain_close n r c = true →
  ∀ j, j ≤ n →
    close_to (c * (1 # 10) ^ Z.of_nat j)
      (Nat.iter j (λ r, fl64 (r * float_0_1)) r).
Proof.
  induction n as [|n IH]; intros r c Hc j Hj; cbn [chain_close] in Hc;
    apply andb_true_iff in Hc as [H0 Hn]; apply close_to_bool_true in H0.
  - replace j with 0 by lia. cbn [Nat.iter Z.of_nat Qpower].
    unfold close_to in *. by rewrite Qmult_1_r.
  - destruct j as [|j].
    + cbn [Nat.iter Z.of_nat Qpower]. unfold close_to in *.
      by rewrite Qmult_1_r.
    + rewrite Nat.iter_succ_r.
      pose proof (IH _ _ Hn j ltac:(lia)) as H. unfold close_to in *.
      assert (Heq : (c * (1 # 10) ^ Z.of_nat (S j)
                     == c * (1 # 10) * (1 # 10) ^ Z.of_nat j)%Q).
      { rewrite Nat2Z.inj_succ, <- Z.add_1_l, Qpower_plus by done.
        change ((1 # 10) ^ 1)%Q with (1 # 10)%Q. ring. }
      by rewrite Heq.
Qed.

(** Over 300 decays the rate stays within one part in 10^13 of the closed
    form. *)
Lemma chain_close_300 : chain_close 300 float_0_001 (1 # 1000) = true.
Proof. by vm_compute. Qed.

Lemma chained_lr_close e : e < 2107 → close_to (step_lr e) (chained_lr (e / 7)).
Proof.
  intros He. unfold step_lr, chained_lr.
  apply (chain_close_iter 300 _ _ chain_close_300).
  pose proof (Nat.div_mod_eq e 7). lia.
Qed.

(** Up to the second decay the rate is the double nearest to the closed
    form. *)
Lemma chained_lr_nearest e : e < 21 → (chained_lr (e / 7) == nearest_lr e)%Q.
Proof.
  intros He. unfold nearest_lr, step_lr.
  pose proof (Nat.div_mod_eq e 7).
  assert (Hk : e / 7 = 0 ∨ e / 7 = 1 ∨ e / 7 = 2) by lia.
  destruct Hk as [->|[->| ->]]; by vm_compute.
Qed.

(** The chain of [fl64] products is the chain of binary64 products of the
    standard library, down to the underflow to zero. *)
Lemma chained_lr_agrees_with_binary64 :
  chains_agree 330 binary64_0_001 float_0_001 = true.
Proof. by vm_compute. Qed.

(** On the sample lengths, [fl64] of the exact product with the double 0.8
    is the product computed by the binary64 multiplication of the standard
    library. *)
Lemma fl64_agrees_with_binary64 :
  forallb (λ n, Qeq_bool (Q_of_binary64 (binary64_mul_0_8 n))
                  (fl64 (inject_Z n * (7205759403792794 # 2 ^ 53))))
    sample_lengths = true.
Proof. by vm_compute. Qed.

(** ** Order of the phases *)

Local Abbreviation nt := (λ e, length (dataloaders Train e)).
Local Abbreviation nv := (λ e, length (dataloaders Val e)).

Lemma steps_app (l1 l2 : list (Event Params)) :
  steps (l1 ++ l2) = steps l1 ++ steps l2.
Proof. apply omap_app. Qed.

Lemma steps_batches ph e rate (bs : list (list (Input * nat))) :
  steps (@batches_events Params Input ph e rate bs) =
  repeat (match ph with Train => TrainBatch e | Val => ValBatch e end)
    (length bs).
Proof.
  unfold batches_events. induction bs as [|b bs IH]; [done|].
  cbn [map concat]. rewrite steps_app, IH. by destruct ph.
Qed.

Lemma phase_body_steps e (ph : Phase) (s : St) :
  steps (log (phase_body' e ph s).2) =
  steps (log s) ++ phase_steps nt nv ph e.
Proof.
  pose proof (steps_batches ph e (lr (optimizer s)) (dataloaders ph e)) as Hbs.
  destruct ph; phase_exec; post_destruct Hpost; phase_cases.
  all: rewrite ?steps_app, Hl, ?steps_app, Hbs; cbn; rewrite ?app_nil_r.
  all: by rewrite <- ?app_assoc.
Qed.

Lemma run_steps_S k :
  run_steps nt nv (S k) = run_steps nt nv k ++ epoch_steps nt nv k.
Proof.
  unfold run_steps. rewrite seq_S, map_app, concat_app. simpl.
  by rewrite app_nil_r.
Qed.

Lemma run_steps_prefix k n :
  k ≤ n → run_steps nt nv k `prefix_of` run_steps nt nv n.
Proof.
  induction 1 as [|n Hle IH]; [done|].
  rewrite run_steps_S. by apply prefix_app_r.
Qed.

Lemma epoch_body_steps e (s : St) :
  match epoch_body' e s with
  | (Ok _, s') => steps (log s') = steps (log s) ++ epoch_steps nt nv e
  | (Raise _, s') =>
      ∃ pre, pre `prefix_of` epoch_steps nt nv e
             ∧ steps (log s') = steps (log s) ++ pre
  end.
Proof.
  rewrite epoch_body_unfold. set (s0 := with_log _ s).
  assert (H0 : steps (log s0) = steps (log s) ++ [EpochBegin e]).
  { subst s0; simpl. by rewrite steps_app. }
  pose proof (phase_body_steps e Train s0) as H1.
  destruct (phase_body' e Train s0) as [[[]|err] s1]; cbn [snd] in H1.
  - pose proof (phase_body_steps e Val s1) as H2.
    destruct (phase_body' e Val s1) as [[[]|err] s2]; cbn [snd] in H2.
    + cbn [log with_log]. rewrite steps_app, H2, H1, H0.
      change (steps [EvEpochEnd e]) with (@nil Step).
      unfold epoch_steps. by rewrite app_nil_r, <- !app_assoc.
    + exists (epoch_steps nt nv e). split; [done|].
      rewrite H2, H1, H0. unfold epoch_steps. by rewrite <- !app_assoc.
  - exists (EpochBegin e :: phase_steps nt nv Train e). split.
    + unfold epoch_steps. apply prefix_cons, prefix_app_r. done.
    + rewrite H1, H0. by rewrite <- !app_assoc.
Qed.

Lemma epochs_steps n (s : St) :
  steps (log s) = [] →
  match for_each (seq 0 n) epoch_body' s with
  | (Ok _, s') => steps (log s') = run_steps nt nv n
  | (Raise _, s') => steps (log s') `prefix_of` run_steps nt nv n
  end.
Proof.
  intros Hs.
  apply (for_each_seq_inv
    (λ k t, steps (log t) = run_steps nt nv k)
    (λ _ t, steps (log t) `prefix_of` run_steps nt nv n)); [|done].
  intros k t Hk Ht. pose proof (epoch_body_steps k t) as H.
  destruct (epoch_body' k t) as [[[]|err] t'].
  - by rewrite H, Ht, run_steps_S.
  - destruct H as (pre & Hpre & ->). rewrite Ht.
    etrans; [|apply (run_steps_prefix (S k) n); lia].
    rewrite run_steps_S. by apply prefix_app.
Qed.

(** ** Reported metrics *)

Lemma Qofnat_le m n : m ≤ n → (Qofnat m <= Qofnat n)%Q.
Proof. intros H. unfold Qofnat, Qle; simpl. lia. Qed.

Lemma Qofnat_pos n : n ≠ 0 → (0 < Qofnat n)%Q.
Proof. intros H. unfold Qofnat, Qlt; simpl. lia. Qed.

Lemma ratio_in_unit_interval c n :
  c ≤ n → n ≠ 0 → (0 <= Qofnat c / Qofnat n)%Q ∧ (Qofnat c / Qofnat n <= 1)%Q.
Proof.
  intros Hc Hn. pose proof (Qofnat_pos n Hn) as Hpos. split.
  - apply Qle_shift_div_l; [done|]. rewrite Qmult_0_l. apply Qofnat_nonneg.
  - apply Qle_shift_div_r; [done|]. rewrite Qmult_1_l. by apply Qofnat_le.
Qed.

Lemma batches_metrics_ok ph e rate (bs : list (list (Input * nat))) :
  Forall metrics_ok (@batches_events Params Input ph e rate bs).
Proof.
  unfold batches_events. induction bs as [|b bs IH]; simpl; [constructor|].
  destruct ph; simpl; repeat (constructor; [by unfold metrics_ok|]);
    exact IH.
Qed.

Section Metrics.

Hypothesis criterion_nonneg : ∀ o l, (0 <= criterion o l)%Q.
Hypothesis sizes_agree :
  ∀ ph k, length (concat (dataloaders ph k)) = dataset_sizes ph.

Lemma phase_body_metrics e (ph : Phase) (s : St) :
  Forall metrics_ok (log s) →
  Forall metrics_ok (log (phase_body' e ph s).2).
Proof.
  intros Hlog.
  pose proof (batches_metrics_ok ph e (lr (optimizer s)) (dataloaders ph e))
    as Hbs.
  pose proof (sizes_agree ph e) as Hsz.
  destruct ph; phase_exec; post_destruct Hpost;
    destruct Hc as (c & Hc & Hrc); destruct Hq as (d & Hdq & Hd0);
    specialize (Hd0 criterion_nonneg); phase_cases.
  all: rewrite ?Forall_app, ?Hl, ?Forall_app.
  all: split_and!; try done; try (by repeat (constructor; [done|])).
  all: constructor; [|constructor]; unfold metrics_ok; cbn [metrics].
  all: repeat match goal with H : (_ =? 0) = false |- _ =>
         apply Nat.eqb_neq in H end.
  all: match type of Hsz with
       | length (concat ?bs) = _ =>
           assert (Hn : n ≤ length (concat bs))
             by (destruct bs;
                 [discriminate|simpl in Hrc; injection Hrc as ->; lia])
       end.
  all: split; [|apply ratio_in_unit_interval; [lia|done]].
  all: apply Qle_shift_div_l; [by apply Qofnat_pos|].
  all: rewrite Qmult_0_l, Hdq, Qplus_0_l; done.
Qed.

End Metrics.

(** ** Best checkpoint *)

Lemma val_reports_app (l1 l2 : list (Event Params)) :
  val_reports (l1 ++ l2) = val_reports l1 ++ val_reports l2.
Proof. apply omap_app. Qed.

Lemma best_saves_app (l1 l2 : list (Event Params)) :
  best_saves (l1 ++ l2) = best_saves l1 ++ best_saves l2.
Proof. apply omap_app. Qed.

Lemma val_reports_batches ph e rate (bs : list (list (Input * nat))) :
  val_reports (@batches_events Params Input ph e rate bs) = [].
Proof.
  unfold batches_events. induction bs as [|b bs IH]; [done|].
  cbn [map concat]. rewrite val_reports_app, IH. by destruct ph.
Qed.

Lemma best_saves_batches ph e rate (bs : list (list (Input * nat))) :
  best_saves (@batches_events Params Input ph e rate bs) = [].
Proof.
  unfold batches_events. induction bs as [|b bs IH]; [done|].
  cbn [map concat]. rewrite best_saves_app, IH. by destruct ph.
Qed.

Lemma epoch_file_ne_best n :
  path_join "work_dir" (model_epoch_name n) ≠ best_path.
Proof.
  unfold best_path, path_join, model_epoch_name, best_model_name.
  simpl. intros H. simplify_eq.
Qed.

Local Abbreviation best_inv' := (@best_inv Params Grads OptBuf).

Lemma train_phase_best e (s : St) w f :
  best_inv' w f s →
  let s' := (phase_body' e Train s).2 in
  best_inv' w f s' ∧ val_reports (log s') = val_reports (log s).
Proof.
  intros (Hbs & Hba & Hlast).
  pose proof (val_reports_batches Train e (lr (optimizer s))
                (dataloaders Train e)) as Hvb.
  pose proof (best_saves_batches Train e (lr (optimizer s))
                (dataloaders Train e)) as Hbb.
  phase_exec; post_destruct Hpost; phase_cases.
  all: unfold best_inv; exec_cbn.
  all: rewrite ?val_reports_app, ?best_saves_app, Hl,
         ?val_reports_app, ?best_saves_app, Hvb, Hbb; cbn [val_reports
         best_saves omap val_report best_save app]; rewrite ?app_nil_r.
  all: rewrite ?Hw, ?Ha, ?Hf; rewrite Hd in *.
  all: split; [|done]; split_and!; try done.
  all: destruct (last (best_saves (log s))) as [x|];
       destruct Hlast as (H1 & H2 & H3); try congruence.
  all: try (split_and!; try done); try congruence.
  all: rewrite lookup_insert_ne; [done|].
  all: replace s0 with "work_dir" by congruence; apply epoch_file_ne_best.
Qed.

Lemma val_phase_best e (s : St) w f :
  best_inv' w f s →
  match phase_body' e Val s with
  | (Ok _, s') =>
      best_inv' w f s'
      ∧ ∃ a, val_reports (log s') =
             val_reports (log s) ++ [(e, a, params (model s))]
  | (Raise _, s') =>
      best_inv' w f s' ∧ val_reports (log s') = val_reports (log s)
  end.
Proof.
  intros (Hbs & Hba & Hlast).
  pose proof (val_reports_batches Val e (lr (optimizer s))
                (dataloaders Val e)) as Hvb.
  pose proof (best_saves_batches Val e (lr (optimizer s))
                (dataloaders Val e)) as Hbb.
  phase_exec; post_destruct Hpost; destruct (Hv eq_refl) as (Hp & _).
  phase_cases.
  all: unfold best_inv; exec_cbn.
  all: rewrite ?val_reports_app, ?best_saves_app, Hl,
         ?val_reports_app, ?best_saves_app, Hvb, Hbb;
       simpl (val_reports [_]); simpl (best_saves [_]);
       rewrite ?app_nil_r.
  all: rewrite ?Hw, ?Ha, ?Hf, ?Hp; rewrite ?Hd in *.
  all: try (split; [|done]; by split_and!).
  all: (split; [|by eexists]).
  all: rewrite records_snoc, threshold_snoc, <- Hbs, <- Hba;
       rewrite Ha in *; cbn [rep_acc fst snd].
  all: match goal with H : Qltb _ _ = _ |- _ => rewrite H end.
  all: rewrite ?app_nil_r, ?last_snoc.
  all: split_and!; try done.
  unfold best_path. by rewrite lookup_insert_eq.
Qed.

Lemma train_phase_outcome e (s : St) :
  match phase_body' e Train s with
  | (Ok _, s') => (e + 1) mod 2 = 0 → save_dir (locals s) ≠ None
  | (Raise err, s') =>
      dataset_sizes Train ≠ 0 → dataloaders Train e ≠ [] →
      (e + 1) mod 2 = 0 ∧ save_dir (locals s) = None
      ∧ err = UnboundLocalError "save_dir"
  end.
Proof.
  phase_exec; post_destruct Hpost; destruct Hc as (c & _ & Hrc).
  phase_cases.
  all: repeat match goal with
       | H : (_ =? 0) = false |- _ => apply Nat.eqb_neq in H
       | H : (_ =? 0) = true |- _ => apply Nat.eqb_eq in H
       end.
  all: try (intros Hsz Hbs; try done;
            destruct (dataloaders Train e); [done|discriminate]).
  all: try (intros; congruence).
  intros _ _. split_and!; [done|congruence|done].
Qed.

Lemma val_phase_ok e (s : St) :
  dataset_sizes Val ≠ 0 → dataloaders Val e ≠ [] →
  (phase_body' e Val s).1 = Ok tt.
Proof.
  intros Hsz Hbs.
  phase_exec; post_destruct Hpost; destruct Hc as (c & _ & Hrc).
  phase_cases; try done.
  - by apply Nat.eqb_eq in Heqb.
  - destruct (dataloaders Val e); [done|discriminate].
Qed.

Local Abbreviation run_inv' := (@run_inv Params Grads OptBuf).

Local Abbreviation sizes_ok' := (sizes_ok dataset_sizes).
Local Abbreviation loaders_ok' := (loaders_ok dataloaders).

Lemma best_inv_header w f e rate (s : St) :
  best_inv' w f s →
  best_inv' w f (with_log (log s ++ [EvEpochHeader e rate]) s)
  ∧ val_reports (log s ++ [EvEpochHeader e rate]) = val_reports (log s).
Proof.
  unfold best_inv; simpl. rewrite val_reports_app, best_saves_app; simpl.
  by rewrite !app_nil_r.
Qed.

(** An event that is neither a validation report nor a write of the
    "best" checkpoint leaves the invariants as they are. *)
Lemma best_inv_other w f (ev : Event Params) (s : St) :
  val_report ev = None → best_save ev = None →
  best_inv' w f s →
  best_inv' w f (with_log (log s ++ [ev]) s)
  ∧ val_reports (log s ++ [ev]) = val_reports (log s).
Proof.
  intros Hv Hb.
  assert (Hv' : val_reports [ev] = [])
    by (unfold val_reports; simpl; by rewrite Hv).
  assert (Hb' : best_saves [ev] = [])
    by (unfold best_saves; simpl; by rewrite Hb).
  unfold best_inv; cbn [log with_log locals fs].
  rewrite val_reports_app, best_saves_app, Hv', Hb'.
  by rewrite !app_nil_r.
Qed.

Lemma run_inv_other w f k (ev : Event Params) (s : St) :
  val_report ev = None → best_save ev = None →
  run_inv' w f k s → run_inv' w f k (with_log (log s ++ [ev]) s).
Proof.
  intros Hv Hb (Hinv & Hseen & Hfirst).
  destruct (best_inv_other w f ev s Hv Hb Hinv) as [Hinv' Hvr].
  unfold run_inv. cbn [log with_log]. by rewrite Hvr.
Qed.

Lemma run_inv_leave w f k (s : St) :
  run_inv' w f k s → run_inv' w f k (leave s).
Proof.
  intros H. unfold leave.
  apply (run_inv_other w f k EvTrainingComplete s eq_refl eq_refl) in H.
  apply (run_inv_other w f k (EvBestAcc (best_acc (locals s))) _
           eq_refl eq_refl) in H.
  cbn [log with_log] in H. rewrite <- app_assoc in H. exact H.
Qed.

Lemma first_report_positive w f (s : St) x :
  best_inv' w f s → val_reports (log s) = [x] →
  save_dir (locals s) ≠ None → (0 < rep_acc x)%Q.
Proof.
  intros (Hbs & _ & Hlast) Hvr Hsd. rewrite Hvr in Hbs. simpl in Hbs.
  destruct (Qltb 0 (rep_acc x)) eqn:E; [by apply Qltb_lt|].
  rewrite Hbs in Hlast. simpl in Hlast. by destruct Hlast as (_ & _ & ?).
Qed.

Lemma first_report_not_positive w f (s : St) x :
  best_inv' w f s → val_reports (log s) !! 0 = Some x →
  save_dir (locals s) = None → ¬ (0 < rep_acc x)%Q.
Proof.
  intros (Hbs & _ & Hlast) Hvr Hsd Hpos.
  destruct (last (best_saves (log s))) as [y|] eqn:El.
  - destruct Hlast as (_ & _ & ?). congruence.
  - apply last_None in El. rewrite El in Hbs.
    symmetry in Hbs. apply (records_nil_head _ _ x) in Hbs; [|done].
    apply Qltb_ge in Hbs. by apply Qlt_not_le in Hpos.
Qed.

Lemma epoch_body_best w f k (s : St) :
  run_inv' w f k s →
  match epoch_body' k s with
  | (Ok _, s') => run_inv' w f (S k) s'
  | (Raise err, s') =>
      run_inv' w f k s'
      ∧ (sizes_ok' → loaders_ok' →
         1 ≤ k ∧ err = UnboundLocalError "save_dir"
         ∧ ∃ x, val_reports (log s') !! 0 = Some x ∧ ¬ (0 < rep_acc x)%Q)
  end.
Proof.
  intros (Hinv & Hseen & Hfirst). rewrite epoch_body_unfold.
  set (s0 := with_log _ s).
  destruct (best_inv_header w f k (lr (optimizer s)) s Hinv) as [Hinv0 Hvr0].
  fold s0 in Hinv0. change (log s ++ _) with (log s0) in Hvr0.
  assert (Hsd0 : save_dir (locals s0) = save_dir (locals s)) by done.
  destruct (train_phase_best k s0 w f Hinv0) as [Hinv1 Hvr1].
  pose proof (train_phase_outcome k s0) as Hout.
  destruct (phase_body' k Train s0) as [[[]|err] s1]; cbn [snd] in *.
  - (* the training phase completed *)
    pose proof (val_phase_best k s1 w f Hinv1) as Hval.
    pose proof (val_phase_ok k s1) as Hvok.
    destruct (phase_body' k Val s1) as [[[]|err] s2].
    + apply (run_inv_other w f (S k) (EvEpochEnd k) s2 eq_refl eq_refl).
      destruct Hval as (Hinv2 & a & Hvr2). split_and!; [done| |].
      * rewrite Hvr2, Hvr1, Hvr0, map_app, Hseen, seq_S. done.
      * intros Hk. rewrite Hvr2, Hvr1, Hvr0.
        destruct (decide (k = 1)) as [->|Hne].
        -- destruct (val_reports (log s)) as [|x [|y vr]] eqn:Evr;
             simpl in Hseen; try done.
           exists x. split; [done|].
           eapply (first_report_positive w f s0); [done|by rewrite Hvr0|].
           by apply Hout.
        -- destruct Hfirst as (x & Hx & Hpos); [lia|].
           exists x. split; [|done]. by apply lookup_app_l_Some.
    + destruct Hval as (Hinv2 & Hvr2). split.
      * split_and!; [done|by rewrite Hvr2, Hvr1, Hvr0|].
        by rewrite Hvr2, Hvr1, Hvr0.
      * intros Hsz Hld. by specialize (Hvok (Hsz Val) (Hld Val k)).
  - (* the training phase raised *)
    split.
    + split_and!; [done|by rewrite Hvr1, Hvr0|by rewrite Hvr1, Hvr0].
    + intros Hsz Hld.
      destruct (Hout (Hsz Train) (Hld Train k)) as (Hmod & Hnone & ->).
      assert (1 ≤ k).
      { destruct k; [|lia]. done. }
      split_and!; [done|done|]. rewrite Hvr1, Hvr0.
      destruct (val_reports (log s)) as [|x vr] eqn:Evr.
      { destruct k; [lia|done]. }
      exists x. split; [done|].
      eapply (first_report_not_positive w f s0); [done| |done].
      by rewrite Hvr0.
Qed.

(** The outcome of a call, from a state with an empty log. *)
Lemma train_model_outcome n (s0 : St) :
  log s0 = [] →
  match train_model' n s0 with
  | (Ok w, s) =>
      run_inv' (params (model s0)) (files (fs s0) !! best_path) n s
      ∧ w = best_model_wts (locals s) ∧ params (model s) = w
  | (Raise err, s) =>
      ∃ k, k < n
        ∧ run_inv' (params (model s0)) (files (fs s0) !! best_path) k s
        ∧ (sizes_ok' → loaders_ok' →
           1 ≤ k ∧ err = UnboundLocalError "save_dir"
           ∧ ∃ x, val_reports (log s) !! 0 = Some x ∧ ¬ (0 < rep_acc x)%Q)
  end.
Proof.
  intros Hlog. rewrite train_model_unfold.
  set (w := params (model s0)). set (f := files (fs s0) !! best_path).
  pose proof (for_each_seq_inv (run_inv' w f)
    (λ err s, ∃ k, k < n ∧ run_inv' w f k s
       ∧ (sizes_ok' → loaders_ok' →
          1 ≤ k ∧ err = UnboundLocalError "save_dir"
          ∧ ∃ x, val_reports (log s) !! 0 = Some x ∧ ¬ (0 < rep_acc x)%Q))
    epoch_body' n) as Hloop.
  cbv beta in Hloop.
  assert (Hstep : ∀ k s, k < n → run_inv' w f k s →
    match epoch_body' k s with
    | (Ok _, s') => run_inv' w f (S k) s'
    | (Raise err, s') =>
        ∃ k0, k0 < n ∧ run_inv' w f k0 s'
          ∧ (sizes_ok' → loaders_ok' →
             1 ≤ k0 ∧ err = UnboundLocalError "save_dir"
             ∧ ∃ x, val_reports (log s') !! 0 = Some x
                    ∧ ¬ (0 < rep_acc x)%Q)
    end).
  { intros k s Hk Hinv. pose proof (epoch_body_best w f k s Hinv) as H.
    destruct (epoch_body' k s) as [[[]|err] s']; [done|].
    exists k. by destruct H. }
  assert (H0 : run_inv' w f 0 (enter s0)).
  { unfold run_inv, best_inv, enter; simpl. rewrite Hlog; simpl.
    split_and!; try done. lia. }
  specialize (Hloop Hstep (enter s0) H0).
  destruct (for_each (seq 0 n) epoch_body' (enter s0)) as [[[]|err] s1];
    [|done].
  split_and!; [|done|done]. by apply run_inv_leave.
Qed.

(** ** Periodic checkpoints *)

Lemma string_length_app (a b : string) :
  String.length (a +:+ b) = String.length a + String.length b.
Proof. induction a as [|c a IH]; simpl; [done|]. by rewrite IH. Qed.

Lemma string_app_inj_r (s1 s2 t : string) : s1 +:+ t = s2 +:+ t → s1 = s2.
Proof.
  revert s2. induction s1 as [|c1 s1 IH]; intros [|c2 s2] H.
  - done.
  - apply (f_equal String.length) in H.
    rewrite !string_length_app in H. simpl in H. lia.
  - apply (f_equal String.length) in H.
    rewrite !string_length_app in H. simpl in H. lia.
  - simpl in H. injection H as -> H. f_equal. by apply IH.
Qed.

Lemma model_epoch_name_inj m n : model_epoch_name m = model_epoch_name n → m = n.
Proof.
  unfold model_epoch_name. intros H.
  apply (inj (String.app _)) in H. apply string_app_inj_r in H.
  by apply (inj pretty) in H.
Qed.

Lemma epoch_path_inj m n : epoch_path m = epoch_path n → m = n.
Proof.
  unfold epoch_path, path_join. intros H.
  do 2 apply (inj (String.app _)) in H. by apply model_epoch_name_inj.
Qed.

Lemma epoch_saves_app (l1 l2 : list (Event Params)) :
  epoch_saves (l1 ++ l2) = epoch_saves l1 ++ epoch_saves l2.
Proof. apply omap_app. Qed.

Lemma epoch_saves_batches ph e rate (bs : list (list (Input * nat))) :
  epoch_saves (@batches_events Params Input ph e rate bs) = [].
Proof.
  unfold batches_events. induction bs as [|b bs IH]; [done|].
  cbn [map concat]. rewrite epoch_saves_app, IH. by destruct ph.
Qed.

Local Abbreviation periodic_inv' := (@periodic_inv Params Grads OptBuf).

Lemma even_upto_S k :
  filter (λ N, N mod 2 = 0) (seq 1 (S k)) =
  filter (λ N, N mod 2 = 0) (seq 1 k)
    ++ (if (k + 1) mod 2 =? 0 then [k + 1] else []).
Proof.
  rewrite seq_S, filter_app. f_equal. rewrite Nat.add_comm.
  destruct (Nat.eqb_spec ((k + 1) mod 2) 0) as [H|H].
  - by rewrite filter_cons_True.
  - by rewrite filter_cons_False.
Qed.

(** The training phase of epoch [k] writes the periodic checkpoint of
    epoch number [k + 1] when that number is even, if it returns. *)
Lemma train_phase_periodic w f files0 k (s : St) :
  best_inv' w f s →
  epoch_saves (log s) = filter (λ N, N mod 2 = 0) (seq 1 k)
  ∧ (∀ N, N ∈ epoch_saves (log s) → is_Some (files (fs s) !! epoch_path N))
  ∧ (∀ p, p ≠ best_path →
          (∀ N, N ∈ epoch_saves (log s) → p ≠ epoch_path N) →
          files (fs s) !! p = files0 !! p) →
  match phase_body' k Train s with
  | (Ok _, s') => periodic_inv' files0 (S k) s'
  | (Raise _, s') => periodic_inv' files0 k s'
  end.
Proof.
  intros (_ & _ & Hlast) (Hsaves & Hsome & Hother).
  assert (Hsd : save_dir (locals s) = None
                ∨ save_dir (locals s) = Some "work_dir").
  { destruct (last (best_saves (log s))); destruct Hlast as (_ & _ & ?); auto. }
  pose proof (epoch_saves_batches Train k (lr (optimizer s))
                (dataloaders Train k)) as Hsb.
  pose proof (even_upto_S k) as Hup.
  phase_exec; post_destruct Hpost; phase_cases.
  all: unfold periodic_inv; exec_cbn.
  all: rewrite ?epoch_saves_app, Hl, ?epoch_saves_app, Hsb;
       simpl (epoch_saves [_]); rewrite ?app_nil_r; rewrite ?Hf.
  all: try (by split_and!).
  all: rewrite ?app_nil_r in Hup.
  all: try (rewrite Hup, <- Hsaves; by split_and!).
  (* the checkpoint is written *)
  assert (Hs0 : s0 = "work_dir") by (destruct Hsd; congruence).
  subst s0. fold (epoch_path (k + 1)).
  rewrite Hup, <- Hsaves. split_and!; [done| |].
  - intros N [HN| ->%list_elem_of_singleton]%elem_of_app.
    + destruct (decide (epoch_path (k + 1) = epoch_path N)) as [->|Hne].
      * rewrite lookup_insert_eq. by eexists.
      * rewrite lookup_insert_ne by done. by apply Hsome.
    + rewrite lookup_insert_eq. by eexists.
  - intros p Hp Hnot. rewrite lookup_insert_ne.
    + apply Hother; [done|]. intros N HN. apply Hnot, elem_of_app. by left.
    + intros Heq. apply (Hnot (k + 1)); [|done].
      apply elem_of_app. right. by apply list_elem_of_singleton.
Qed.

(** The validation phase writes no periodic checkpoint and touches no
    file but the "best" one. *)
Lemma val_phase_periodic files0 k e (s : St) :
  periodic_inv' files0 k s →
  periodic_inv' files0 k (phase_body' e Val s).2.
Proof.
  intros (Hsaves & Hsome & Hother).
  pose proof (epoch_saves_batches Val e (lr (optimizer s))
                (dataloaders Val e)) as Hsb.
  phase_exec; post_destruct Hpost; phase_cases.
  all: unfold periodic_inv; exec_cbn.
  all: rewrite ?epoch_saves_app, Hl, ?epoch_saves_app, Hsb;
       simpl (epoch_saves [_]); rewrite ?app_nil_r; rewrite ?Hf.
  all: try (by split_and!).
  split_and!; [done| |].
  - intros N HN. rewrite lookup_insert_ne; [by apply Hsome|].
    intros Heq. by apply (epoch_file_ne_best N).
  - intros p Hp Hnot. rewrite lookup_insert_ne; [by apply Hother|done].
Qed.

(** An event that is not a periodic save leaves the invariant as it is. *)
Lemma periodic_inv_other files0 k (ev : Event Params) (s : St) :
  epoch_save ev = None →
  periodic_inv' files0 k s →
  periodic_inv' files0 k (with_log (log s ++ [ev]) s).
Proof.
  intros Hev H.
  assert (Hev' : epoch_saves [ev] = [])
    by (unfold epoch_saves; simpl; by rewrite Hev).
  unfold periodic_inv in *. cbn [log with_log fs].
  by rewrite epoch_saves_app, Hev', app_nil_r.
Qed.

Lemma periodic_inv_leave files0 k (s : St) :
  periodic_inv' files0 k s → periodic_inv' files0 k (leave s).
Proof.
  intros H. unfold leave.
  apply (periodic_inv_other files0 k EvTrainingComplete s eq_refl) in H.
  apply (periodic_inv_other files0 k (EvBestAcc (best_acc (locals s))) _
           eq_refl) in H.
  cbn [log with_log] in H. rewrite <- app_assoc in H. exact H.
Qed.

Lemma epoch_body_periodic w f files0 k (s : St) :
  best_inv' w f s → periodic_inv' files0 k s →
  match epoch_body' k s with
  | (Ok _, s') => periodic_inv' files0 (S k) s'
  | (Raise _, s') =>
      periodic_inv' files0 k s' ∨ periodic_inv' files0 (S k) s'
  end.
Proof.
  intros Hbest Hper. rewrite epoch_body_unfold.
  set (s0 := with_log _ s).
  destruct (best_inv_header w f k (lr (optimizer s)) s Hbest) as [Hbest0 _].
  fold s0 in Hbest0.
  assert (Hper0 : periodic_inv' files0 k s0).
  { by apply periodic_inv_other. }
  pose proof (train_phase_periodic w f files0 k s0 Hbest0 Hper0) as H1.
  destruct (phase_body' k Train s0) as [[[]|err] s1]; [|by left].
  pose proof (val_phase_periodic files0 (S k) k s1 H1) as H2.
  destruct (phase_body' k Val s1) as [[[]|err] s2]; [|by right].
  by apply periodic_inv_other.
Qed.

Lemma train_model_periodic n (s0 : St) :
  log s0 = [] →
  match train_model' n s0 with
  | (Ok _, s) => periodic_inv' (files (fs s0)) n s
  | (Raise _, s) => ∃ k, k ≤ n ∧ periodic_inv' (files (fs s0)) k s
  end.
Proof.
  intros Hlog. rewrite train_model_unfold.
  set (w := params (model s0)). set (f := files (fs s0) !! best_path).
  set (files0 := files (fs s0)).
  pose proof (for_each_seq_inv
    (λ k s, run_inv' w f k s ∧ periodic_inv' files0 k s)
    (λ _ s, ∃ k, k ≤ n ∧ periodic_inv' files0 k s)
    epoch_body' n) as Hloop.
  cbv beta in Hloop.
  assert (Hstep : ∀ k s, k < n →
    run_inv' w f k s ∧ periodic_inv' files0 k s →
    match epoch_body' k s with
    | (Ok _, s') => run_inv' w f (S k) s' ∧ periodic_inv' files0 (S k) s'
    | (Raise _, s') => ∃ k0, k0 ≤ n ∧ periodic_inv' files0 k0 s'
    end).
  { intros k s Hk [Hrun Hper].
    pose proof (epoch_body_best w f k s Hrun) as H1.
    pose proof (epoch_body_periodic w f files0 k s (proj1 Hrun) Hper) as H2.
    destruct (epoch_body' k s) as [[[]|err] s']; [done|].
    destruct H2 as [H2|H2]; [exists k|exists (S k)]; split; (lia || done). }
  assert (H0 : run_inv' w f 0 (enter s0) ∧ periodic_inv' files0 0 (enter s0)).
  { unfold run_inv, best_inv, periodic_inv, enter; simpl.
    rewrite Hlog; simpl. split_and!; try done; try lia.
    intros N HN. by inversion HN. }
  specialize (Hloop Hstep (enter s0) H0).
  destruct (for_each (seq 0 n) epoch_body' (enter s0)) as [[[]|err] s1];
    [|done].
  destruct Hloop as [_ Hper]. by apply periodic_inv_leave.
Qed.

(** When a call that started without periodic checkpoint files returns,
    the file of epoch number [N] exists exactly for the even [N] between 1
    and the number of epochs. *)
Lemma periodic_checkpoints_when_returned n (s0 : St) w :
  log s0 = [] →
  (∀ N, files (fs s0) !! epoch_path N = None) →
  (train_model' n s0).1 = Ok w →
  ∀ N, is_Some (files (fs (train_model' n s0).2) !! epoch_path N)
       ↔ (0 < N ≤ n ∧ N mod 2 = 0).
Proof.
  intros Hlog Hfresh Hret N. pose proof (train_model_periodic n s0 Hlog) as H.
  destruct (train_model' n s0) as [[w'|err] s]; [|discriminate].
  cbn [snd]. destruct H as (Hsaves & Hsome & Hother).
  assert (Hmem : N ∈ epoch_saves (log s) ↔ 0 < N ≤ n ∧ N mod 2 = 0).
  { rewrite Hsaves, list_elem_of_filter, elem_of_seq. lia. }
  rewrite <- Hmem. split; [|apply Hsome].
  intros Hfile. destruct (decide (N ∈ epoch_saves (log s))) as [|Hnot]; [done|].
  exfalso. rewrite Hother, Hfresh in Hfile.
  - by destruct Hfile.
  - apply epoch_file_ne_best.
  - intros N' HN' Heq. apply epoch_path_inj in Heq. congruence.
Qed.

(** ** The "best" checkpoint over a whole call *)

Lemma seen_epoch (vr : list (@ValReport Params)) k i x :
  map rep_epoch vr = seq 0 k → vr !! i = Some x → rep_epoch x = i ∧ i < k.
Proof.
  intros Hseen Hx.
  assert (H : map rep_epoch vr !! i = Some (rep_epoch x))
    by (by rewrite list_lookup_fmap, Hx).
  rewrite Hseen in H. apply lookup_seq in H. simpl in H. lia.
Qed.

Lemma run_inv_best w f k (s : St) :
  run_inv' w f k s →
  best_written_on_new_positive_maximum (log s)
  ∧ (∀ x, x ∈ best_saves (log s) → x ∈ val_reports (log s))
  ∧ best_saves_increasing (log s)
  ∧ (∀ x, x ∈ val_reports (log s) → (rep_acc x <= best_acc (locals s))%Q)
  ∧ match last (best_saves (log s)) with
    | Some x =>
        best_acc (locals s) = rep_acc x
        ∧ best_model_wts (locals s) = rep_wts x
        ∧ files (fs s) !! best_path = Some (rep_wts x)
    | None =>
        best_acc (locals s) = 0%Q
        ∧ best_model_wts (locals s) = w
        ∧ files (fs s) !! best_path = f
    end.
Proof.
  intros ((Hbs & Hba & Hlast) & Hseen & _). split_and!.
  - intros i x Hx. rewrite Hbs, records_spec. split.
    + intros (i' & Hx' & Hpos & Hprev). split; [done|].
      destruct (seen_epoch _ _ _ _ Hseen Hx) as [Hi _].
      destruct (seen_epoch _ _ _ _ Hseen Hx') as [Hi' _].
      by replace i with i' by congruence.
    + intros [Hpos Hprev]. by exists i.
  - intros x. rewrite Hbs, records_spec.
    intros (i & Hx & _). by eapply list_elem_of_lookup_2.
  - intros i j x y Hij. rewrite Hbs. by apply records_increasing.
  - intros x Hx. rewrite Hba. by apply threshold_bounds.
  - rewrite Hba, threshold_last, <- Hbs.
    destruct (last (best_saves (log s))) as [x|];
      destruct Hlast as (? & ? & ?); done.
Qed.

(** C1 (amended): over a whole call, whether it returns or raises, the
    "best" checkpoint is written at an epoch exactly when its validation
    accuracy exceeds 0.0 and the validation accuracy of every earlier
    epoch; every write answers a report; the accuracies of successive
    writes increase; the best accuracy bounds every reported validation
    accuracy; and the best accuracy, the best snapshot and the "best" file
    are those of the last write (the initial ones before any write). *)
Theorem best_checkpoint_tracks_maximum n (s0 : St) :
  log s0 = [] →
  let s := (train_model' n s0).2 in
  best_written_on_new_positive_maximum (log s)
  ∧ (∀ x, x ∈ best_saves (log s) → x ∈ val_reports (log s))
  ∧ best_saves_increasing (log s)
  ∧ (∀ x, x ∈ val_reports (log s) → (rep_acc x <= best_acc (locals s))%Q)
  ∧ match last (best_saves (log s)) with
    | Some x =>
        best_acc (locals s) = rep_acc x
        ∧ best_model_wts (locals s) = rep_wts x
        ∧ files (fs s) !! best_path = Some (rep_wts x)
    | None =>
        best_acc (locals s) = 0%Q
        ∧ best_model_wts (locals s) = params (model s0)
        ∧ files (fs s) !! best_path = files (fs s0) !! best_path
    end.
Proof.
  intros Hlog. pose proof (train_model_outcome n s0 Hlog) as H.
  destruct (train_model' n s0) as [[w|err] s]; cbn [snd].
  - destruct H as (Hinv & _). by eapply run_inv_best.
  - destruct H as (k & _ & Hinv & _). by eapply run_inv_best.
Qed.

(** C2 (amended): when both subsets hold a sample and every loader
    iteration yields a batch, a call with at most one epoch, or whose
    first validation accuracy exceeds 0.0, returns; the weights returned
    are those loaded into the model; they are the weights held at the
    first validation report of highest accuracy when that accuracy
    exceeds 0.0, and the weights on entry otherwise. *)
Theorem train_model_returns_best_snapshot n (s0 : St) :
  sizes_ok' → loaders_ok' → log s0 = [] →
  let r := (train_model' n s0).1 in
  let s := (train_model' n s0).2 in
  (n ≤ 1 ∨ ∃ x, val_reports (log s) !! 0 = Some x ∧ (0 < rep_acc x)%Q) →
  returns_first_best_or_initial (params (model s0)) r (log s)
  ∧ r = Ok (params (model s)).
Proof.
  intros Hsz Hld Hlog. pose proof (train_model_outcome n s0 Hlog) as H.
  destruct (train_model' n s0) as [[w|err] s]; cbn [fst snd]; intros Hret.
  - destruct H as (Hinv & Hw & Hp). split; [|by rewrite Hp].
    destruct (run_inv_best _ _ _ _ Hinv) as (Hiff & Hsub & _ & Hbound & Hlast).
    exists w. split; [done|].
    destruct (last (best_saves (log s))) as [x|] eqn:El.
    + left. destruct Hlast as (Hacc & Hwts & _).
      assert (Hx : x ∈ best_saves (log s)) by by apply last_Some_elem_of.
      pose proof (Hsub x Hx) as Hxv.
      apply list_elem_of_lookup in Hxv as [i Hi].
      destruct (Hiff i x Hi) as [Hpos _]. destruct (Hpos Hx) as [H0 Hprev].
      exists i, x. split_and!; try done; try congruence.
      intros y Hy. rewrite <- Hacc. by apply Hbound.
    + right. destruct Hlast as (Hacc & Hwts & _).
      split; [congruence|]. intros y Hy. rewrite <- Hacc. by apply Hbound.
  - exfalso. destruct H as (k & Hk & Hinv & Hcause).
    destruct (Hcause Hsz Hld) as (Hk1 & _ & x & Hx & Hneg).
    destruct Hret as [Hn|(x' & Hx' & Hpos)]; [lia|].
    apply Hneg. congruence.
Qed.

(** ** Invariants of the log over a whole call *)

Lemma train_model_log_inv (P : list (Event Params) → Prop) :
  (∀ l e rate, P l → P (l ++ [EvEpochHeader e rate])) →
  (∀ l e, P l → P (l ++ [EvEpochEnd e])) →
  (∀ l a, P l → P (l ++ [EvTrainingComplete; EvBestAcc a])) →
  (∀ e ph (s : St), P (log s) → P (log (phase_body' e ph s).2)) →
  ∀ n (s : St), P (log s) → P (log (train_model' n s).2).
Proof.
  intros Hhead Hend Hclose Hphase n s Hs. rewrite train_model_unfold.
  pose proof (for_each_seq_inv (λ _ t, P (log t)) (λ _ t, P (log t))
                epoch_body' n) as Hloop.
  cbv beta in Hloop.
  assert (Hstep : ∀ k (t : St), k < n → P (log t) →
    match epoch_body' k t with
    | (Ok _, t') => P (log t')
    | (Raise _, t') => P (log t')
    end).
  { intros k t _ Ht. rewrite epoch_body_unfold.
    set (t0 := with_log _ t).
    assert (H0 : P (log t0)) by (subst t0; simpl; by apply Hhead).
    pose proof (Hphase k Train t0 H0) as H1.
    destruct (phase_body' k Train t0) as [[[]|err] t1]; cbn [snd] in H1;
      [|done].
    pose proof (Hphase k Val t1 H1) as H2.
    destruct (phase_body' k Val t1) as [[[]|err] t2]; cbn [snd] in H2;
      [|done].
    cbn [log with_log]. by apply Hend. }
  specialize (Hloop Hstep (enter s) Hs).
  destruct (for_each (seq 0 n) epoch_body' (enter s)) as [[[]|err] s1];
    cbn [snd]; [|done].
  unfold leave. cbn [log with_log with_model]. by apply Hclose.
Qed.

Lemma train_model_metrics n (s : St) :
  (∀ o l, (0 <= criterion o l)%Q) →
  (∀ ph k, length (concat (dataloaders ph k)) = dataset_sizes ph) →
  Forall metrics_ok (log s) →
  Forall metrics_ok (log (train_model' n s).2).
Proof.
  intros Hcrit Hsz. apply (train_model_log_inv (Forall metrics_ok)).
  - intros l e rate Hl. rewrite Forall_app. split; [done|].
    by repeat constructor.
  - intros l e Hl. rewrite Forall_app. split; [done|].
    by repeat constructor.
  - intros l a Hl. rewrite Forall_app. split; [done|].
    by repeat constructor.
  - intros e ph t. by apply phase_body_metrics.
Qed.

Lemma train_model_lr n (s : St) :
  Forall lr_ok (log s) → sched_at 0 s →
  Forall lr_ok (log (train_model' n s).2).
Proof.
  intros Hlog Hsch. rewrite train_model_unfold.
  pose proof (epochs_lr n (enter s) Hlog Hsch) as H.
  destruct (for_each (seq 0 n) epoch_body' (enter s)) as [[[]|err] s1];
    cbn [snd]; [|done].
  unfold leave. cbn [log with_log with_model]. rewrite Forall_app.
  split; [exact (proj1 H)|]. by repeat constructor.
Qed.

Lemma train_model_steps n (s : St) :
  log s = [] →
  steps (log (train_model' n s).2) `prefix_of` run_steps nt nv n
  ∧ (∀ w, (train_model' n s).1 = Ok w →
          steps (log (train_model' n s).2) = run_steps nt nv n).
Proof.
  intros Hlog. rewrite train_model_unfold.
  pose proof (epochs_steps n (enter s)) as H.
  specialize (H ltac:(by simpl; rewrite Hlog)).
  destruct (for_each (seq 0 n) epoch_body' (enter s)) as [[[]|err] s1];
    cbn [fst snd].
  - unfold leave. cbn [with_model with_log log]. rewrite steps_app, H.
    change (steps [EvTrainingComplete; EvBestAcc (best_acc (locals s1))])
      with (@nil Step).
    by rewrite app_nil_r.
  - split; [done|]. intros w Hw. discriminate.
Qed.

(** ** Learning rate over a whole call *)

(** C4 (amended): in a call made as the script makes it (initial rate the
    double 0.001, step schedule of 7 epochs and factor the double 0.1),
    every learning rate shown in the header of epoch [e], and every rate
    used by an optimiser update of epoch [e], is the double obtained from
    0.001 by floor(e / 7) successive multiplications by 0.1, each rounded
    to a double; for [e < 2107] it is within one part in 10^13 of
    0.001 × 0.1^floor(e / 7), and for [e < 21] it is the double nearest to
    it; and when the call returns, the header of every epoch below the
    number of epochs is in the log. *)
Theorem learning_rate_follows_step_schedule n w0 buf0 fs0 :
  let r := (train_model' n (script_state w0 buf0 fs0)).1 in
  let s := (train_model' n (script_state w0 buf0 fs0)).2 in
  (∀ ev e rate, ev ∈ log s → lr_at ev = Some (e, rate) →
     rate = chained_lr (e / 7)
     ∧ (e < 2107 → close_to (step_lr e) rate)
     ∧ (e < 21 → (rate == nearest_lr e)%Q))
  ∧ (∀ w, r = Ok w → ∀ e, e < n → ∃ rate, EvEpochHeader e rate ∈ log s).
Proof.
  cbv zeta. split.
  - intros ev e rate Hev Hlr.
    assert (Hall : Forall lr_ok
              (log (train_model' n (script_state w0 buf0 fs0)).2)).
    { apply train_model_lr; [constructor|].
      unfold sched_at, script_state; cbn [scheduler optimizer last_epoch
        step_size gamma lr]. by split_and!. }
    rewrite Forall_forall in Hall. specialize (Hall ev Hev).
    unfold lr_ok in Hall. rewrite Hlr in Hall. subst rate.
    split_and!; [done|apply chained_lr_close|apply chained_lr_nearest].
  - intros w Hw e He.
    destruct (train_model_steps n (script_state w0 buf0 fs0) eq_refl)
      as [_ Hst].
    specialize (Hst w Hw).
    assert (Hin : EpochBegin e ∈ run_steps nt nv n).
    { unfold run_steps. apply list_elem_of_In, in_concat.
      exists (epoch_steps nt nv e). split; [|by left].
      apply in_map, in_seq. lia. }
    rewrite <- Hst in Hin. unfold steps in Hin.
    apply list_elem_of_omap in Hin as (ev & Hev & Hstep).
    destruct ev as [e' rate| | |[] ?| | | | | | | | |]; simpl in Hstep;
      try discriminate.
    injection Hstep as ->. by exists rate.
Qed.

(** ** Order of the phases over a whole call *)

(** C5 (amended): the log of a call shows, epoch after epoch, the header
    of the epoch, then all training batches, then the advance of the
    schedule, then all validation batches; a call that raises stops
    somewhere along this order, and a call that returns has gone through
    it for every epoch. *)
Theorem phases_in_loop_order n (s0 : St) :
  log s0 = [] →
  let r := (train_model' n s0).1 in
  let s := (train_model' n s0).2 in
  steps (log s) `prefix_of` run_steps nt nv n
  ∧ (∀ w, r = Ok w → steps (log s) = run_steps nt nv n).
Proof. intros Hlog. by apply train_model_steps. Qed.

(** ** When a call returns *)

(** A call of two epochs or more returns only if the first validation
    accuracy exceeded 0.0: otherwise [save_dir] is still unbound at the
    periodic save of the second epoch. *)
Lemma train_model_raises_without_first_improvement n (s0 : St) :
  log s0 = [] → 2 ≤ n →
  (∀ x, val_reports (log (train_model' n s0).2) !! 0 = Some x →
        ¬ (0 < rep_acc x)%Q) →
  ∃ err, (train_model' n s0).1 = Raise err.
Proof.
  intros Hlog Hn Hneg. pose proof (train_model_outcome n s0 Hlog) as H.
  destruct (train_model' n s0) as [[w|err] s]; cbn [fst snd] in *;
    [|by eexists].
  destruct H as ((_ & _ & Hfirst) & _).
  destruct (Hfirst Hn) as (x & Hx & Hpos). by destruct (Hneg x Hx).
Qed.

Lemma train_model_returns_iff n (s0 : St) :
  sizes_ok' → loaders_ok' → log s0 = [] →
  (∃ w, (train_model' n s0).1 = Ok w) ↔
  (n ≤ 1 ∨ ∃ x, val_reports (log (train_model' n s0).2) !! 0 = Some x
                ∧ (0 < rep_acc x)%Q).
Proof.
  intros Hsz Hld Hlog. pose proof (train_model_outcome n s0 Hlog) as H.
  destruct (train_model' n s0) as [[w|err] s]; cbn [fst snd] in *.
  - split; [intros _|by eexists].
    destruct H as ((_ & _ & Hfirst) & _).
    destruct (decide (n ≤ 1)); [by left|right]. apply Hfirst. lia.
  - split; [by intros [w ?]|].
    destruct H as (k & Hk & _ & Hcause).
    destruct (Hcause Hsz Hld) as (Hk1 & _ & x & Hx & Hneg).
    intros [Hn|(x' & Hx' & Hpos)]; [lia|].
    exfalso. apply Hneg. congruence.
Qed.


(** ** Validation phases over a whole call *)

Lemma batches_no_val_update ph e rate (bs : list (list (Input * nat))) :
  Forall (λ ev, update_phase ev ≠ Some Val)
    (@batches_events Params Input ph e rate bs).
Proof.
  unfold batches_events. induction bs as [|b bs IH]; simpl; [constructor|].
  destruct ph; simpl; repeat (constructor; [done|]); exact IH.
Qed.

Lemma phase_body_no_val_update e (ph : Phase) (s : St) :
  Forall (λ ev, update_phase ev ≠ Some Val) (log s) →
  Forall (λ ev, update_phase ev ≠ Some Val) (log (phase_body' e ph s).2).
Proof.
  intros Hlog.
  pose proof (batches_no_val_update ph e (lr (optimizer s)) (dataloaders ph e))
    as Hbs.
  destruct ph; phase_exec; post_destruct Hpost; phase_cases.
  all: rewrite ?Forall_app, ?Hl, ?Forall_app.
  all: split_and!; try done; by repeat (constructor; [done|]).
Qed.

(** C9: the validation phase of any epoch, started in any state, leaves
    the parameters, the optimiser (learning rate and momentum buffers) and
    the scheduler as they were; its batches clear the stored gradients and
    compute none; none of the operations it logs is a backward pass or an
    optimiser update; and over a whole run of the script the log holds no
    backward pass and no optimiser update of a validation phase. *)
Theorem validate_phase_only_forward (e : nat) (s : St) :
  (let s' := (phase_body' e Val s).2 in
   params (model s') = params (model s)
   ∧ optimizer s' = optimizer s
   ∧ scheduler s' = scheduler s
   ∧ (grad (model s') = None ∨ grad (model s') = grad (model s))
   ∧ ∃ evs, log s' = log s ++ evs
            ∧ Forall (λ ev, update_phase ev = None) evs)
  ∧ ∀ n w0 buf0 fs0 ev,
      ev ∈ log (train_model' n (script_state w0 buf0 fs0)).2 →
      update_phase ev ≠ Some Val.
Proof.
  split; [apply val_phase_frame|].
  intros n w0 buf0 fs0 ev Hev.
  assert (Hall : Forall (λ ev, update_phase ev ≠ Some Val)
            (log (train_model' n (script_state w0 buf0 fs0)).2)).
  { apply (train_model_log_inv (Forall (λ ev, update_phase ev ≠ Some Val))).
    - intros l e' rate Hl. rewrite Forall_app. split; [done|].
      by repeat constructor.
    - intros l e' Hl. rewrite Forall_app. split; [done|].
      by repeat constructor.
    - intros l a Hl. rewrite Forall_app. split; [done|].
      by repeat constructor.
    - apply phase_body_no_val_update.
    - constructor. }
  rewrite Forall_forall in Hall. by apply Hall.
Qed.

(** ** What the batches do to the running loss and to the mode *)

Lemma batch_body_effect ph e b (s : St) :
  ∃ s', batch_body' ph e b s = (Ok tt, s')
    ∧ training (model s') = training (model s)
    ∧ running_loss (locals s') =
      (running_loss (locals s)
       + criterion (forward (training (model s)) (params (model s))
                      (map fst b)) (map snd b)
         * Qofnat (length b))%Q.
Proof.
  destruct ph; (eexists; split; [unfold batch_body; exec; reflexivity|]);
    exec_cbn; by rewrite length_map.
Qed.

Lemma batches_training ph e bs (s : St) :
  training (model (for_each bs (batch_body' ph e) s).2) = training (model s).
Proof.
  revert s. induction bs as [|b bs IH]; intros s; [done|].
  destruct (batch_body_effect ph e b s) as (s1 & Hb & Ht & _).
  cbn [for_each]. unfold bind. rewrite Hb, IH. exact Ht.
Qed.

Lemma Qofnat_plus m n : (Qofnat (m + n) == Qofnat m + Qofnat n)%Q.
Proof.
  unfold Qofnat. rewrite Nat2Z.inj_add, inject_Z_plus. reflexivity.
Qed.

(** Runs a phase symbolically like [phase_exec], keeping also what the
    batches do to the mode of the model. *)
Ltac phase_exec_mode :=
  unfold phase_body; exec;
  match goal with
  | |- context [for_each ?bs (batch_body _ _ _ _ _ ?ph ?e) ?s0] =>
      let s1 := fresh "s1" in
      let Hrun := fresh "Hrun" in
      let Hpost := fresh "Hpost" in
      let Hmode := fresh "Hmode" in
      pose proof (batches_training ph e bs s0) as Hmode;
      destruct (batches_run ph e bs s0) as (s1 & Hrun & Hpost);
      rewrite Hrun in Hmode |- *; cbn [snd] in Hmode
  end;
  exec_cbn.

(** ** What a phase does to the file system *)

Lemma train_phase_fs e (s : St) :
  match phase_body' e Train s with
  | (Ok _, s') =>
      save_dir (locals s') = save_dir (locals s)
      ∧ fs s' =
        match (if (e + 1) mod 2 =? 0 then save_dir (locals s) else None) with
        | Some d =>
            {| dirs := dirs (fs s);
               files := <[path_join d (model_epoch_name (e + 1))
                          := params (model s')]> (files (fs s)) |}
        | None => fs s
        end
  | (Raise _, s') =>
      save_dir (locals s') = save_dir (locals s) ∧ fs s' = fs s
  end.
Proof.
  phase_exec; post_destruct Hpost; phase_cases.
  all: rewrite ?Hf; split; congruence.
Qed.

Lemma val_phase_fs e (s : St) :
  let s' := (phase_body' e Val s).2 in
  (fs s' = fs s ∧ save_dir (locals s') = save_dir (locals s))
  ∨ (fs s' = {| dirs := {["work_dir"]} ∪ dirs (fs s);
                files := <[best_path := params (model s)]> (files (fs s)) |}
     ∧ save_dir (locals s') = Some "work_dir").
Proof.
  phase_exec; post_destruct Hpost; destruct (Hv eq_refl) as (Hp & _).
  phase_cases.
  all: rewrite ?Hd, ?Hf, ?Hp; auto.
Qed.

(** A validation phase that completes leaves the model in evaluation mode
    with no gradient stored. *)
Lemma val_phase_mode e (s : St) :
  match phase_body' e Val s with
  | (Ok _, s') => training (model s') = false ∧ grad (model s') = None
  | (Raise _, _) => True
  end.
Proof.
  phase_exec_mode; post_destruct Hpost; destruct (Hv eq_refl) as (_ & _ & Hg).
  destruct Hc as (c & _ & Hrc).
  phase_cases; try done.
  all: split; [done|].
  all: rewrite Hg; destruct (dataloaders Val e); [discriminate|done].
Qed.

(** ** Failures of the metrics *)

Lemma phase_zero_size e ph (s : St) :
  dataset_sizes ph = 0 →
  ∃ s', phase_body' e ph s = (Raise ZeroDivisionError, s')
        ∧ fs s' = fs s
        ∧ last_epoch (scheduler s') =
          (if is_train ph then S (last_epoch (scheduler s))
           else last_epoch (scheduler s)).
Proof.
  intros Hz. destruct ph; phase_exec; post_destruct Hpost; rewrite Hz;
    cbn [Nat.eqb]; (eexists; split; [reflexivity|]); exec_cbn;
    by rewrite ?Hs, ?Hf.
Qed.

Lemma phase_no_batch e ph (s : St) :
  dataloaders ph e = [] → dataset_sizes ph ≠ 0 →
  ∃ s', phase_body' e ph s = (Raise (AttributeError "double"), s')
        ∧ fs s' = fs s.
Proof.
  intros Hb Hz. apply Nat.eqb_neq in Hz.
  destruct ph; unfold phase_body; rewrite Hb, Hz; exec; cbn [for_each];
    exec; (eexists; split; [reflexivity|done]).
Qed.

Lemma train_phase_first_ok (s : St) :
  dataset_sizes Train ≠ 0 → dataloaders Train 0 ≠ [] →
  ∃ s', phase_body' 0 Train s = (Ok tt, s') ∧ fs s' = fs s.
Proof.
  intros Hz Hb. pose proof (train_phase_outcome 0 s) as Hout.
  pose proof (train_phase_fs 0 s) as Hfs.
  destruct (phase_body' 0 Train s) as [[[]|err] s'].
  - exists s'. split; [done|]. by destruct Hfs as [_ ->].
  - by destruct (Hout Hz Hb) as (? & _).
Qed.

(** ** Invariants of the state over a whole call *)

(** An invariant indexed by the number of complete epochs, with its form
    between the two phases of an epoch. *)
Lemma epochs_phase_inv (I Imid : nat → St → Prop) (F : PyError → St → Prop)
    (n : nat) :
  (∀ k (s : St) rate,
     I k s → I k (with_log (log s ++ [EvEpochHeader k rate]) s)) →
  (∀ k (s : St),
     I (S k) s → I (S k) (with_log (log s ++ [EvEpochEnd k]) s)) →
  (∀ k s, k < n → I k s →
     match phase_body' k Train s with
     | (Ok _, s') => Imid k s'
     | (Raise err, s') => F err s'
     end) →
  (∀ k s, k < n → Imid k s →
     match phase_body' k Val s with
     | (Ok _, s') => I (S k) s'
     | (Raise err, s') => F err s'
     end) →
  ∀ s, I 0 s →
    match for_each (seq 0 n) epoch_body' s with
    | (Ok _, s') => I n s'
    | (Raise err, s') => F err s'
    end.
Proof.
  intros Hhead Hend Htrain Hval. apply for_each_seq_inv.
  intros k s Hk Hs. rewrite epoch_body_unfold.
  specialize (Hhead k s (lr (optimizer s)) Hs).
  specialize (Htrain k _ Hk Hhead).
  destruct (phase_body' k Train _) as [[[]|err] s1]; [|done].
  specialize (Hval k s1 Hk Htrain).
  destruct (phase_body' k Val s1) as [[[]|err] s2]; [|done].
  by apply Hend.
Qed.

(** A property of the state kept by every phase is kept by the call. *)
Lemma train_model_state_inv (P : St → Prop) :
  (∀ s l, P s → P (with_log l s)) →
  (∀ s m, P s → P (with_model m s)) →
  (∀ e ph s, P s → P (phase_body' e ph s).2) →
  ∀ n s, P (enter s) → P (train_model' n s).2.
Proof.
  intros Hlog Hmodel Hphase n s Hs. rewrite train_model_unfold.
  pose proof (epochs_phase_inv (λ _, P) (λ _, P) (λ _, P) n) as Hloop.
  cbv beta in Hloop.
  specialize (Hloop
    ltac:(intros k t rate Ht; by apply Hlog)
    ltac:(intros k t Ht; by apply Hlog)
    ltac:(intros k t _ Ht; pose proof (Hphase k Train t Ht) as H;
          by destruct (phase_body' k Train t) as [[[]|err] t'])
    ltac:(intros k t _ Ht; pose proof (Hphase k Val t Ht) as H;
          by destruct (phase_body' k Val t) as [[[]|err] t'])
    (enter s) Hs).
  destruct (for_each (seq 0 n) epoch_body' (enter s)) as [[[]|err] s1];
    cbn [snd]; [|done].
  unfold leave. by apply Hmodel, Hlog.
Qed.

(** While [save_dir] is unbound nothing has been written, and once it is
    bound the directory exists; no directory but that one is created. *)
Lemma train_model_fs_inv n (s0 : St) :
  let s := (train_model' n s0).2 in
  match save_dir (locals s) with
  | None => fs s = fs s0
  | Some _ => "work_dir" ∈ dirs (fs s)
  end
  ∧ dirs (fs s0) ⊆ dirs (fs s)
  ∧ ∀ d, d ∈ dirs (fs s) → d = "work_dir" ∨ d ∈ dirs (fs s0).
Proof.
  apply (train_model_state_inv (λ s,
    match save_dir (locals s) with
    | None => fs s = fs s0
    | Some _ => "work_dir" ∈ dirs (fs s)
    end
    ∧ dirs (fs s0) ⊆ dirs (fs s)
    ∧ ∀ d, d ∈ dirs (fs s) → d = "work_dir" ∨ d ∈ dirs (fs s0))).
  - done.
  - done.
  - intros e ph s (Hsd & Hsub & Honly). destruct ph.
    + pose proof (train_phase_fs e s) as H.
      destruct (phase_body' e Train s) as [[[]|err] s']; cbn [snd];
        destruct H as [Hd Hf]; rewrite Hd, Hf.
      * destruct (save_dir (locals s)) as [d|];
          destruct ((e + 1) mod 2 =? 0); done.
      * done.
    + destruct (val_phase_fs e s) as [[Hf Hd]|[Hf Hd]];
        rewrite Hd, Hf; [done|]. cbn [dirs]. split_and!.
      * set_solver.
      * set_solver.
      * intros d [->%elem_of_singleton|Hd']%elem_of_union; auto.
  - unfold enter; simpl. split_and!; [done|done|auto].
Qed.

(** ** Errors of the metrics *)

(** X1: when the dataset size of a phase is 0 (the training phase, or the
    validation phase after a training phase that can complete), a call
    with at least one epoch raises ZeroDivisionError at the division of
    line 79 in its first epoch, and nothing has been written to disk. *)
Theorem empty_subset_raises_zero_division n (s0 : St) ph :
  1 ≤ n → dataset_sizes ph = 0 →
  (ph = Val → dataset_sizes Train ≠ 0 ∧ dataloaders Train 0 ≠ []) →
  let run := train_model forward argmax criterion backward sgd_step
               dataloaders dataset_sizes n s0 in
  run.1 = Raise ZeroDivisionError ∧ fs run.2 = fs s0.
Proof.
  intros Hn Hz Hval. cbv zeta. rewrite train_model_unfold.
  destruct n as [|n]; [lia|]. cbn [seq for_each]. unfold bind.
  rewrite epoch_body_unfold. set (s1 := with_log _ (enter s0)).
  destruct ph.
  - destruct (phase_zero_size 0 Train s1 Hz) as (s2 & -> & Hf & _).
    cbn [fst snd]. by rewrite Hf.
  - destruct (Hval eq_refl) as [Hsz Hbs].
    destruct (train_phase_first_ok s1 Hsz Hbs) as (s2 & -> & Hf2).
    destruct (phase_zero_size 0 Val s2 Hz) as (s3 & -> & Hf3 & _).
    cbn [fst snd]. by rewrite Hf3, Hf2.
Qed.

(** X2: when the loader of a phase yields no batch although the dataset
    size of the phase is not 0, [running_corrects] is still the integer 0
    at line 80, and a call with at least one epoch raises AttributeError
    in its first epoch; nothing has been written to disk. *)
Theorem no_batch_raises_attribute_error n (s0 : St) ph :
  1 ≤ n → dataloaders ph 0 = [] → dataset_sizes ph ≠ 0 →
  (ph = Val → dataset_sizes Train ≠ 0 ∧ dataloaders Train 0 ≠ []) →
  let run := train_model forward argmax criterion backward sgd_step
               dataloaders dataset_sizes n s0 in
  run.1 = Raise (AttributeError "double") ∧ fs run.2 = fs s0.
Proof.
  intros Hn Hb Hz Hval. cbv zeta. rewrite train_model_unfold.
  destruct n as [|n]; [lia|]. cbn [seq for_each]. unfold bind.
  rewrite epoch_body_unfold. set (s1 := with_log _ (enter s0)).
  destruct ph.
  - destruct (phase_no_batch 0 Train s1 Hb Hz) as (s2 & -> & Hf).
    cbn [fst snd]. by rewrite Hf.
  - destruct (Hval eq_refl) as [Hsz Hbs].
    destruct (train_phase_first_ok s1 Hsz Hbs) as (s2 & -> & Hf2).
    destruct (phase_no_batch 0 Val s2 Hb Hz) as (s3 & -> & Hf3).
    cbn [fst snd]. by rewrite Hf3, Hf2.
Qed.

(** ** Return and failure *)

(** X3: when both subsets hold a sample and every loader iteration yields
    a batch, a call returns exactly when it has at most one epoch or its
    first validation accuracy exceeds 0.0. *)
Theorem train_model_returns_exactly_when n (s0 : St) :
  sizes_ok' → loaders_ok' → log s0 = [] →
  let r := (train_model' n s0).1 in
  let s := (train_model' n s0).2 in
  (∃ w, r = Ok w) ↔
  (n ≤ 1 ∨ ∃ x, val_reports (log s) !! 0 = Some x ∧ (0 < rep_acc x)%Q).
Proof.
  intros Hsz Hld Hlog. pose proof (train_model_outcome n s0 Hlog) as H.
  destruct (train_model' n s0) as [[w|err] s]; cbn [fst snd] in *.
  - split; [intros _|by eexists].
    destruct H as ((_ & _ & Hfirst) & _).
    destruct (decide (n ≤ 1)); [by left|right]. apply Hfirst. lia.
  - split; [by intros [w ?]|].
    destruct H as (k & Hk & _ & Hcause).
    destruct (Hcause Hsz Hld) as (Hk1 & _ & x & Hx & Hneg).
    intros [Hn|(x' & Hx' & Hpos)]; [lia|].
    exfalso. apply Hneg. congruence.
Qed.

(** The only failure left when both subsets hold a sample and every
    loader iteration yields a batch. *)
Lemma train_model_failure_mode n (s0 : St) err :
  sizes_ok' → loaders_ok' → log s0 = [] →
  (train_model' n s0).1 = Raise err →
  let s := (train_model' n s0).2 in
  err = UnboundLocalError "save_dir"
  ∧ 2 ≤ n
  ∧ (∃ x, val_reports (log s) = [x] ∧ rep_epoch x = 0
          ∧ (rep_acc x <= 0)%Q)
  ∧ best_saves (log s) = []
  ∧ fs s = fs s0.
Proof.
  intros Hsz Hld Hlog Herr.
  pose proof (train_model_outcome n s0 Hlog) as H.
  pose proof (train_model_fs_inv n s0) as Hfs. cbv zeta in Hfs.
  destruct (train_model' n s0) as [[w|err'] s]; cbn [fst snd] in *;
    [discriminate|].
  injection Herr as ->.
  destruct H as (k & Hk & ((Hbs & Hba & Hlast) & Hseen & Hfirst) & Hcause).
  destruct (Hcause Hsz Hld) as (Hk1 & -> & x & Hx & Hneg).
  assert (k = 1) as ->.
  { destruct (decide (2 ≤ k)) as [Hk2|]; [|lia].
    destruct (Hfirst Hk2) as (x' & Hx' & Hpos). exfalso. apply Hneg.
    congruence. }
  destruct (val_reports (log s)) as [|y [|z vr]] eqn:Evr;
    simpl in Hseen, Hx; try done.
  injection Hx as ->. injection Hseen as Hep.
  assert (Hle : (rep_acc x <= 0)%Q) by by apply Qnot_lt_le.
  assert (Hnone : best_saves (log s) = []).
  { rewrite Hbs. simpl. by apply Qltb_ge in Hle as ->. }
  rewrite Hnone in Hlast. simpl in Hlast. destruct Hlast as (_ & _ & Hsd).
  rewrite Hsd in Hfs. destruct Hfs as [Hfs _].
  split_and!; try done; try lia. by exists x.
Qed.

(** X4: when both subsets hold a sample and every loader iteration yields
    a batch, a call can only fail with the unbound [save_dir] of line 94,
    in its second epoch: exactly one validation report was printed, its
    accuracy was not above 0.0, no "best" checkpoint was written, and the
    file system is as it was on entry. *)
Theorem failed_call_wrote_nothing n (s0 : St) err :
  sizes_ok' → loaders_ok' → log s0 = [] →
  (train_model' n s0).1 = Raise err →
  let s := (train_model' n s0).2 in
  err = UnboundLocalError "save_dir"
  ∧ 2 ≤ n
  ∧ (∃ x, val_reports (log s) = [x] ∧ rep_epoch x = 0
          ∧ (rep_acc x <= 0)%Q)
  ∧ best_saves (log s) = []
  ∧ fs s = fs s0.
Proof. apply train_model_failure_mode. Qed.

(** X5: whether it returns or raises, a call changes no file other than
    the "best" file and the files [model_epoch_N.pth] of the even [N] up
    to the number of epochs; it removes no directory and creates none but
    [work_dir]. *)
Theorem only_checkpoint_files_touched n (s0 : St) :
  log s0 = [] →
  let s := (train_model' n s0).2 in
  (∀ p, p ≠ best_path →
        (∀ N, 0 < N ≤ n → N mod 2 = 0 → p ≠ epoch_path N) →
        files (fs s) !! p = files (fs s0) !! p)
  ∧ dirs (fs s0) ⊆ dirs (fs s)
  ∧ (∀ d, d ∈ dirs (fs s) → d = "work_dir" ∨ d ∈ dirs (fs s0)).
Proof.
  intros Hlog. pose proof (train_model_periodic n s0 Hlog) as H.
  pose proof (train_model_fs_inv n s0) as (_ & Hsub & Honly).
  cbv zeta. split; [|done].
  intros p Hbest Hepoch.
  destruct (train_model' n s0) as [[w|err] s]; cbn [snd].
  - destruct H as (Hsaves & _ & Hother). apply Hother; [done|].
    intros N HN. rewrite Hsaves, list_elem_of_filter, elem_of_seq in HN.
    apply Hepoch; lia.
  - destruct H as (k & Hk & Hsaves & _ & Hother). apply Hother; [done|].
    intros N HN. rewrite Hsaves, list_elem_of_filter, elem_of_seq in HN.
    apply Hepoch; lia.
Qed.

(** ** What the checkpoints hold *)

Lemma val_reports_length (vr : list (@ValReport Params)) k :
  map rep_epoch vr = seq 0 k → length vr = k.
Proof.
  intros H. apply (f_equal length) in H.
  by rewrite length_map, length_seq in H.
Qed.

Lemma best_inv_save_dir w f (s : St) d :
  best_inv' w f s → save_dir (locals s) = Some d → d = "work_dir".
Proof.
  intros (_ & _ & Hlast) Hd.
  destruct (last (best_saves (log s))); destruct Hlast as (_ & _ & ?);
    congruence.
Qed.

(** After [k] complete epochs, the periodic checkpoint of every even epoch
    number [N] up to [k] holds the weights of the validation report of that
    epoch (index [N - 1]). *)
Lemma epochs_periodic_content w f n (s : St) :
  best_inv' w f s → val_reports (log s) = [] →
  match for_each (seq 0 n) epoch_body' s with
  | (Ok _, s') =>
      ∀ N, 0 < N ≤ n → N mod 2 = 0 →
        ∃ x, val_reports (log s') !! (N - 1) = Some x
             ∧ rep_epoch x = N - 1
             ∧ files (fs s') !! epoch_path N = Some (rep_wts x)
  | (Raise _, _) => True
  end.
Proof.
  intros Hbest Hvr.
  pose (J := λ k (t : St),
    ∀ N, 0 < N ≤ k → N mod 2 = 0 →
      ∃ x, val_reports (log t) !! (N - 1) = Some x
           ∧ rep_epoch x = N - 1
           ∧ files (fs t) !! epoch_path N = Some (rep_wts x)).
  pose proof (epochs_phase_inv
    (λ k t, best_inv' w f t
            ∧ map rep_epoch (val_reports (log t)) = seq 0 k ∧ J k t)
    (λ k t, best_inv' w f t
            ∧ map rep_epoch (val_reports (log t)) = seq 0 k ∧ J k t
            ∧ ((k + 1) mod 2 = 0 →
               files (fs t) !! epoch_path (k + 1) = Some (params (model t))))
    (λ _ _, True) n) as Hloop.
  cbv beta in Hloop.
  assert (Hother : ∀ k (t : St) (ev : Event Params),
    val_report ev = None → best_save ev = None →
    best_inv' w f t ∧ map rep_epoch (val_reports (log t)) = seq 0 k ∧ J k t →
    best_inv' w f (with_log (log t ++ [ev]) t)
    ∧ map rep_epoch (val_reports (log (with_log (log t ++ [ev]) t)))
      = seq 0 k
    ∧ J k (with_log (log t ++ [ev]) t)).
  { intros k t ev Hev1 Hev2 (Hb & Hseen & HJ).
    destruct (best_inv_other w f ev t Hev1 Hev2 Hb) as [Hb' Hv'].
    split_and!; [done|by cbn [log with_log]; rewrite Hv'|].
    intros N HN Hev. destruct (HJ N HN Hev) as (x & Hx & Hfile).
    exists x. cbn [log with_log]. by rewrite Hv'. }
  assert (Htrain : ∀ k (t : St), k < n →
    best_inv' w f t ∧ map rep_epoch (val_reports (log t)) = seq 0 k ∧ J k t →
    match phase_body' k Train t with
    | (Ok _, t') =>
        best_inv' w f t'
        ∧ map rep_epoch (val_reports (log t')) = seq 0 k ∧ J k t'
        ∧ ((k + 1) mod 2 = 0 →
           files (fs t') !! epoch_path (k + 1) = Some (params (model t')))
    | (Raise _, _) => True
    end).
  { intros k t _ (Hb & Hseen & HJ). unfold J in *.
    pose proof (train_phase_best k t w f Hb) as Hbest'.
    pose proof (train_phase_fs k t) as Hfs.
    pose proof (train_phase_outcome k t) as Hout.
    destruct (phase_body' k Train t) as [[[]|err] t']; [|done].
    cbn [snd] in Hbest'. destruct Hbest' as [Hb' Hv'].
    destruct Hfs as [Hsd Hf]. rewrite Hv'.
    destruct ((k + 1) mod 2 =? 0) eqn:Hev.
    - apply Nat.eqb_eq in Hev. specialize (Hout Hev).
      destruct (save_dir (locals t)) as [d|] eqn:Ed; [|done].
      pose proof (best_inv_save_dir w f t d Hb Ed) as ->.
      fold (epoch_path (k + 1)) in Hf. rewrite Hf. cbn [files].
      split_and!; [done|done| |].
      + intros N HN HNev. destruct (HJ N HN HNev) as (x & Hx & Hep & Hfile).
        exists x. split_and!; [done|done|].
        rewrite lookup_insert_ne; [done|].
        intros Heq%epoch_path_inj. lia.
      + intros _. by rewrite lookup_insert_eq.
    - apply Nat.eqb_neq in Hev. rewrite Hf.
      split_and!; [done|done|done|]. intros Heq. by destruct Hev. }
  assert (Hval : ∀ k (t : St), k < n →
    best_inv' w f t
    ∧ map rep_epoch (val_reports (log t)) = seq 0 k ∧ J k t
    ∧ ((k + 1) mod 2 = 0 →
       files (fs t) !! epoch_path (k + 1) = Some (params (model t))) →
    match phase_body' k Val t with
    | (Ok _, t') =>
        best_inv' w f t'
        ∧ map rep_epoch (val_reports (log t')) = seq 0 (S k) ∧ J (S k) t'
    | (Raise _, _) => True
    end).
  { intros k t _ (Hb & Hseen & HJ & Hmid). unfold J in *.
    pose proof (val_phase_best k t w f Hb) as Hbest'.
    pose proof (val_phase_fs k t) as Hfs. cbv zeta in Hfs.
    destruct (phase_body' k Val t) as [[[]|err] t']; [|done].
    cbn [snd] in Hfs. destruct Hbest' as (Hb' & a & Hv').
    pose proof (val_reports_length _ _ Hseen) as Hlen.
    assert (Hfiles : ∀ N, files (fs t') !! epoch_path N
                          = files (fs t) !! epoch_path N).
    { intros N. destruct Hfs as [[-> _]|[-> _]]; [done|]. cbn [files].
      apply lookup_insert_ne. intros Heq. by apply (epoch_file_ne_best N). }
    split_and!; [done|by rewrite Hv', map_app, Hseen, seq_S|].
    intros N HN HNev. rewrite Hv', Hfiles.
    destruct (decide (N ≤ k)) as [Hle|Hgt].
    - destruct (HJ N ltac:(lia) HNev) as (x & Hx & Hep & Hfile).
      exists x. split_and!; [|done|done]. by apply lookup_app_l_Some.
    - assert (N = k + 1) as -> by lia.
      exists (k, a, params (model t)). split_and!.
      + replace (k + 1 - 1) with (length (val_reports (log t))) by lia.
        by rewrite list_lookup_middle.
      + cbn. lia.
      + by apply Hmid. }
  specialize (Hloop
    ltac:(intros k t rate; by apply Hother)
    ltac:(intros k t; by apply Hother) Htrain Hval s).
  assert (H0 : best_inv' w f s
               ∧ map rep_epoch (val_reports (log s)) = seq 0 0 ∧ J 0 s).
  { split_and!; [done|by rewrite Hvr|]. intros N HN. lia. }
  specialize (Hloop H0).
  destruct (for_each (seq 0 n) epoch_body' s) as [[[]|err] s']; [|done].
  by destruct Hloop as (_ & _ & HJ).
Qed.

(** X6: when a call that started without periodic checkpoint files
    returns, [model_epoch_N.pth] exists exactly for the even [N] between 1
    and the number of epochs, and it holds the weights on which the
    validation accuracy of that epoch (the report of index [N - 1]) was
    measured. *)
Theorem periodic_checkpoints_after_return n (s0 : St) w :
  log s0 = [] →
  (∀ N, files (fs s0) !! epoch_path N = None) →
  (train_model' n s0).1 = Ok w →
  let s := (train_model' n s0).2 in
  (∀ N, is_Some (files (fs s) !! epoch_path N) ↔ 0 < N ≤ n ∧ N mod 2 = 0)
  ∧ (∀ N v, files (fs s) !! epoch_path N = Some v →
       ∃ x, val_reports (log s) !! (N - 1) = Some x
            ∧ rep_epoch x = N - 1 ∧ rep_wts x = v).
Proof.
  intros Hlog Hfresh Hret.
  pose proof (periodic_checkpoints_when_returned n s0 w Hlog Hfresh Hret)
    as Hiff.
  cbv zeta. split; [exact Hiff|].
  intros N v Hv. destruct (proj1 (Hiff N) ltac:(by eexists)) as [HN Hev].
  revert Hv Hret. rewrite train_model_unfold.
  pose proof (epochs_periodic_content (params (model s0))
                (files (fs s0) !! best_path) n (enter s0)) as Hc.
  specialize (Hc ltac:(unfold best_inv, enter; simpl; rewrite Hlog; done)
                 ltac:(by simpl; rewrite Hlog)).
  destruct (for_each (seq 0 n) epoch_body' (enter s0)) as [[[]|err] s1];
    cbn [fst snd]; [|discriminate].
  unfold leave. cbn [with_model with_log fs log].
  intros Hv _. destruct (Hc N HN Hev) as (x & Hx & Hep & Hfile).
  exists x. split_and!; [|done|congruence].
  rewrite val_reports_app.
  change (val_reports [EvTrainingComplete; EvBestAcc (best_acc (locals s1))])
    with (@nil (@ValReport Params)).
  by rewrite app_nil_r.
Qed.

(** X7: when a call returns and a "best" checkpoint was written during
    the call, the "best" file holds exactly the weights returned and
    [work_dir] exists; when none was written, the weights returned are
    those on entry and the file system is as it was on entry. *)
Theorem returned_weights_are_best_file n (s0 : St) w :
  log s0 = [] →
  (train_model' n s0).1 = Ok w →
  let s := (train_model' n s0).2 in
  (∃ x, last (best_saves (log s)) = Some x ∧ rep_wts x = w
        ∧ files (fs s) !! best_path = Some w
        ∧ "work_dir" ∈ dirs (fs s))
  ∨ (best_saves (log s) = [] ∧ w = params (model s0) ∧ fs s = fs s0).
Proof.
  intros Hlog Hret. pose proof (train_model_outcome n s0 Hlog) as H.
  pose proof (train_model_fs_inv n s0) as (Hfs & _). cbv zeta in Hfs.
  destruct (train_model' n s0) as [[w'|err] s]; cbn [fst snd] in *;
    [|discriminate].
  injection Hret as ->.
  destruct H as (((_ & _ & Hlast) & _) & Hw & Hp).
  destruct (last (best_saves (log s))) as [x|] eqn:El.
  - left. destruct Hlast as (Hwts & Hfile & Hsd). rewrite Hsd in Hfs.
    exists x. split_and!; [done|congruence|congruence|done].
  - right. destruct Hlast as (Hwts & Hfile & Hsd). rewrite Hsd in Hfs.
    apply last_None in El. split_and!; [done|congruence|done].
Qed.

(** ** The state left by a call *)

(** X8: when the call made by the script returns after [n] epochs, the
    scheduler has counted [n] steps and the optimiser is left at the rate
    obtained from the double 0.001 by floor(n / 7) multiplications by the
    double 0.1, each rounded to a double, with the step size and the factor
    of the schedule unchanged; for [n < 2107] that rate is within one part
    in 10^13 of 0.001 × 0.1^floor(n / 7). *)
Theorem schedule_state_after_return n w0 buf0 fs0 w :
  (train_model' n (script_state w0 buf0 fs0)).1 = Ok w →
  let s := (train_model' n (script_state w0 buf0 fs0)).2 in
  last_epoch (scheduler s) = n
  ∧ lr (optimizer s) = chained_lr (n / 7)
  ∧ (n < 2107 → close_to (step_lr n) (lr (optimizer s)))
  ∧ step_size (scheduler s) = 7
  ∧ gamma (scheduler s) = float_0_1.
Proof.
  rewrite train_model_unfold.
  pose proof (epochs_lr n (enter (script_state w0 buf0 fs0))) as Hinv.
  specialize (Hinv ltac:(constructor) ltac:(
    unfold sched_at, script_state;
    cbn [enter with_locals scheduler optimizer last_epoch step_size gamma lr];
    by split_and!)).
  destruct (for_each _ _ _) as [[[]|err] s1]; cbn [fst snd]; [|discriminate].
  intros _. destruct Hinv as (_ & Hle & Hss & Hga & Hlr).
  unfold leave. cbn [with_model with_log scheduler optimizer].
  split_and!; try done. intros Hn. rewrite Hlr. by apply chained_lr_close.
Qed.

(** X9: when a call returns, the weights returned are those left in the
    model; after at least one epoch the model is left in evaluation mode
    with its gradients cleared; and a call with no epoch returns the
    weights on entry, prints only the two closing lines, with a best
    accuracy of 0.0, and leaves the model, the optimiser, the scheduler and
    the file system as they were. *)
Theorem model_state_after_return n (s0 : St) w :
  (train_model forward argmax criterion backward sgd_step
     dataloaders dataset_sizes n s0).1 = Ok w →
  let s := (train_model forward argmax criterion backward sgd_step
              dataloaders dataset_sizes n s0).2 in
  params (model s) = w
  ∧ (1 ≤ n → training (model s) = false ∧ grad (model s) = None)
  ∧ (n = 0 → w = params (model s0) ∧ model s = model s0
             ∧ optimizer s = optimizer s0 ∧ scheduler s = scheduler s0
             ∧ fs s = fs s0
             ∧ log s = log s0 ++ [EvTrainingComplete; EvBestAcc 0]).
Proof.
  rewrite train_model_unfold.
  pose proof (epochs_phase_inv
    (λ k t, 1 ≤ k → training (model t) = false ∧ grad (model t) = None)
    (λ _ _, True) (λ _ _, True) n) as Hloop.
  cbv beta in Hloop.
  specialize (Hloop
    ltac:(by intros k t rate Ht)
    ltac:(by intros k t Ht)
    ltac:(intros k t _ _; by destruct (phase_body' k Train t) as [[[]|?] ?])
    ltac:(intros k t _ _; pose proof (val_phase_mode k t) as H;
          destruct (phase_body' k Val t) as [[[]|?] ?]; [by intros _|done])
    (enter s0) ltac:(lia)).
  destruct n as [|n].
  - cbn. intros [= <-]. split_and!; [done|lia|].
    intros _. by destruct s0 as [[] ? ? ? ? ?].
  - destruct (for_each _ _ _) as [[[]|err] s1]; cbn [fst snd];
      [|discriminate].
    intros [= <-]. split_and!; [done| |lia].
    intros _. cbn. apply Hloop. lia.
Qed.

(** X16: the files of the periodic checkpoints of two different epochs
    are different, and none of them is the "best" file: no periodic
    checkpoint overwrites another checkpoint. *)
Theorem checkpoint_paths_distinct (m n : nat) :
  m ≠ n → epoch_path m ≠ epoch_path n ∧ epoch_path m ≠ best_path.
Proof.
  intros Hne. split.
  - intros Heq. by apply Hne, epoch_path_inj.
  - apply epoch_file_ne_best.
Qed.

(** ** Exact values of a phase *)

Local Abbreviation batch_corrects' := (batch_corrects forward argmax).
Local Abbreviation batch_weighted_loss' := (batch_weighted_loss forward criterion).
Local Abbreviation train_batch_update' :=
  (@train_batch_update Params Grads OptBuf Input backward sgd_step).

Lemma val_batch_exact e b (s : St) :
  ∃ s', batch_body' Val e b s = (Ok tt, s')
    ∧ params (model s') = params (model s)
    ∧ training (model s') = training (model s)
    ∧ running_corrects (locals s') =
      count_add_tensor (running_corrects (locals s))
        (batch_corrects' (training (model s)) (params (model s)) b)
    ∧ running_loss (locals s') =
      (running_loss (locals s)
       + batch_weighted_loss' (training (model s)) (params (model s)) b)%Q.
Proof.
  eexists; split; [unfold batch_body; exec; reflexivity|]. by exec_cbn.
Qed.

Lemma val_batches_exact e bs (s : St) :
  let s' := (for_each bs (batch_body' Val e) s).2 in
  running_corrects (locals s') =
    match bs with
    | [] => running_corrects (locals s)
    | _ => count_add_tensor (running_corrects (locals s))
             (sum_list (map (batch_corrects' (training (model s))
                               (params (model s))) bs))
    end
  ∧ (running_loss (locals s') ==
     running_loss (locals s)
     + Qsum (map (batch_weighted_loss' (training (model s))
                    (params (model s))) bs))%Q.
Proof.
  revert s. induction bs as [|b bs IH]; intros s.
  - cbn. split; [done|]. by rewrite Qplus_0_r.
  - destruct (val_batch_exact e b s) as (s1 & Hb & Hp & Ht & Hc & Hl).
    cbn [for_each]. unfold bind. rewrite Hb.
    destruct (IH s1) as [IHc IHl]. cbv zeta in IHc, IHl.
    rewrite Hp, Ht in IHc, IHl. cbv zeta. split.
    + rewrite IHc, Hc. cbn [map sum_list sum_list_with].
      destruct bs as [|b' bs]; [|apply count_add_tensor_twice].
      cbn. by rewrite Nat.add_0_r.
    + rewrite IHl, Hl. cbn [map Qsum fold_right]. fold Qsum.
      by rewrite Qplus_assoc.
Qed.

Lemma train_batch_exact e b (s : St) :
  ∃ s', batch_body' Train e b s = (Ok tt, s')
    ∧ (params (model s'), momentum_buf (optimizer s')) =
      train_batch_update' (lr (optimizer s))
        (params (model s), momentum_buf (optimizer s)) b
    ∧ lr (optimizer s') = lr (optimizer s).
Proof.
  eexists; split; [unfold batch_body; exec; reflexivity|]. exec_cbn.
  split; [|done]. unfold train_batch_update. cbn [fst snd].
  by destruct (sgd_step _ _ _ _).
Qed.

Lemma train_batches_exact e bs (s : St) :
  let s' := (for_each bs (batch_body' Train e) s).2 in
  (params (model s'), momentum_buf (optimizer s')) =
  fold_left (train_batch_update' (lr (optimizer s))) bs
    (params (model s), momentum_buf (optimizer s)).
Proof.
  revert s. induction bs as [|b bs IH]; intros s; [done|].
  destruct (train_batch_exact e b s) as (s1 & Hb & Hu & Hr).
  cbn [for_each fold_left]. unfold bind. rewrite Hb.
  cbv zeta. rewrite <- Hu, <- Hr. apply IH.
Qed.

(** X17: a validation phase over a subset that holds a sample, with a
    loader that yields a batch, completes and reports, with the weights
    [w] the model holds, the accuracy (number of samples of the batches
    whose predicted class under [w] in evaluation mode is their label) /
    (dataset size) and the loss (sum over the batches of batch loss ×
    batch length) / (dataset size). *)
Theorem validation_report_is_exact e (s : St) :
  dataset_sizes Val ≠ 0 → dataloaders Val e ≠ [] →
  let w := params (model s) in
  let acc :=
    (Qofnat (sum_list (map (batch_corrects' false w) (dataloaders Val e)))
     / Qofnat (dataset_sizes Val))%Q in
  ∃ s' loss,
    phase_body' e Val s = (Ok tt, s')
    ∧ (loss == Qsum (map (batch_weighted_loss' false w) (dataloaders Val e))
               / Qofnat (dataset_sizes Val))%Q
    ∧ EvReport Val e loss acc w ∈ log s'
    ∧ val_reports (log s') = val_reports (log s) ++ [(e, acc, w)].
Proof.
  intros Hsz Hbs. apply Nat.eqb_neq in Hsz.
  pose proof (val_reports_batches Val e (lr (optimizer s))
                (dataloaders Val e)) as Hvb.
  unfold phase_body; exec. rewrite Hsz.
  match goal with
  | |- context [for_each ?bs (batch_body _ _ _ _ _ ?p ?k) ?t] =>
      pose proof (val_batches_exact k bs t) as Hex;
      destruct (batches_run p k bs t) as (s1 & Hrun & Hpost);
      rewrite Hrun in Hex |- *; cbv zeta in Hex; cbn [snd] in Hex
  end.
  exec_cbn. exec_cbn in Hex. destruct Hex as [Hc Hl].
  post_destruct Hpost. destruct (Hv eq_refl) as (Hp & _).
  destruct (dataloaders Val e) as [|b bs] eqn:Ebs; [done|].
  rewrite Hc. cbn [count_add_tensor Nat.add]. exec_cbn. rewrite Hp.
  set (acc := (Qofnat _ / Qofnat _)%Q).
  set (loss := (running_loss (locals s1) / Qofnat _)%Q).
  assert (Hloss : (loss == Qsum (map (batch_weighted_loss' false
                                       (params (model s))) (b :: bs))
                           / Qofnat (dataset_sizes Val))%Q).
  { subst loss. by rewrite Hl, Qplus_0_l. }
  destruct (Qltb (best_acc (locals s1)) acc); exec_cbn.
  all: eexists _, loss; split; [reflexivity|]; exec_cbn.
  all: split; [exact Hloss|].
  all: rewrite ?val_reports_app, Hl0, ?val_reports_app, Hvb;
       cbn [val_reports omap val_report app]; rewrite ?app_nil_r.
  all: split; [|done].
  all: rewrite ?elem_of_app, !list_elem_of_singleton; auto.
Qed.

(** X18: with the forward pass taken as a function of the weights,
    whatever its outcome, the training phase of an epoch leaves the weights
    and the buffers of the optimiser obtained by going through the batches
    in order, each batch giving one update that uses the gradient of that
    batch alone, computed from cleared gradients on the weights left by the
    previous batch, at the learning rate the phase started with. *)
Theorem training_phase_updates_per_batch e (s : St) :
  let s' := (phase_body forward argmax criterion backward sgd_step
               dataloaders dataset_sizes e Train s).2 in
  (params (model s'), momentum_buf (optimizer s')) =
  fold_left (train_batch_update backward sgd_step (lr (optimizer s)))
    (dataloaders Train e)
    (params (model s), momentum_buf (optimizer s)).
Proof.
  unfold phase_body; exec.
  match goal with
  | |- context [for_each ?bs (batch_body _ _ _ _ _ ?p ?k) ?t] =>
      pose proof (train_batches_exact k bs t) as Hex;
      destruct (batches_run p k bs t) as (s1 & Hrun & Hpost);
      rewrite Hrun in Hex |- *; cbv zeta in Hex; cbn [snd] in Hex
  end.
  exec_cbn. exec_cbn in Hex. rewrite <- Hex.
  phase_cases; done.
Qed.

(** ** The reported loss as a weighted mean *)

Local Abbreviation phase_losses' :=
  (phase_losses forward criterion backward sgd_step).

Lemma batch_exact ph e b (s : St) :
  ∃ s', batch_body' ph e b s = (Ok tt, s')
    ∧ training (model s') = training (model s)
    ∧ lr (optimizer s') = lr (optimizer s)
    ∧ (params (model s'), momentum_buf (optimizer s')) =
      (if is_train ph
       then train_batch_update' (lr (optimizer s))
              (params (model s), momentum_buf (optimizer s)) b
       else (params (model s), momentum_buf (optimizer s)))
    ∧ running_loss (locals s') =
      (running_loss (locals s)
       + criterion (forward (training (model s)) (params (model s))
                      (map fst b)) (map snd b)
         * Qofnat (length (map fst b)))%Q.
Proof.
  destruct ph; (eexists; split; [unfold batch_body; exec; reflexivity|]);
    exec_cbn; split_and!; try done.
  unfold train_batch_update. cbn [fst snd]. by destruct (sgd_step _ _ _ _).
Qed.

Lemma phase_batches_exact ph e bs (s : St) :
  training (model s) = is_train ph →
  (running_loss (locals (for_each bs (batch_body' ph e) s).2) ==
   running_loss (locals s)
   + weighted_sum (phase_losses' ph (lr (optimizer s))
                     (params (model s), momentum_buf (optimizer s)) bs))%Q.
Proof.
  revert s. induction bs as [|b bs IH]; intros s Ht.
  - cbn. by rewrite Qplus_0_r.
  - destruct (batch_exact ph e b s) as (s1 & Hb & Ht1 & Hr & Hu & Hl).
    cbn [for_each]. unfold bind. rewrite Hb.
    rewrite (IH s1) by congruence. rewrite Hl, Hr, Hu, Ht.
    cbn [phase_losses fst snd]. unfold weighted_sum.
    cbn [map Qsum fold_right fst snd]. by rewrite Qplus_assoc.
Qed.

Lemma phase_losses_lengths ph rate wb (bs : list (list (Input * nat))) :
  sum_list (map snd (phase_losses' ph rate wb bs)) = length (concat bs).
Proof.
  revert wb. induction bs as [|b bs IH]; intros wb; [done|].
  cbn [phase_losses map snd sum_list sum_list_with concat].
  fold (sum_list (map snd (phase_losses' ph rate
          (if is_train ph then train_batch_update' rate wb b else wb) bs))).
  by rewrite IH, length_app, length_map.
Qed.

Lemma weighted_sum_between lo hi (l : list (Q * nat)) :
  (∀ x, x ∈ l → (lo <= x.1)%Q ∧ (x.1 <= hi)%Q) →
  (lo * Qofnat (sum_list (map snd l)) <= weighted_sum l)%Q
  ∧ (weighted_sum l <= hi * Qofnat (sum_list (map snd l)))%Q.
Proof.
  induction l as [|[x k] l IH]; intros H.
  - cbn. change (Qofnat 0) with 0%Q. rewrite !Qmult_0_r. split; apply Qle_refl.
  - destruct IH as [IH1 IH2].
    { intros y Hy. apply H. by right. }
    destruct (H (x, k) ltac:(by left)) as [Hlo Hhi]. cbn [fst] in Hlo, Hhi.
    pose proof (Qofnat_nonneg k) as Hk.
    unfold weighted_sum in *. cbn [map Qsum fold_right fst snd sum_list
      sum_list_with].
    fold (sum_list (map snd l)).
    rewrite Qofnat_plus, !Qmult_plus_distr_r.
    split; (apply Qplus_le_compat; [by apply Qmult_le_compat_r|done]).
Qed.

(** X10: with the forward pass taken as a function of the weights, a phase
    over a subset that holds a sample, with a loader that yields a batch,
    reports as its loss the sum of the batch losses it computed, each
    weighted by the length of its batch, divided by the dataset size; when
    the batches hold as many samples as the dataset size says and every
    batch loss computed in the phase lies between [lo] and [hi], so does
    the loss reported. *)
Theorem epoch_loss_is_weighted_mean e ph (s : St) :
  dataset_sizes ph ≠ 0 → dataloaders ph e ≠ [] →
  let losses :=
    phase_losses forward criterion backward sgd_step ph (lr (optimizer s))
      (params (model s), momentum_buf (optimizer s)) (dataloaders ph e) in
  let s' := (phase_body forward argmax criterion backward sgd_step
               dataloaders dataset_sizes e ph s).2 in
  ∃ loss acc w evs,
    log s' = log s ++ evs
    ∧ EvReport ph e loss acc w ∈ evs
    ∧ (loss == weighted_sum losses / Qofnat (dataset_sizes ph))%Q
    ∧ (length (concat (dataloaders ph e)) = dataset_sizes ph →
       ∀ lo hi, (∀ x, x ∈ losses → (lo <= x.1)%Q ∧ (x.1 <= hi)%Q) →
                (lo <= loss)%Q ∧ (loss <= hi)%Q).
Proof.
  intros Hsz Hbs. cbv zeta.
  pose proof (Qofnat_pos _ Hsz) as Hpos. apply Nat.eqb_neq in Hsz.
  unfold phase_body; exec. rewrite Hsz.
  match goal with
  | |- context [for_each ?bs (batch_body _ _ _ _ _ ?p ?k) ?t] =>
      pose proof (phase_batches_exact p k bs t eq_refl) as Hex;
      destruct (batches_run p k bs t) as (s1 & Hrun & Hpost);
      rewrite Hrun in Hex |- *; cbn [snd] in Hex
  end.
  exec_cbn. exec_cbn in Hex. rewrite Qplus_0_l in Hex.
  set (losses := phase_losses' ph _ _ _) in *.
  assert (Hbound : ∀ loss, (loss == weighted_sum losses
                                    / Qofnat (dataset_sizes ph))%Q →
    length (concat (dataloaders ph e)) = dataset_sizes ph →
    ∀ lo hi, (∀ x, x ∈ losses → (lo <= x.1)%Q ∧ (x.1 <= hi)%Q) →
             (lo <= loss)%Q ∧ (loss <= hi)%Q).
  { intros loss Hloss Hlen lo hi Hall.
    destruct (weighted_sum_between lo hi losses Hall) as [H1 H2].
    subst losses. rewrite phase_losses_lengths, Hlen in H1, H2.
    rewrite Hloss. split;
      [by apply Qle_shift_div_l|by apply Qle_shift_div_r]. }
  post_destruct Hpost. destruct Hc as (c & _ & Hrc).
  destruct (dataloaders ph e) as [|b bs] eqn:Ebs; [done|].
  assert (Hrc' : ∃ c', running_corrects (locals s1) = PyTensor c').
  { rewrite Hrc. eexists. reflexivity. }
  destruct Hrc' as [c' Hrc']. clear Hrc.
  set (loss := (running_loss (locals s1) / Qofnat (dataset_sizes ph))%Q).
  assert (Hloss : (loss == weighted_sum losses
                           / Qofnat (dataset_sizes ph))%Q)
    by (subst loss; by rewrite Hex).
  destruct ph; exec_cbn; rewrite Hrc'; exec_cbn; phase_cases.
  all: eexists loss, _, _, _; split;
    [rewrite Hl, <- ?app_assoc; reflexivity|].
  all: split; [|split; [exact Hloss|by apply Hbound]].
  all: rewrite !elem_of_app, ?elem_of_cons; auto 10.
Qed.

End TrainModelFacts.

(** * Properties of the script *)

(** ** Dataset split *)

Lemma py_int_nonneg (x : Q) : (0 <= x)%Q → py_int x = Qfloor x.
Proof.
  destruct x as [a b]. unfold Qle, py_int, Qfloor; simpl.
  intros H. apply Z.quot_div_nonneg; lia.
Qed.

Lemma train_size_floor n :
  train_size n = Z.to_nat (Qfloor ((8 # 10) * Qofnat n)).
Proof.
  unfold train_size. rewrite py_int_nonneg; [done|].
  apply Qmult_le_0_compat; [done|]. unfold Qofnat, Qle; simpl. lia.
Qed.

Lemma train_size_div n : train_size n = 4 * n / 5.
Proof.
  rewrite train_size_floor. unfold Qfloor, Qofnat, Qmult, inject_Z.
  cbn [Qnum Qden].
  change (Z.pos (10 * 1)) with (2 * 5)%Z.
  replace (8 * Z.of_nat n)%Z with (2 * Z.of_nat (4 * n))%Z by lia.
  rewrite Z.div_mul_cancel_l by lia.
  change 5%Z with (Z.of_nat 5). rewrite <- Nat2Z.inj_div.
  apply Nat2Z.id.
Qed.

Lemma train_size_le n : train_size n ≤ n.
Proof.
  rewrite train_size_div. pose proof (Nat.div_mod_eq (4 * n) 5). lia.
Qed.

(** *** Double precision *)

Lemma round53_small n : (0 <= n < 2 ^ 53)%Z → round53 n = (n, 0%Z).
Proof.
  intros Hn. unfold round53.
  assert (Hs : Z.max 0 (Z.log2 n + 1 - 53) = 0%Z).
  { destruct (decide (n = 0%Z)) as [->|Hne]; [done|].
    assert (Z.log2 n < 53)%Z by (apply Z.log2_lt_pow2; lia). lia. }
  rewrite Hs. simpl. by rewrite Z.div_1_r.
Qed.

(** Below 2^50 samples, rounding the product [0.8 * n] to a double never
    carries it across an integer: truncation gives floor(4n/5). *)
Lemma train_size_double_div n :
  (Z.of_nat n < 2 ^ 50)%Z → train_size_double n = 4 * n / 5.
Proof.
  intros Hn. unfold train_size_double, double_of_Z.
  rewrite round53_small by lia.
  unfold double_mul, double_0_8. cbn [fst snd].
  set (M := (7205759403792794 * Z.of_nat n)%Z).
  destruct (decide (n = 0)) as [->|Hn0]; [done|].
  unfold round53.
  assert (HM : (2 ^ 52 <= M < 2 ^ 103)%Z) by (subst M; lia).
  assert (Hlog : (52 <= Z.log2 M < 103)%Z).
  { split; [apply Z.log2_le_pow2; lia|apply Z.log2_lt_pow2; lia]. }
  set (s := Z.max 0 (Z.log2 M + 1 - 53)).
  assert (Hs : (0 <= s <= 50)%Z) by lia.
  set (A := (2 ^ s)%Z). set (q := (M / A)%Z). set (r := (M mod A)%Z).
  set (half := (2 ^ (s - 1))%Z).
  set (up := (0 <? s)%Z && ((half <? r)%Z || ((r =? half)%Z && Z.odd q))).
  cbn [fst snd]. unfold double_to_int. cbn [fst snd].
  replace (s + -53 + 0)%Z with (s - 53)%Z by lia.
  destruct (Z.leb_spec 0 (s - 53)) as [?|_]; [lia|].
  replace (- (s - 53))%Z with (53 - s)%Z by lia.
  set (B := (2 ^ (53 - s))%Z).
  assert (HA : (0 < A <= 2 ^ 50)%Z).
  { subst A. split; [apply Z.pow_pos_nonneg; lia|].
    apply Z.pow_le_mono_r; lia. }
  assert (HB : (0 < B)%Z) by (subst B; apply Z.pow_pos_nonneg; lia).
  assert (HAB : (A * B = 2 ^ 53)%Z).
  { subst A B. rewrite <- Z.pow_add_r by lia. f_equal. lia. }
  assert (Hqr : (M = A * q + r ∧ 0 <= r < A)%Z).
  { subst q r. split; [apply Z.div_mod; lia|apply Z.mod_pos_bound; lia]. }
  destruct Hqr as [Hq Hr].
  pose proof (Nat.div_mod_eq (4 * n) 5) as Hdm.
  pose proof (Nat.mod_upper_bound (4 * n) 5 ltac:(lia)) as Hmod.
  set (t := 4 * n / 5) in *.
  apply Nat2Z.inj. rewrite Z2Nat.id by (apply Z.div_pos; [destruct up|]; lia).
  symmetry. apply Z.div_unique with
    (r := ((if up then q + 1 else q) - Z.of_nat t * B)%Z); [|lia].
  left.
  assert (Hlow : (Z.of_nat t * B <= q)%Z).
  { subst q. apply Z.div_le_lower_bound; [lia|].
    replace (A * (Z.of_nat t * B))%Z with (Z.of_nat t * (A * B))%Z by lia.
    rewrite HAB. subst M. lia. }
  assert (Hhigh : (q < (Z.of_nat t + 1) * B)%Z).
  { subst q. apply Z.div_lt_upper_bound; [lia|].
    replace (A * ((Z.of_nat t + 1) * B))%Z
      with ((Z.of_nat t + 1) * (A * B))%Z by lia.
    rewrite HAB. subst M. lia. }
  destruct up eqn:Hup; [|lia].
  split; [lia|].
  subst up. apply andb_true_iff in Hup as [Hs0 Hup]. apply Z.ltb_lt in Hs0.
  assert (Hhalf : (A = 2 * half ∧ half <= r)%Z).
  { split.
    - subst A half. rewrite <- Z.pow_succ_r by lia. f_equal. lia.
    - apply orb_true_iff in Hup as [H|H].
      + apply Z.ltb_lt in H. lia.
      + apply andb_true_iff in H as [H _]. apply Z.eqb_eq in H. lia. }
  destruct Hhalf as [HA2 Hhr].
  destruct (Z.lt_ge_cases (q + 1) ((Z.of_nat t + 1) * B)) as [|Hge]; [lia|].
  exfalso.
  assert (H1 : (A * ((Z.of_nat t + 1) * B - 1) <= A * q)%Z)
    by (apply Z.mul_le_mono_nonneg_l; lia).
  replace (A * ((Z.of_nat t + 1) * B - 1))%Z
    with ((Z.of_nat t + 1) * (A * B) - A)%Z in H1 by lia.
  rewrite HAB in H1. subst M. lia.
Qed.

Lemma train_size_double_exact n :
  (Z.of_nat n < 2 ^ 50)%Z → train_size_double n = train_size n.
Proof. intros Hn. by rewrite train_size_div, train_size_double_div. Qed.

(** On the sample lengths, the rounded product is the one computed by the
    binary64 multiplication of the standard library. *)
Lemma double_mul_agrees_with_binary64 :
  forallb (λ n, SFeqb (binary64_mul_0_8 n)
                  (binary64_of_dyadic (double_mul double_0_8 (double_of_Z n))))
    sample_lengths = true.
Proof. by vm_compute. Qed.

(** *** Split *)

Lemma split_two (indices : list nat) a b :
  length indices = a + b →
  random_split indices [a; b] = [firstn a indices; skipn a indices].
Proof.
  intros Hlen. simpl. do 2 f_equal.
  apply firstn_all2. rewrite length_skipn. lia.
Qed.

Lemma random_split_partition (n : nat) (perm : list nat) :
  Permutation perm (seq 0 n) →
  ∃ tr va,
    random_split perm [train_size n; val_size n] = [tr; va]
    ∧ length tr = train_size n
    ∧ length va = val_size n
    ∧ (∀ i, i ∈ tr → i ∈ va → False)
    ∧ Permutation (tr ++ va) (seq 0 n).
Proof.
  intros Hperm. pose proof (train_size_le n) as Hle.
  assert (Hlen : length perm = n).
  { apply Permutation_length in Hperm. by rewrite length_seq in Hperm. }
  exists (firstn (train_size n) perm), (skipn (train_size n) perm).
  split_and!.
  - apply split_two. unfold val_size. lia.
  - rewrite length_firstn. lia.
  - rewrite length_skipn. unfold val_size. lia.
  - assert (Hnd : NoDup (firstn (train_size n) perm ++ skipn (train_size n) perm)).
    { rewrite firstn_skipn. rewrite Hperm. apply NoDup_seq. }
    apply NoDup_app in Hnd as (_ & Hdisj & _).
    intros i Hi Hi'. by apply (Hdisj i).
  - by rewrite firstn_skipn.
Qed.

(** C6: for a dataset of [n] samples split along a permutation of its
    indices, the training size is floor(0.8 × n), the validation size is
    the rest, the two index lists have these sizes, share no index, and
    together hold every index below [n] exactly once; below 2^50 samples
    the training size computed in double precision is the same number. *)
Theorem split_sizes_and_partition (n : nat) (perm : list nat) :
  Permutation perm (seq 0 n) →
  train_size n = Z.to_nat (Qfloor ((8 # 10) * Qofnat n))
  ∧ ((Z.of_nat n < 2 ^ 50)%Z → train_size_double n = train_size n)
  ∧ val_size n = n - train_size n
  ∧ train_size n + val_size n = n
  ∧ ∃ tr va,
      random_split perm [train_size n; val_size n] = [tr; va]
      ∧ length tr = train_size n
      ∧ length va = val_size n
      ∧ (∀ i, i ∈ tr → i ∈ va → False)
      ∧ Permutation (tr ++ va) (seq 0 n).
Proof.
  intros Hperm. pose proof (train_size_le n) as Hle.
  split_and!; [apply train_size_floor|apply train_size_double_exact|done
              |unfold val_size; lia|].
  by apply random_split_partition.
Qed.

(** ** Batching *)

Lemma chunks_fuel_concat {A} fuel bs (l : list A) :
  0 < bs → length l ≤ fuel → concat (chunks_fuel fuel bs l) = l.
Proof.
  intros Hbs. revert l. induction fuel as [|fuel IH]; intros l Hl.
  - destruct l; [done|simpl in Hl; lia].
  - destruct l as [|x l]; [done|].
    cbn [chunks_fuel concat]. rewrite IH.
    + apply firstn_skipn.
    + rewrite length_skipn. simpl in *. lia.
Qed.

Lemma chunks_concat {A} bs (l : list A) : 0 < bs → concat (chunks bs l) = l.
Proof. intros Hbs. by apply chunks_fuel_concat. Qed.

Lemma chunks_nonempty {A} bs (l : list A) : l ≠ [] → chunks bs l ≠ [].
Proof. unfold chunks. by destruct l. Qed.

(** ** The script *)

Section ScriptFacts.

Context {Params Grads OptBuf Input Scores : Type}.
Variable forward : bool -> Params -> list Input -> list Scores.
Variable argmax : Scores -> nat.
Variable criterion : list Scores -> list nat -> Q.
Variable backward : Params -> list Input -> list nat -> option Grads -> Grads.
Variable sgd_step : Q -> Params -> option Grads -> OptBuf -> Params * OptBuf.
Variable perm : list nat.
Variable sampler : Phase -> nat -> nat -> list nat.
Variable getitem : Phase -> nat -> nat -> Input * nat.
Variable total : nat.

Local Abbreviation loaders := (script_dataloaders perm sampler getitem total).
Local Abbreviation sizes := (script_dataset_sizes perm total).

(** The loader draws a permutation of the positions of its subset. *)
Hypothesis sampler_perm : ∀ ph k n, Permutation (sampler ph k n) (seq 0 n).

Lemma sampler_length ph k n : length (sampler ph k n) = n.
Proof.
  rewrite (Permutation_length (sampler_perm ph k n)). apply length_seq.
Qed.

Lemma script_sizes_agree ph k : length (concat (loaders ph k)) = sizes ph.
Proof.
  unfold script_dataloaders, DataLoader, script_dataset_sizes.
  rewrite chunks_concat by (unfold batch_size; lia).
  by rewrite length_map, sampler_length.
Qed.

Lemma script_subset_length :
  Permutation perm (seq 0 total) →
  length (script_subset perm total Train) = train_size total
  ∧ length (script_subset perm total Val) = val_size total.
Proof.
  intros Hperm.
  destruct (random_split_partition total perm Hperm)
    as (tr & va & Hsplit & Htr & Hva & _).
  unfold script_subset. rewrite Hsplit. done.
Qed.

Lemma script_sizes_ok :
  Permutation perm (seq 0 total) → 2 ≤ total → sizes_ok sizes.
Proof.
  intros Hperm Htot. destruct (script_subset_length Hperm) as [Htr Hva].
  pose proof (train_size_div total) as Hdiv.
  pose proof (Nat.div_mod_eq (4 * total) 5) as Hdm.
  pose proof (Nat.mod_upper_bound (4 * total) 5 ltac:(lia)) as Hmod.
  intros [|]; unfold script_dataset_sizes.
  - rewrite Htr. lia.
  - rewrite Hva. unfold val_size. lia.
Qed.

Lemma script_loaders_ok :
  Permutation perm (seq 0 total) → 2 ≤ total → loaders_ok loaders.
Proof.
  intros Hperm Htot ph k Hnil.
  pose proof (script_sizes_ok Hperm Htot ph) as Hsz.
  pose proof (script_sizes_agree ph k) as Hag.
  rewrite Hnil in Hag. simpl in Hag. by symmetry in Hag.
Qed.

(** C8: in a run of the script whose loss function returns no negative
    value, every accuracy reported for a phase lies between 0 and 1, and
    every loss reported is at least 0. *)
Theorem reported_metrics_in_range num_epochs w0 buf0 fs0 :
  (∀ o l, (0 <= criterion o l)%Q) →
  let s := (script_run forward argmax criterion backward sgd_step
              perm sampler getitem total num_epochs w0 buf0 fs0).2 in
  ∀ ev loss acc, ev ∈ log s → metrics ev = Some (loss, acc) →
    (0 <= loss)%Q ∧ (0 <= acc)%Q ∧ (acc <= 1)%Q.
Proof.
  intros Hcrit s ev loss acc Hev Hm.
  assert (Hall : Forall metrics_ok (log s)).
  { subst s. unfold script_run.
    apply train_model_metrics; [done|apply script_sizes_agree|constructor]. }
  rewrite Forall_forall in Hall. specialize (Hall ev Hev).
  unfold metrics_ok in Hall. by rewrite Hm in Hall.
Qed.

End ScriptFacts.

(** ** Edge cases of the split *)

(** X11: the training subset is empty exactly for datasets of at most one
    sample, the validation subset only for the empty dataset; the
    validation size is ceil(n / 5), the training size is at most four times
    the validation size, and both sizes grow with the dataset. *)
Theorem split_sizes_edge_cases (n : nat) :
  (train_size n = 0 ↔ n ≤ 1)
  ∧ (val_size n = 0 ↔ n = 0)
  ∧ val_size n = (n + 4) / 5
  ∧ train_size n ≤ 4 * val_size n
  ∧ ∀ m, n ≤ m → train_size n ≤ train_size m ∧ val_size n ≤ val_size m.
Proof.
  unfold val_size. rewrite train_size_div.
  pose proof (Nat.div_mod_eq (4 * n) 5) as H1.
  pose proof (Nat.mod_upper_bound (4 * n) 5 ltac:(lia)) as H2.
  pose proof (Nat.div_mod_eq (n + 4) 5) as H3.
  pose proof (Nat.mod_upper_bound (n + 4) 5 ltac:(lia)) as H4.
  split_and!; try lia.
  intros m Hm. rewrite train_size_div.
  pose proof (Nat.div_mod_eq (4 * m) 5) as H5.
  pose proof (Nat.mod_upper_bound (4 * m) 5 ltac:(lia)) as H6.
  lia.
Qed.

(** ** Batches *)

Lemma chunks_fuel_length {A} fuel bs (l : list A) :
  0 < bs → length l ≤ fuel →
  length (chunks_fuel fuel bs l) = (length l + bs - 1) / bs.
Proof.
  intros Hbs. revert l. induction fuel as [|fuel IH]; intros l Hl.
  - destruct l; [|simpl in Hl; lia]. simpl.
    symmetry. apply Nat.div_small. lia.
  - destruct l as [|x l].
    { simpl. symmetry. apply Nat.div_small. lia. }
    assert (Hsk : length (skipn bs (x :: l)) ≤ fuel).
    { rewrite length_skipn. simpl in *. lia. }
    cbn [chunks_fuel]. rewrite length_cons, (IH _ Hsk), length_skipn.
    set (len := length (x :: l)). assert (0 < len) by (subst len; simpl; lia).
    destruct (decide (len ≤ bs)) as [Hle|Hgt].
    + replace (len - bs + bs - 1) with (bs - 1) by lia.
      rewrite Nat.div_small by lia.
      apply Nat.div_unique with (r := len - 1); lia.
    + replace (len + bs - 1) with (len - bs + bs - 1 + 1 * bs) by lia.
      rewrite Nat.div_add by lia. lia.
Qed.

Lemma chunks_fuel_lookup {A} fuel bs (l : list A) i :
  0 < bs → length l ≤ fuel → bs * i < length l →
  chunks_fuel fuel bs l !! i = Some (firstn bs (skipn (bs * i) l)).
Proof.
  intros Hbs. revert l i. induction fuel as [|fuel IH]; intros l i Hl Hi.
  - lia.
  - destruct l as [|x l]; [simpl in Hi; lia|].
    cbn [chunks_fuel]. destruct i as [|i].
    + by rewrite Nat.mul_0_r.
    + cbn [lookup list_lookup]. rewrite IH.
      * rewrite skipn_skipn. do 3 f_equal. lia.
      * rewrite length_skipn. simpl in *. lia.
      * rewrite length_skipn. lia.
Qed.

Lemma chunks_fuel_lookup_lt {A} fuel bs (l : list A) i b :
  0 < bs → length l ≤ fuel →
  chunks_fuel fuel bs l !! i = Some b → bs * i < length l.
Proof.
  intros Hbs Hl Hb. apply lookup_lt_Some in Hb.
  rewrite chunks_fuel_length in Hb by done.
  pose proof (Nat.div_mod_eq (length l + bs - 1) bs) as H1.
  pose proof (Nat.mod_upper_bound (length l + bs - 1) bs ltac:(lia)) as H2.
  nia.
Qed.

Lemma map_nth_seq_all {A} (l : list A) d :
  map (λ i, nth i l d) (seq 0 (length l)) = l.
Proof.
  induction l as [|x l IH]; [done|].
  cbn [length seq map nth]. f_equal.
  rewrite <- seq_shift, map_map. exact IH.
Qed.

Section ScriptBatches.

Context {Params Grads OptBuf Input Scores : Type}.
Variable forward : bool -> Params -> list Input -> list Scores.
Variable argmax : Scores -> nat.
Variable criterion : list Scores -> list nat -> Q.
Variable backward : Params -> list Input -> list nat -> option Grads -> Grads.
Variable sgd_step : Q -> Params -> option Grads -> OptBuf -> Params * OptBuf.
Variable perm : list nat.
Variable sampler : Phase -> nat -> nat -> list nat.
Variable getitem : Phase -> nat -> nat -> Input * nat.
Variable total : nat.

Local Abbreviation loaders := (script_dataloaders perm sampler getitem total).
Local Abbreviation sizes := (script_dataset_sizes perm total).

(** The loader draws a permutation of the positions of its subset. *)
Hypothesis sampler_perm : ∀ ph k n, Permutation (sampler ph k n) (seq 0 n).

(** X12: every iteration of a loader of the script yields
    ceil(size / 32) batches; the batch of index [i] holds
    min(32, size - 32 i) samples, so every batch holds at least one sample,
    every batch but the last holds 32, and the last one holds the rest. *)
Theorem batches_hold_32_samples ph k :
  length (loaders ph k) = (sizes ph + 31) / 32
  ∧ ∀ i b, loaders ph k !! i = Some b →
      length b = 32 `min` (sizes ph - 32 * i) ∧ 0 < length b.
Proof.
  unfold script_dataloaders, DataLoader, script_dataset_sizes, chunks.
  set (l := map _ (sampler ph k _)).
  assert (Hlen : length l = length (script_subset perm total ph)).
  { subst l. rewrite length_map.
    rewrite (Permutation_length (sampler_perm ph k _)). apply length_seq. }
  split.
  - rewrite chunks_fuel_length by (unfold batch_size; lia).
    rewrite Hlen. unfold batch_size. f_equal. lia.
  - intros i b Hb.
    assert (H32 : 0 < batch_size) by (unfold batch_size; lia).
    pose proof (chunks_fuel_lookup_lt _ _ _ _ _ H32 (Nat.le_refl _) Hb)
      as Hi.
    rewrite chunks_fuel_lookup in Hb; [|done|done|done].
    injection Hb as <-. rewrite length_firstn, length_skipn, Hlen.
    unfold batch_size in *. lia.
Qed.

Lemma script_fetched_perm ph k :
  Permutation (script_fetched perm sampler total ph k)
    (script_subset perm total ph).
Proof.
  unfold script_fetched. rewrite (sampler_perm ph k _).
  by rewrite map_nth_seq_all.
Qed.

(** X13: one iteration of a loader of the script fetches every sample of
    its subset exactly once: the samples of its batches, in order, are the
    samples read at the indices fetched, and these are a permutation of the
    index list of the subset. *)
Theorem every_sample_once_per_iteration ph k :
  concat (loaders ph k)
  = map (getitem ph k) (script_fetched perm sampler total ph k)
  ∧ Permutation (script_fetched perm sampler total ph k)
      (script_subset perm total ph).
Proof.
  split; [|apply script_fetched_perm].
  unfold script_dataloaders, DataLoader, script_fetched.
  rewrite chunks_concat by (unfold batch_size; lia).
  by rewrite map_map.
Qed.

(** X19: when the split is drawn along a permutation of the indices of the
    dataset, no index fetched by the training loader, at any iteration, is
    ever fetched by the validation loader, and one iteration of each
    together fetch every index of the dataset exactly once. *)
Theorem loaders_share_no_sample k k' :
  Permutation perm (seq 0 total) →
  (∀ i, i ∈ script_fetched perm sampler total Train k →
        i ∈ script_fetched perm sampler total Val k' → False)
  ∧ Permutation (script_fetched perm sampler total Train k
                 ++ script_fetched perm sampler total Val k')
      (seq 0 total).
Proof.
  intros Hperm.
  destruct (random_split_partition total perm Hperm)
    as (tr & va & Hsplit & _ & _ & Hdisj & Hall).
  pose proof (script_fetched_perm Train k) as Htr.
  pose proof (script_fetched_perm Val k') as Hva.
  unfold script_subset in Htr, Hva. rewrite Hsplit in Htr, Hva.
  split.
  - intros i Hi Hi'. rewrite Htr in Hi. rewrite Hva in Hi'.
    by apply (Hdisj i).
  - by rewrite Htr, Hva.
Qed.

(** X14: on a dataset of at least two samples, both subsets of the script
    hold a sample and every loader iteration yields a batch, so the call
    made by the script never fails on its metrics: the only exception it
    can raise is the unbound [save_dir] of line 94, and then it has written
    nothing. *)
Theorem script_run_fails_only_on_save_dir num_epochs w0 buf0 fs0 err :
  Permutation perm (seq 0 total) → 2 ≤ total →
  (script_run forward argmax criterion backward sgd_step
     perm sampler getitem total num_epochs w0 buf0 fs0).1 = Raise err →
  err = UnboundLocalError "save_dir"
  ∧ 2 ≤ num_epochs
  ∧ fs (script_run forward argmax criterion backward sgd_step
          perm sampler getitem total num_epochs w0 buf0 fs0).2 = fs0.
Proof.
  intros Hperm Htot Herr. unfold script_run in *.
  pose proof (train_model_failure_mode forward argmax criterion backward
    sgd_step loaders sizes num_epochs (script_state w0 buf0 fs0) err
    (script_sizes_ok perm total Hperm Htot)
    (script_loaders_ok perm sampler getitem total sampler_perm Hperm Htot)
    eq_refl Herr) as (He & Hn & _ & _ & Hfs).
  done.
Qed.

End ScriptBatches.

(** ** Seeding *)

Section SeedingFacts.

Context {PyGen NpGen TorchGen : Type}.
Variable random_seed : Z -> PyGen.
Variable np_random_seed : Z -> NpGen.
Variable torch_manual_seed : Z -> TorchGen.
Variable randperm : TorchGen -> nat -> list nat * TorchGen.
Variable consume : nat -> Rng PyGen NpGen TorchGen -> Rng PyGen NpGen TorchGen.
Variable spawn_worker :
  Rng PyGen NpGen TorchGen -> nat -> Rng PyGen NpGen TorchGen.

Local Abbreviation set_seed' :=
  (set_seed random_seed np_random_seed torch_manual_seed).

(** After [set_seed], nothing is left of the generators the process
    started with. *)
Lemma set_seed_forgets seed (r1 r2 : Rng PyGen NpGen TorchGen) :
  (is_Some (torch_cuda r1) ↔ is_Some (torch_cuda r2)) →
  set_seed' seed r1 = set_seed' seed r2.
Proof.
  intros [H12 H21]. unfold set_seed. f_equal.
  destruct (torch_cuda r1) as [g1|], (torch_cuda r2) as [g2|]; try done.
  - by destruct (H12 ltac:(by eexists)).
  - by destruct (H21 ltac:(by eexists)).
Qed.

Lemma worker_seed_inj i j : worker_seed i = worker_seed j → i = j.
Proof. unfold worker_seed. lia. Qed.

(** C7: two runs of the script on the same machine, whatever generators
    each process starts with, draw the same train/validation index lists
    and give every data-loading worker the same generators, hence the same
    augmentation draws; the numpy generator of worker [i] is seeded with
    42 + [i], and different workers get different seeds. *)
Theorem seeded_runs_agree (ambient1 ambient2 : Rng PyGen NpGen TorchGen)
    (n k worker_id : nat) :
  (is_Some (torch_cuda ambient1) ↔ is_Some (torch_cuda ambient2)) →
  script_split random_seed np_random_seed torch_manual_seed randperm
    ambient1 n =
  script_split random_seed np_random_seed torch_manual_seed randperm
    ambient2 n
  ∧ script_worker_rng random_seed np_random_seed torch_manual_seed
      consume spawn_worker ambient1 k worker_id =
    script_worker_rng random_seed np_random_seed torch_manual_seed
      consume spawn_worker ambient2 k worker_id
  ∧ np_random
      (script_worker_rng random_seed np_random_seed torch_manual_seed
         consume spawn_worker ambient1 k worker_id) =
    np_random_seed (42 + Z.of_nat worker_id)
  ∧ ∀ other, worker_seed other = worker_seed worker_id → other = worker_id.
Proof.
  intros Hcuda. unfold script_split, script_worker_rng.
  rewrite (set_seed_forgets 42 ambient1 ambient2 Hcuda).
  split_and!; try done. intros other. apply worker_seed_inj.
Qed.

End SeedingFacts.

(** ** Composition of the seeding functions *)

Section SeedingExtras.

Context {PyGen NpGen TorchGen : Type}.
Variable random_seed : Z -> PyGen.
Variable np_random_seed : Z -> NpGen.
Variable torch_manual_seed : Z -> TorchGen.

Local Abbreviation set_seed' :=
  (set_seed random_seed np_random_seed torch_manual_seed).
Local Abbreviation worker_init_fn' :=
  (@worker_init_fn PyGen NpGen TorchGen np_random_seed).

(** X15: for seeds that the three libraries accept (from 0 to 2^32 - 1), a
    call of [set_seed] erases an earlier call, whatever its seed, and an
    earlier [worker_init_fn]; it seeds the numpy generator with its seed,
    and the generator of the accelerator when there is one, and creates
    none otherwise; and
    [worker_init_fn] erases an earlier [worker_init_fn], seeds the numpy
    generator with 42 + [i], and keeps what [set_seed] did to the Python
    and torch generators and to the cudnn flags. *)
Theorem last_seeding_wins seed1 seed2 i j (r : Rng PyGen NpGen TorchGen) :
  (0 <= seed1 < 2 ^ 32)%Z → (0 <= seed2 < 2 ^ 32)%Z →
  (worker_seed i < 2 ^ 32)%Z → (worker_seed j < 2 ^ 32)%Z →
  set_seed' seed2 (set_seed' seed1 r) = set_seed' seed2 r
  ∧ set_seed' seed2 (worker_init_fn' i r) = set_seed' seed2 r
  ∧ (∀ g, torch_cuda r = Some g →
          torch_cuda (set_seed' seed1 r) = Some (torch_manual_seed seed1))
  ∧ (torch_cuda r = None → torch_cuda (set_seed' seed1 r) = None)
  ∧ np_random (set_seed' seed1 r) = np_random_seed seed1
  ∧ worker_init_fn' i (worker_init_fn' j r) = worker_init_fn' i r
  ∧ worker_init_fn' i (set_seed' seed1 r) =
    {| py_random := random_seed seed1;
       np_random := np_random_seed (42 + Z.of_nat i);
       torch_cpu := torch_manual_seed seed1;
       torch_cuda := torch_cuda (set_seed' seed1 r);
       cudnn_deterministic := true;
       cudnn_benchmark := false |}.
Proof.
  intros _ _ _ _. unfold set_seed, worker_init_fn, worker_seed; cbn.
  split_and!; try done.
  - by destruct (torch_cuda r).
  - by intros g ->.
  - by intros ->.
Qed.

End SeedingExtras.

(** ** The small instance: evaluations, counterexamples, witnesses *)

Example train_size_500 :
  train_size 500 = 400 ∧ val_size 500 = 100 ∧ train_size_double 500 = 400.
Proof. by vm_compute. Qed.

Example step_lr_values :
  (step_lr 0 == 1 # 1000)%Q ∧ (step_lr 6 == 1 # 1000)%Q
  ∧ (step_lr 7 == 1 # 10000)%Q ∧ (step_lr 24 == 1 # 1000000)%Q.
Proof. by vm_compute. Qed.

(** The doubles of the schedule of the script: 0.001 is
    [0x1.0624dd2f1a9fcp-10], and the rate of the epochs 21 to 24 is
    [0x1.0c6f7a0b5ed8ep-20], one unit in the last place above the double
    nearest to 10^-6. *)
Example chained_lr_values :
  (chained_lr 0 == 0x10624dd2f1a9fc # 2 ^ 62)%Q
  ∧ (chained_lr 3 == 0x10c6f7a0b5ed8e # 2 ^ 72)%Q
  ∧ (nearest_lr 21 == 0x10c6f7a0b5ed8d # 2 ^ 72)%Q
  ∧ (chained_lr 2 == nearest_lr 14)%Q
  ∧ (python_lr 21 == chained_lr 3)%Q.
Proof. by vm_compute. Qed.

(** C4, as written, fails in the run of the script itself, however its
    numbers are read.  Read exactly, the rate of epoch 0 is the double
    0.001, not 1/1000.  Read as the double nearest to 0.001 × 0.1^3, the
    rate of epoch 21 is one unit in the last place above it.  Read as the
    value of [0.001 * 0.1 ** 2], the rate of epoch 14 is one unit in the
    last place below it. *)
Lemma rates_equal_closed_form_fails :
  ¬ rates_equal step_lr (log (Toy.run Toy.always_right 25).2)
  ∧ ¬ rates_equal nearest_lr (log (Toy.run Toy.always_right 25).2)
  ∧ ¬ rates_equal python_lr (log (Toy.run Toy.always_right 25).2).
Proof.
  assert (H0 : EvEpochHeader 0 (chained_lr 0)
               ∈ log (Toy.run Toy.always_right 25).2).
  { apply (list_elem_of_lookup_2 _ 0). by vm_compute. }
  assert (H14 : EvEpochHeader 14 (chained_lr 2)
                ∈ log (Toy.run Toy.always_right 25).2).
  { apply (list_elem_of_lookup_2 _ 190). by vm_compute. }
  assert (H21 : EvEpochHeader 21 (chained_lr 3)
                ∈ log (Toy.run Toy.always_right 25).2).
  { apply (list_elem_of_lookup_2 _ 284). by vm_compute. }
  split_and!; intros H.
  - specialize (H _ 0 _ H0 eq_refl). vm_compute in H. discriminate H.
  - specialize (H _ 21 _ H21 eq_refl). vm_compute in H. discriminate H.
  - specialize (H _ 14 _ H14 eq_refl). vm_compute in H. discriminate H.
Qed.

(** The scenario of the specification: with an improvement in the first
    epoch, 25 epochs leave the twelve periodic checkpoints of the even
    epochs and the "best" file. *)
Example toy_checkpoints_after_25_epochs :
  size (files (fs (Toy.run Toy.always_right 25).2)) = 13
  ∧ epoch_saves (log (Toy.run Toy.always_right 25).2)
    = [2; 4; 6; 8; 10; 12; 14; 16; 18; 20; 22; 24]
  ∧ is_Some (files (fs (Toy.run Toy.always_right 25).2) !! best_path).
Proof. split_and!; [by vm_compute..|]. vm_compute. by eexists. Qed.

Example toy_returns_first_improvement :
  (Toy.run Toy.always_right 3).1 = Ok 1
  ∧ val_reports (log (Toy.run Toy.always_right 3).2)
    = [(0, (2 # 2)%Q, 1); (1, (2 # 2)%Q, 2); (2, (2 # 2)%Q, 3)]
  ∧ best_saves (log (Toy.run Toy.always_right 3).2) = [(0, (2 # 2)%Q, 1)].
Proof. by vm_compute. Qed.

(** C1, as written, fails: with one epoch whose validation accuracy is 0,
    that accuracy exceeds the accuracy of every earlier epoch (there is
    none), and no "best" checkpoint is written. *)
Lemma best_written_on_new_maximum_fails :
  ¬ best_written_on_new_maximum (log (Toy.run Toy.never_right 1).2).
Proof.
  intros H.
  assert (Hvr : val_reports (log (Toy.run Toy.never_right 1).2)
                = [(0, (0 # 2)%Q, 1)]) by by vm_compute.
  assert (Hbs : best_saves (log (Toy.run Toy.never_right 1).2) = [])
    by by vm_compute.
  specialize (H 0 (0, (0 # 2)%Q, 1)). rewrite Hvr, Hbs in H.
  destruct (H eq_refl) as [_ Hin].
  specialize (Hin ltac:(intros j y Hj; lia)). by inversion Hin.
Qed.

Lemma best_checkpoint_tracks_maximum_witness :
  log Toy.state0 = []
  ∧ best_written_on_new_positive_maximum
      (log (Toy.run Toy.always_right 3).2).
Proof.
  split; [reflexivity|].
  exact (proj1 (best_checkpoint_tracks_maximum
                  (Toy.forward Toy.always_right) Toy.argmax Toy.criterion
                  Toy.backward Toy.sgd_step Toy.loaders Toy.sizes
                  3 Toy.state0 eq_refl)).
Defined.

(** C2, as written, fails: with one epoch whose validation accuracy is 0,
    the call returns the weights it was entered with, not those held at
    the only validation report. *)
Lemma returns_weights_of_best_epoch_fails :
  ¬ returns_weights_of_best_epoch (Toy.run Toy.never_right 1).1
      (log (Toy.run Toy.never_right 1).2).
Proof.
  intros (w & x & Hr & Hx & Hw & _).
  assert (Hvr : val_reports (log (Toy.run Toy.never_right 1).2)
                = [(0, (0 # 2)%Q, 1)]) by by vm_compute.
  assert (Hret : (Toy.run Toy.never_right 1).1 = Ok 0) by by vm_compute.
  rewrite Hvr in Hx. rewrite Hret in Hr. injection Hr as <-.
  apply list_elem_of_singleton in Hx as ->. discriminate Hw.
Qed.

Lemma toy_sizes_ok : sizes_ok Toy.sizes.
Proof. intros ph. destruct ph; vm_compute; discriminate. Qed.

Lemma toy_loaders_ok : loaders_ok Toy.loaders.
Proof. intros ph e. destruct ph; vm_compute; discriminate. Qed.

Lemma train_model_returns_best_snapshot_witness :
  returns_first_best_or_initial 0 (Toy.run Toy.always_right 3).1
    (log (Toy.run Toy.always_right 3).2)
  ∧ (Toy.run Toy.always_right 3).1
    = Ok (params (model (Toy.run Toy.always_right 3).2)).
Proof.
  apply (train_model_returns_best_snapshot
           (Toy.forward Toy.always_right) Toy.argmax Toy.criterion
           Toy.backward Toy.sgd_step Toy.loaders Toy.sizes 3 Toy.state0).
  - intros ph. destruct ph; vm_compute; discriminate.
  - intros ph e. destruct ph; vm_compute; discriminate.
  - reflexivity.
  - right. exists (0, (2 # 2)%Q, 1). split; vm_compute; reflexivity.
Defined.

(** C3: with two epochs and a first validation accuracy of 0, the periodic
    save of epoch 2 reads [save_dir] before any assignment to it; the call
    raises, and [model_epoch_2.pth] does not exist afterwards. *)
Theorem periodic_checkpoint_needs_earlier_improvement :
  (Toy.run Toy.never_right 2).1 = Raise (UnboundLocalError "save_dir")
  ∧ files (fs (Toy.run Toy.never_right 2).2)
      !! path_join "work_dir" (model_epoch_name 2) = None
  ∧ val_reports (log (Toy.run Toy.never_right 2).2) = [(0, (0 # 2)%Q, 1)].
Proof. by vm_compute. Qed.

(** C10: with the 25 epochs of the script and no validation accuracy above
    0, the "best" file is never written, as the claim says; but the call
    does not return the model with its original weights: it raises at the
    periodic save of epoch 2, with the model holding trained weights. *)
Theorem no_improvement_run_raises :
  (Toy.run Toy.never_right 25).1 = Raise (UnboundLocalError "save_dir")
  ∧ best_saves (log (Toy.run Toy.never_right 25).2) = []
  ∧ files (fs (Toy.run Toy.never_right 25).2) !! best_path = None
  ∧ params (model Toy.state0) = 0
  ∧ params (model (Toy.run Toy.never_right 25).2) = 2.
Proof. by vm_compute. Qed.

(** C5, as written, fails: in a call of one epoch that returns, the
    schedule is advanced before the validation batch, not after it. *)
Lemma schedule_after_validation_fails :
  ¬ schedule_after_validation (Toy.run Toy.always_right 1).1
      (log (Toy.run Toy.always_right 1).2)
      (λ e, length (Toy.loaders Train e)) (λ e, length (Toy.loaders Val e)) 1.
Proof.
  intros H. specialize (H 1 ltac:(by vm_compute)).
  vm_compute in H. discriminate H.
Qed.

Lemma phases_in_loop_order_witness :
  steps (log (Toy.run Toy.always_right 3).2)
    `prefix_of` run_steps (λ e, length (Toy.loaders Train e))
                  (λ e, length (Toy.loaders Val e)) 3
  ∧ (∀ w, (Toy.run Toy.always_right 3).1 = Ok w →
          steps (log (Toy.run Toy.always_right 3).2)
          = run_steps (λ e, length (Toy.loaders Train e))
              (λ e, length (Toy.loaders Val e)) 3).
Proof.
  apply (phases_in_loop_order
           (Toy.forward Toy.always_right) Toy.argmax Toy.criterion
           Toy.backward Toy.sgd_step Toy.loaders Toy.sizes 3 Toy.state0).
  reflexivity.
Defined.

Lemma split_sizes_and_partition_witness :
  train_size 10 = Z.to_nat (Qfloor ((8 # 10) * Qofnat 10))
  ∧ ((Z.of_nat 10 < 2 ^ 50)%Z → train_size_double 10 = train_size 10)
  ∧ val_size 10 = 10 - train_size 10
  ∧ train_size 10 + val_size 10 = 10
  ∧ ∃ tr va,
      random_split (seq 0 10) [train_size 10; val_size 10] = [tr; va]
      ∧ length tr = train_size 10
      ∧ length va = val_size 10
      ∧ (∀ i, i ∈ tr → i ∈ va → False)
      ∧ Permutation (tr ++ va) (seq 0 10).
Proof.
  exact (split_sizes_and_partition 10 (seq 0 10) (Permutation_refl _)).
Defined.

Lemma seeded_runs_agree_witness :
  script_split Toy.seed_gen Toy.seed_gen Toy.seed_gen Toy.randperm
    Toy.ambient1 10 =
  script_split Toy.seed_gen Toy.seed_gen Toy.seed_gen Toy.randperm
    Toy.ambient2 10
  ∧ script_worker_rng Toy.seed_gen Toy.seed_gen Toy.seed_gen
      Toy.consume Toy.spawn_worker Toy.ambient1 0 3 =
    script_worker_rng Toy.seed_gen Toy.seed_gen Toy.seed_gen
      Toy.consume Toy.spawn_worker Toy.ambient2 0 3
  ∧ np_random
      (script_worker_rng Toy.seed_gen Toy.seed_gen Toy.seed_gen
         Toy.consume Toy.spawn_worker Toy.ambient1 0 3) =
    Toy.seed_gen (42 + Z.of_nat 3)
  ∧ ∀ other, worker_seed other = worker_seed 3 → other = 3.
Proof.
  apply (seeded_runs_agree Toy.seed_gen Toy.seed_gen Toy.seed_gen
           Toy.randperm Toy.consume Toy.spawn_worker
           Toy.ambient1 Toy.ambient2 10 0 3).
  simpl. reflexivity.
Defined.

Lemma reported_metrics_in_range_witness :
  EvReport Val 0 (2 # 2)%Q (2 # 2)%Q 1
    ∈ log (script_run (Toy.forward Toy.always_right) Toy.argmax
             Toy.criterion Toy.backward Toy.sgd_step (seq 0 10)
             Toy.sampler Toy.getitem 10 3 0 tt Toy.fs0).2
  ∧ (0 <= 2 # 2)%Q ∧ (0 <= 2 # 2)%Q ∧ (2 # 2 <= 1)%Q.
Proof.
  assert (Hin : EvReport Val 0 (2 # 2)%Q (2 # 2)%Q 1
    ∈ log (script_run (Toy.forward Toy.always_right) Toy.argmax
             Toy.criterion Toy.backward Toy.sgd_step (seq 0 10)
             Toy.sampler Toy.getitem 10 3 0 tt Toy.fs0).2).
  { apply (list_elem_of_lookup_2 _ 11). vm_compute. reflexivity. }
  split; [exact Hin|].
  refine (reported_metrics_in_range
            (Toy.forward Toy.always_right) Toy.argmax Toy.criterion
            Toy.backward Toy.sgd_step (seq 0 10) Toy.sampler Toy.getitem 10
            _ 3 0 tt Toy.fs0 _ (EvReport Val 0 (2 # 2)%Q (2 # 2)%Q 1) (2 # 2)%Q (2 # 2)%Q Hin eq_refl).
  - intros ph k n. reflexivity.
  - intros o l. vm_compute. discriminate.
Defined.

(** ** The small instance: the state left by a call, and its failures *)

Lemma empty_subset_raises_zero_division_witness :
  (train_model (Toy.forward Toy.always_right) Toy.argmax Toy.criterion
     Toy.backward Toy.sgd_step Edge.loaders_no_train Edge.sizes_no_train 3
     Toy.state0).1 = Raise ZeroDivisionError
  ∧ fs (train_model (Toy.forward Toy.always_right) Toy.argmax Toy.criterion
          Toy.backward Toy.sgd_step Edge.loaders_no_train Edge.sizes_no_train 3
          Toy.state0).2 = fs Toy.state0.
Proof.
  apply (empty_subset_raises_zero_division
           (Toy.forward Toy.always_right) Toy.argmax Toy.criterion
           Toy.backward Toy.sgd_step Edge.loaders_no_train Edge.sizes_no_train
           3 Toy.state0 Train).
  - lia.
  - reflexivity.
  - intros H. discriminate H.
Defined.

Lemma no_batch_raises_attribute_error_witness :
  (train_model (Toy.forward Toy.always_right) Toy.argmax Toy.criterion
     Toy.backward Toy.sgd_step Edge.loaders_no_train Toy.sizes 3
     Toy.state0).1 = Raise (AttributeError "double")
  ∧ fs (train_model (Toy.forward Toy.always_right) Toy.argmax Toy.criterion
          Toy.backward Toy.sgd_step Edge.loaders_no_train Toy.sizes 3
          Toy.state0).2 = fs Toy.state0.
Proof.
  apply (no_batch_raises_attribute_error
           (Toy.forward Toy.always_right) Toy.argmax Toy.criterion
           Toy.backward Toy.sgd_step Edge.loaders_no_train Toy.sizes
           3 Toy.state0 Train).
  - lia.
  - reflexivity.
  - vm_compute. discriminate.
  - intros H. discriminate H.
Defined.

Lemma train_model_returns_exactly_when_witness :
  (∃ w, (Toy.run Toy.always_right 3).1 = Ok w)
  ↔ (3 ≤ 1 ∨ ∃ x, val_reports (log (Toy.run Toy.always_right 3).2) !! 0
                    = Some x ∧ (0 < rep_acc x)%Q).
Proof.
  apply (train_model_returns_exactly_when
           (Toy.forward Toy.always_right) Toy.argmax Toy.criterion
           Toy.backward Toy.sgd_step Toy.loaders Toy.sizes 3 Toy.state0).
  - intros ph. destruct ph; vm_compute; discriminate.
  - intros ph e. destruct ph; vm_compute; discriminate.
  - reflexivity.
Defined.

Lemma failed_call_wrote_nothing_witness :
  UnboundLocalError "save_dir" = UnboundLocalError "save_dir"
  ∧ 2 ≤ 2
  ∧ (∃ x, val_reports (log (Toy.run Toy.never_right 2).2) = [x]
          ∧ rep_epoch x = 0 ∧ (rep_acc x <= 0)%Q)
  ∧ best_saves (log (Toy.run Toy.never_right 2).2) = []
  ∧ fs (Toy.run Toy.never_right 2).2 = fs Toy.state0.
Proof.
  apply (failed_call_wrote_nothing
           (Toy.forward Toy.never_right) Toy.argmax Toy.criterion
           Toy.backward Toy.sgd_step Toy.loaders Toy.sizes 2 Toy.state0
           (UnboundLocalError "save_dir")).
  - intros ph. destruct ph; vm_compute; discriminate.
  - intros ph e. destruct ph; vm_compute; discriminate.
  - reflexivity.
  - vm_compute. reflexivity.
Defined.

Lemma only_checkpoint_files_touched_witness :
  (∀ p, p ≠ best_path →
        (∀ N, 0 < N ≤ 4 → N mod 2 = 0 → p ≠ epoch_path N) →
        files (fs (Toy.run Toy.always_right 4).2) !! p
        = files (fs Toy.state0) !! p)
  ∧ dirs (fs Toy.state0) ⊆ dirs (fs (Toy.run Toy.always_right 4).2)
  ∧ (∀ d, d ∈ dirs (fs (Toy.run Toy.always_right 4).2) →
          d = "work_dir" ∨ d ∈ dirs (fs Toy.state0)).
Proof.
  apply (only_checkpoint_files_touched
           (Toy.forward Toy.always_right) Toy.argmax Toy.criterion
           Toy.backward Toy.sgd_step Toy.loaders Toy.sizes 4 Toy.state0).
  reflexivity.
Defined.

Lemma periodic_checkpoints_after_return_witness :
  (∀ N, is_Some (files (fs (Toy.run Toy.always_right 4).2) !! epoch_path N)
        ↔ 0 < N ≤ 4 ∧ N mod 2 = 0)
  ∧ (∀ N v, files (fs (Toy.run Toy.always_right 4).2) !! epoch_path N
            = Some v →
       ∃ x, val_reports (log (Toy.run Toy.always_right 4).2) !! (N - 1)
            = Some x
            ∧ rep_epoch x = N - 1 ∧ rep_wts x = v).
Proof.
  apply (periodic_checkpoints_after_return
           (Toy.forward Toy.always_right) Toy.argmax Toy.criterion
           Toy.backward Toy.sgd_step Toy.loaders Toy.sizes 4 Toy.state0 1).
  - reflexivity.
  - intros N. reflexivity.
  - vm_compute. reflexivity.
Defined.

Lemma returned_weights_are_best_file_witness :
  (∃ x, last (best_saves (log (Toy.run Toy.always_right 3).2)) = Some x
        ∧ rep_wts x = 1
        ∧ files (fs (Toy.run Toy.always_right 3).2) !! best_path = Some 1
        ∧ "work_dir" ∈ dirs (fs (Toy.run Toy.always_right 3).2))
  ∨ (best_saves (log (Toy.run Toy.always_right 3).2) = []
     ∧ 1 = params (model Toy.state0)
     ∧ fs (Toy.run Toy.always_right 3).2 = fs Toy.state0).
Proof.
  apply (returned_weights_are_best_file
           (Toy.forward Toy.always_right) Toy.argmax Toy.criterion
           Toy.backward Toy.sgd_step Toy.loaders Toy.sizes 3 Toy.state0 1).
  - reflexivity.
  - vm_compute. reflexivity.
Defined.

Lemma schedule_state_after_return_witness :
  last_epoch (scheduler (Toy.run Toy.always_right 25).2) = 25
  ∧ lr (optimizer (Toy.run Toy.always_right 25).2) = chained_lr (25 / 7)
  ∧ (25 < 2107 →
     close_to (step_lr 25) (lr (optimizer (Toy.run Toy.always_right 25).2)))
  ∧ step_size (scheduler (Toy.run Toy.always_right 25).2) = 7
  ∧ gamma (scheduler (Toy.run Toy.always_right 25).2) = float_0_1.
Proof.
  apply (schedule_state_after_return
           (Toy.forward Toy.always_right) Toy.argmax Toy.criterion
           Toy.backward Toy.sgd_step Toy.loaders Toy.sizes 25 0 tt Toy.fs0 1).
  vm_compute. reflexivity.
Defined.

Lemma model_state_after_return_witness :
  params (model (Toy.run Toy.always_right 3).2) = 1
  ∧ (1 ≤ 3 → training (model (Toy.run Toy.always_right 3).2) = false
             ∧ grad (model (Toy.run Toy.always_right 3).2) = None)
  ∧ (3 = 0 → 1 = params (model Toy.state0)
             ∧ model (Toy.run Toy.always_right 3).2 = model Toy.state0
             ∧ optimizer (Toy.run Toy.always_right 3).2
               = optimizer Toy.state0
             ∧ scheduler (Toy.run Toy.always_right 3).2
               = scheduler Toy.state0
             ∧ fs (Toy.run Toy.always_right 3).2 = fs Toy.state0
             ∧ log (Toy.run Toy.always_right 3).2
               = log Toy.state0 ++ [EvTrainingComplete; EvBestAcc 0]).
Proof.
  apply (model_state_after_return
           (Toy.forward Toy.always_right) Toy.argmax Toy.criterion
           Toy.backward Toy.sgd_step Toy.loaders Toy.sizes 3 Toy.state0 1).
  vm_compute. reflexivity.
Defined.

(** A call with no epoch prints the two closing lines and nothing else. *)
Example toy_no_epoch :
  (Toy.run Toy.always_right 0).1 = Ok 0
  ∧ log (Toy.run Toy.always_right 0).2 = [EvTrainingComplete; EvBestAcc 0].
Proof. by vm_compute. Qed.

Lemma checkpoint_paths_distinct_witness :
  epoch_path 2 ≠ epoch_path 4 ∧ epoch_path 2 ≠ best_path.
Proof. apply (checkpoint_paths_distinct 2 4). lia. Defined.

(** A hundred samples: eighty for training, in batches of 32, 32 and 16. *)
Lemma batches_hold_32_samples_witness :
  length (script_dataloaders (seq 0 100) Toy.sampler Toy.getitem 100 Train 0)
  = (script_dataset_sizes (seq 0 100) 100 Train + 31) / 32
  ∧ ∀ i b,
      script_dataloaders (seq 0 100) Toy.sampler Toy.getitem 100 Train 0 !! i
      = Some b →
      length b = 32 `min` (script_dataset_sizes (seq 0 100) 100 Train - 32 * i)
      ∧ 0 < length b.
Proof.
  apply (batches_hold_32_samples (seq 0 100) Toy.sampler Toy.getitem 100).
  intros ph k n. reflexivity.
Defined.

Example toy_batches_of_100 :
  map length (script_dataloaders (seq 0 100) Toy.sampler Toy.getitem 100
                Train 0) = [32; 32; 16]
  ∧ map length (script_dataloaders (seq 0 100) Toy.sampler Toy.getitem 100
                  Val 0) = [20].
Proof. by vm_compute. Qed.

Lemma every_sample_once_per_iteration_witness :
  concat (script_dataloaders (seq 0 100) Toy.sampler Toy.getitem 100 Val 0)
  = map (Toy.getitem Val 0) (script_fetched (seq 0 100) Toy.sampler 100 Val 0)
  ∧ Permutation (script_fetched (seq 0 100) Toy.sampler 100 Val 0)
      (script_subset (seq 0 100) 100 Val).
Proof.
  apply (every_sample_once_per_iteration
           (seq 0 100) Toy.sampler Toy.getitem 100).
  intros ph k n. reflexivity.
Defined.

Lemma loaders_share_no_sample_witness :
  (∀ i, i ∈ script_fetched (seq 0 100) Toy.sampler 100 Train 0 →
        i ∈ script_fetched (seq 0 100) Toy.sampler 100 Val 3 → False)
  ∧ Permutation (script_fetched (seq 0 100) Toy.sampler 100 Train 0
                 ++ script_fetched (seq 0 100) Toy.sampler 100 Val 3)
      (seq 0 100).
Proof.
  apply (loaders_share_no_sample (seq 0 100) Toy.sampler 100).
  - intros ph k n. reflexivity.
  - reflexivity.
Defined.

Lemma epoch_loss_is_weighted_mean_witness :
  let losses :=
    phase_losses (Toy.forward Toy.always_right) Toy.criterion Toy.backward
      Toy.sgd_step Train (lr (optimizer Toy.state0))
      (params (model Toy.state0), momentum_buf (optimizer Toy.state0))
      (Toy.loaders Train 0) in
  let s' := (phase_body (Toy.forward Toy.always_right) Toy.argmax
               Toy.criterion Toy.backward Toy.sgd_step Toy.loaders Toy.sizes
               0 Train Toy.state0).2 in
  ∃ loss acc w evs,
    log s' = log Toy.state0 ++ evs
    ∧ EvReport Train 0 loss acc w ∈ evs
    ∧ (loss == weighted_sum losses / Qofnat (Toy.sizes Train))%Q
    ∧ (length (concat (Toy.loaders Train 0)) = Toy.sizes Train →
       ∀ lo hi, (∀ x, x ∈ losses → (lo <= x.1)%Q ∧ (x.1 <= hi)%Q) →
                (lo <= loss)%Q ∧ (loss <= hi)%Q).
Proof.
  apply (epoch_loss_is_weighted_mean
           (Toy.forward Toy.always_right) Toy.argmax Toy.criterion
           Toy.backward Toy.sgd_step Toy.loaders Toy.sizes 0 Train
           Toy.state0).
  - vm_compute. discriminate.
  - vm_compute. discriminate.
Defined.

Lemma script_run_fails_only_on_save_dir_witness :
  UnboundLocalError "save_dir" = UnboundLocalError "save_dir"
  ∧ 2 ≤ 2
  ∧ fs (script_run (Toy.forward Toy.never_right) Toy.argmax Toy.criterion
          Toy.backward Toy.sgd_step (seq 0 10) Toy.sampler Toy.getitem 10
          2 0 tt Toy.fs0).2 = Toy.fs0.
Proof.
  refine (script_run_fails_only_on_save_dir
            (Toy.forward Toy.never_right) Toy.argmax Toy.criterion
            Toy.backward Toy.sgd_step (seq 0 10) Toy.sampler Toy.getitem 10
            _ 2 0 tt Toy.fs0 (UnboundLocalError "save_dir") _ _ _).
  - intros ph k n. reflexivity.
  - reflexivity.
  - lia.
  - vm_compute. reflexivity.
Defined.

Lemma validation_report_is_exact_witness :
  let w := params (model Toy.state0) in
  let acc :=
    (Qofnat (sum_list (map (batch_corrects (Toy.forward Toy.always_right)
                              Toy.argmax false w) (Toy.loaders Val 0)))
     / Qofnat (Toy.sizes Val))%Q in
  ∃ s' loss,
    phase_body (Toy.forward Toy.always_right) Toy.argmax Toy.criterion
      Toy.backward Toy.sgd_step Toy.loaders Toy.sizes 0 Val Toy.state0
    = (Ok tt, s')
    ∧ (loss == Qsum (map (batch_weighted_loss (Toy.forward Toy.always_right)
                            Toy.criterion false w) (Toy.loaders Val 0))
               / Qofnat (Toy.sizes Val))%Q
    ∧ EvReport Val 0 loss acc w ∈ log s'
    ∧ val_reports (log s') = val_reports (log Toy.state0) ++ [(0, acc, w)].
Proof.
  apply (validation_report_is_exact
           (Toy.forward Toy.always_right) Toy.argmax Toy.criterion
           Toy.backward Toy.sgd_step Toy.loaders Toy.sizes 0 Toy.state0).
  - vm_compute. discriminate.
  - vm_compute. discriminate.
Defined.

Lemma last_seeding_wins_witness :
  set_seed Toy.seed_gen Toy.seed_gen Toy.seed_gen 42
    (set_seed Toy.seed_gen Toy.seed_gen Toy.seed_gen 7 Edge.ambient_cuda)
  = set_seed Toy.seed_gen Toy.seed_gen Toy.seed_gen 42 Edge.ambient_cuda
  ∧ set_seed Toy.seed_gen Toy.seed_gen Toy.seed_gen 42
      (worker_init_fn Toy.seed_gen 3 Edge.ambient_cuda)
    = set_seed Toy.seed_gen Toy.seed_gen Toy.seed_gen 42 Edge.ambient_cuda
  ∧ (∀ g, torch_cuda Edge.ambient_cuda = Some g →
          torch_cuda (set_seed Toy.seed_gen Toy.seed_gen Toy.seed_gen 7
                        Edge.ambient_cuda)
          = Some (Toy.seed_gen 7))
  ∧ (torch_cuda Edge.ambient_cuda = None →
     torch_cuda (set_seed Toy.seed_gen Toy.seed_gen Toy.seed_gen 7
                   Edge.ambient_cuda) = None)
  ∧ np_random (set_seed Toy.seed_gen Toy.seed_gen Toy.seed_gen 7
                 Edge.ambient_cuda) = Toy.seed_gen 7
  ∧ worker_init_fn Toy.seed_gen 3
      (worker_init_fn Toy.seed_gen 1 Edge.ambient_cuda)
    = worker_init_fn Toy.seed_gen 3 Edge.ambient_cuda
  ∧ worker_init_fn Toy.seed_gen 3
      (set_seed Toy.seed_gen Toy.seed_gen Toy.seed_gen 7 Edge.ambient_cuda)
    = {| py_random := Toy.seed_gen 7;
         np_random := Toy.seed_gen (42 + Z.of_nat 3);
         torch_cpu := Toy.seed_gen 7;
         torch_cuda :=
           torch_cuda (set_seed Toy.seed_gen Toy.seed_gen Toy.seed_gen 7
                         Edge.ambient_cuda);
         cudnn_deterministic := true;
         cudnn_benchmark := false |}.
Proof.
  apply (last_seeding_wins Toy.seed_gen Toy.seed_gen Toy.seed_gen
           7%Z 42%Z 3 1 Edge.ambient_cuda).
  - lia.
  - lia.
  - vm_compute. reflexivity.
  - vm_compute. reflexivity.
Defined.

(** With an accelerator, its generator is seeded with the seed given. *)
Example toy_set_seed_cuda :
  torch_cuda (set_seed Toy.seed_gen Toy.seed_gen Toy.seed_gen 42
                Edge.ambient_cuda) = Some 42%Z
  ∧ torch_cuda (set_seed Toy.seed_gen Toy.seed_gen Toy.seed_gen 42
                  Toy.ambient1) = None.
Proof. by vm_compute. Qed.
